(** * Array-backed d-ary heaps (python-heaps): a shallow embedding and its
      verification.

    The development follows [d_heap.py] (class [DHeap]) and [binaryheap.py]
    (class [BinaryHeap]).  The elements are integers, as in the unit tests of
    the two files; positions are integers too, since the code computes with
    them before it knows whether they are in range.  Python lists are
    mutable objects that can be shared between the caller and a heap
    ([heapify] wraps the caller's list, the constructor allocates a new one),
    so lists live in a store indexed by object identity and every method is a
    state transformer over the receiver and the store that either returns a
    value or raises. *)

From Stdlib Require Import ZArith Lia List Permutation Sorted.
From stdpp Require Import base option list gmap.

Open Scope Z_scope.

(** ** Python primitives used by the two classes *)

Module Py.

(** The exceptions the code can raise.  [Dangling] is not a Python
    exception: it marks a reference that names no object of the store, which
    no Python program can hold.  [RecursionError] is what a recursion that
    does not stop ends in. *)
Inductive exn : Set :=
| IndexError
| ZeroDivisionError
| RecursionError
| Dangling.

Inductive result (A : Type) : Type :=
| Ok (v : A)
| Raise (e : exn).
Arguments Ok {A} v.
Arguments Raise {A} e.

(** Object identities of list objects, and the store of list objects. *)
Abbreviation loc := nat.
Abbreviation store := (gmap nat (list Z)).

(** What a constructor or a method can iterate over: an immutable tuple of
    values, or a list object of the store. *)
Inductive iterable : Type :=
| Tuple (vals : list Z)
| ListRef (l : loc).

(** The instance methods a caller can invoke on a heap, and what they
    return. *)
Inductive call : Set :=
| Push (val : Z)
| Pop
| Peek
| Len
| ValidateHeap (parent : Z).

Inductive value : Set :=
| VNone
| VInt (z : Z)
| VBool (b : bool).

(** A statement of a caller's script, which holds one heap variable:
    [h = Class(initial_contents, max_heap)], [h = Class.heapify(l, max_heap)],
    [Class.heapsort(l, ascending)] and a method call on [h]. *)
Inductive stmt : Type :=
| Construct (initial_contents : iterable) (max_heap : bool)
| Heapify (unordered_list : loc) (max_heap : bool)
| Heapsort (unordered_list : loc) (ascending : bool)
| Call (c : call).

(** List subscripts: [0 .. len-1] address from the front, [-len .. -1] from
    the back, anything else is out of range. *)
Definition norm_index (len : nat) (i : Z) : option nat :=
  if (0 <=? i) && (i <? Z.of_nat len) then Some (Z.to_nat i)
  else if (i <? 0) && (- Z.of_nat len <=? i) then Some (Z.to_nat (Z.of_nat len + i))
  else None.

(** [a[i]] *)
Definition list_getitem (a : list Z) (i : Z) : result Z :=
  match norm_index (length a) i with
  | Some n => match a !! n with Some x => Ok x | None => Raise IndexError end
  | None => Raise IndexError
  end.

(** [a[i] = v] *)
Definition list_setitem (a : list Z) (i : Z) (v : Z) : result (list Z) :=
  match norm_index (length a) i with
  | Some n => Ok (<[n := v]> a)
  | None => Raise IndexError
  end.

(** [a.pop(i)]: the removed element and the shortened list. *)
Definition list_pop (a : list Z) (i : Z) : result (Z * list Z) :=
  match norm_index (length a) i with
  | Some n => match a !! n with
              | Some x => Ok (x, delete n a)
              | None => Raise IndexError
              end
  | None => Raise IndexError
  end.

(** [x // y] on integers: floor division, [ZeroDivisionError] for [y = 0]. *)
Definition floordiv (x y : Z) : result Z :=
  if y =? 0 then Raise ZeroDivisionError else Ok (x / y).

(** *** Methods as state transformers with exceptions

    [Obj] is the record of the receiver's attributes.  The state survives an
    exception: what was mutated before the raise stays mutated. *)
Section Monad.
Context {Obj : Type}.

Definition M (A : Type) : Type := Obj * store → result A * (Obj * store).

Definition ret {A} (v : A) : M A := λ s, (Ok v, s).
Definition raise {A} (e : exn) : M A := λ s, (Raise e, s).
Definition bind {A B} (m : M A) (k : A → M B) : M B :=
  λ s, match m s with
       | (Ok v, s') => k v s'
       | (Raise e, s') => (Raise e, s')
       end.
Definition lift {A} (r : result A) : M A := λ s, (r, s).

(** Reading and writing the receiver's attributes. *)
Definition attr {A} (f : Obj → A) : M A := λ s, (Ok (f s.1), s).
Definition set_self (f : Obj → Obj) : M unit := λ s, (Ok tt, (f s.1, s.2)).

(** Reading and replacing the list object at [l]. *)
Definition load (l : loc) : M (list Z) :=
  λ s, match s.2 !! l with
       | Some a => (Ok a, s)
       | None => (Raise Dangling, s)
       end.
Definition store_list (l : loc) (a : list Z) : M unit :=
  λ s, (Ok tt, (s.1, <[l := a]> s.2)).

Definition fmap_result {A B} (f : A → B) (m : M A) : M B :=
  bind m (λ v, ret (f v)).
End Monad.
Arguments M Obj A : clear implicits.

End Py.
Import Py.

Declare Scope py_scope.
Delimit Scope py_scope with py.
Notation "'let*' x ':=' m 'in' k" := (bind m (λ x, k))
  (at level 10, x name, m at level 100, k at level 200) : py_scope.
Notation "m ';;' k" := (bind m (λ _, k))
  (at level 100, k at level 200, right associativity) : py_scope.
Open Scope py_scope.

(** ** [class DHeap] ([d_heap.py]) *)

Module DHeap.

(** The attributes of a [DHeap] object.  [heap_array] is a reference to a
    list object. *)
Record t : Set := mk {
  branching_factor : Z;
  max_heap : bool;
  heap_array : loc;
  last_index : Z
}.

Definition with_last_index (f : Z → Z) (h : t) : t :=
  mk (branching_factor h) (max_heap h) (heap_array h) (f (last_index h)).
Definition with_heap_array (l : loc) (h : t) : t :=
  mk (branching_factor h) (max_heap h) l (last_index h).

(** [self.heap_array[i]] *)
Definition getitem (i : Z) : M t Z :=
  let* l := attr heap_array in
  let* a := load l in
  lift (list_getitem a i).

(** [self.heap_array[i] = v] *)
Definition setitem (i : Z) (v : Z) : M t unit :=
  let* l := attr heap_array in
  let* a := load l in
  let* a' := lift (list_setitem a i v) in
  store_list l a'.

(** [self.heap_array.append(val)] *)
Definition append (val : Z) : M t unit :=
  let* l := attr heap_array in
  let* a := load l in
  store_list l (a ++ [val]).

(** [self.heap_array.pop(i)] *)
Definition pop_item (i : Z) : M t Z :=
  let* l := attr heap_array in
  let* a := load l in
  let* xa := lift (list_pop a i) in
  store_list l xa.2 ;;
  ret xa.1.

(** [__swap]: the right-hand tuple is evaluated first ([heap_array[index_2]],
    then [heap_array[index_1]]), then the two slots are assigned from left
    to right. *)
Definition __swap (index_1 index_2 : Z) : M t unit :=
  let* x2 := getitem index_2 in
  let* x1 := getitem index_1 in
  setitem index_1 x2 ;;
  setitem index_2 x1.

(** [__compare]: strict [>] for a max heap, strict [<] for a min heap. *)
Definition __compare (index_1 index_2 : Z) : M t bool :=
  let* mh := attr max_heap in
  let* x1 := getitem index_1 in
  let* x2 := getitem index_2 in
  ret (if mh then x2 <? x1 else x1 <? x2).

(** [__sift_up].  The recursion of the source is followed down to [depth]
    calls; a call beyond that raises [RecursionError], as a recursion that
    does not stop does in Python.  The interpreter's own limit on the depth
    of the stack is not modelled. *)
Fixpoint sift_up_rec (depth : nat) (index : Z) : M t unit :=
  match depth with
  | O => raise RecursionError
  | S d =>
      let* bf := attr branching_factor in
      let* parent := lift (floordiv (index - 1) bf) in
      let* c := (if 0 <=? parent then __compare index parent else ret false) in
      if c then __swap index parent ;; sift_up_rec d parent
      else ret tt
  end.

(** The parent of a position is a smaller position when the branching factor
    is positive: [index + 1] calls are as deep as the recursion can get
    ([sift_up_rec_ok]), and a greater depth changes nothing
    ([sift_up_rec_more]). *)
Definition __sift_up (index : Z) : M t unit :=
  sift_up_rec (Z.to_nat index + 1) index.

(** The [while i <= self.branching_factor] loop of [__sift_down]: [cnt] is
    the number of iterations left, [i] the loop variable, [new_parent] the
    best position found so far. *)
Fixpoint scan_children (index : Z) (cnt : nat) (i : Z) (new_parent : Z) : M t Z :=
  match cnt with
  | O => ret new_parent
  | S cnt' =>
      let* bf := attr branching_factor in
      let* li := attr last_index in
      let child := index * bf + i in
      let* c := (if child <=? li then __compare child new_parent else ret false) in
      scan_children index cnt' (i + 1) (if c then child else new_parent)
  end.

(** [__sift_down].  [new_parent is not index] compares object identities;
    [new_parent] is either the very object [index] or a child position,
    which is a different number than [index] at every call the classes
    make (positions are never negative there), so the test is the
    inequality of the two numbers. *)
Fixpoint sift_down_rec (depth : nat) (index : Z) : M t unit :=
  match depth with
  | O => raise RecursionError
  | S d =>
      let* bf := attr branching_factor in
      let* new_parent := scan_children index (Z.to_nat bf) 1 index in
      if negb (new_parent =? index)
      then __swap index new_parent ;; sift_down_rec d new_parent
      else ret tt
  end.

(** A selected child is a greater position, not past [last_index]:
    [last_index - index + 1] calls are as deep as the recursion can get
    ([sift_down_rec_ok], [sift_down_rec_more]). *)
Definition __sift_down (index : Z) : M t unit :=
  let* li := attr last_index in
  sift_down_rec (Z.to_nat (li - index) + 1) index.

(** [peek] *)
Definition peek : M t Z := getitem 0.

(** [push] *)
Definition push (val : Z) : M t unit :=
  set_self (with_last_index (λ i, i + 1)) ;;
  append val ;;
  let* li := attr last_index in
  __sift_up li.

(** [pop] *)
Definition pop : M t Z :=
  let* ret_val := peek in
  let* li := attr last_index in
  __swap 0 li ;;
  let* li := attr last_index in
  pop_item li ;;
  set_self (with_last_index (λ i, i - 1)) ;;
  __sift_down 0 ;;
  ret ret_val.

(** [for val in initial_contents: self.push(val)].  A tuple is walked
    through; a list object is read through its iterator, which looks up the
    next position in the list as it is at that moment and stops when the
    position is past the end.  [n] is the length of the list when the loop
    starts. *)
Fixpoint push_all (vals : list Z) : M t unit :=
  match vals with
  | [] => ret tt
  | val :: vals' => push val ;; push_all vals'
  end.

Fixpoint push_from (src : loc) (n : nat) (pos : nat) : M t unit :=
  match n with
  | O => ret tt
  | S n' =>
      let* a := load src in
      match a !! pos with
      | Some val => push val ;; push_from src n' (S pos)
      | None => ret tt
      end
  end.

(** [__init__]: the heap gets a new, empty list object of its own. *)
Definition __init__ (initial_contents : iterable) (max_heap : bool)
    (branching_factor : Z) (st : store) : result t * store :=
  let l := fresh (dom st) in
  let self := mk branching_factor max_heap l (-1) in
  let fill :=
    match initial_contents with
    | Tuple vals => push_all vals
    | ListRef src => let* a := load src in push_from src (length a) 0
    end in
  match fill (self, <[l := []]> st) with
  | (Ok _, (self', st')) => (Ok self', st')
  | (Raise e, (_, st')) => (Raise e, st')
  end.

(** The [while start >= 0] loop of [heapify]; [n] is the number of
    iterations left. *)
Fixpoint heapify_loop (n : nat) (start : Z) : M t unit :=
  match n with
  | O => ret tt
  | S n' =>
      if 0 <=? start
      then __sift_down start ;; heapify_loop n' (start - 1)
      else ret tt
  end.

(** [heapify] (static): wraps the list object it is given. *)
Definition heapify (unordered_list : loc) (max_heap : bool)
    (branching_factor : Z) (st : store) : result t * store :=
  match __init__ (Tuple []) max_heap branching_factor st with
  | (Raise e, st0) => (Raise e, st0)
  | (Ok heap, st0) =>
      let body : M t unit :=
        set_self (with_heap_array unordered_list) ;;
        let* a := load unordered_list in
        set_self (with_last_index (λ _, Z.of_nat (length a) - 1)) ;;
        let* li := attr last_index in
        let* bf := attr DHeap.branching_factor in
        let* start := lift (floordiv (li - 1) bf) in
        heapify_loop (Z.to_nat (start + 1)) start in
      match body (heap, st0) with
      | (Ok _, (heap', st')) => (Ok heap', st')
      | (Raise e, (_, st')) => (Raise e, st')
      end
  end.

(** The [while heap.last_index >= 0] loop of [heapsort]; [n] is the number
    of iterations left. *)
Fixpoint heapsort_loop (n : nat) : M t unit :=
  match n with
  | O => ret tt
  | S n' =>
      let* li := attr last_index in
      if 0 <=? li
      then __swap 0 li ;;
           set_self (with_last_index (λ i, i - 1)) ;;
           __sift_down 0 ;;
           heapsort_loop n'
      else ret tt
  end.

(** [heapsort] (static): the branching factor is [heapify]'s default, 2. *)
Definition heapsort (unordered_list : loc) (ascending : bool)
    (st : store) : result unit * store :=
  match heapify unordered_list ascending 2 st with
  | (Raise e, st0) => (Raise e, st0)
  | (Ok heap, st0) =>
      match heapsort_loop (Z.to_nat (last_index heap + 1)) (heap, st0) with
      | (r, (_, st')) => (r, st')
      end
  end.

(** The [while i < self.branching_factor] loop of [validate_heap], which
    returns from inside the loop; [rec] is the recursive call. *)
Fixpoint validate_loop (rec : Z → M t bool) (first_child parent : Z)
    (cnt : nat) (i : Z) : M t bool :=
  match cnt with
  | O => ret true
  | S cnt' =>
      let child := first_child + i in
      let* li := attr last_index in
      if child <=? li
      then let* c := __compare child parent in
           if c then ret false else rec child
      else validate_loop rec first_child parent cnt' (i + 1)
  end.

Fixpoint validate_rec (depth : nat) (parent : Z) : M t bool :=
  match depth with
  | O => raise RecursionError
  | S d =>
      let* bf := attr branching_factor in
      validate_loop (validate_rec d) (parent * bf + 1) parent (Z.to_nat bf) 0
  end.

(** [validate_heap]; the depth is that of [__sift_down]
    ([validate_rec_more]). *)
Definition validate_heap (parent : Z) : M t bool :=
  let* li := attr last_index in
  validate_rec (Z.to_nat (li - parent) + 1) parent.

(** [__len__] *)
Definition __len__ : M t Z :=
  let* li := attr last_index in ret (li + 1).

(** A method call, with its return value. *)
Definition exec (c : call) : M t value :=
  match c with
  | Push val => fmap_result (λ _, VNone) (push val)
  | Pop => fmap_result VInt pop
  | Peek => fmap_result VInt peek
  | Len => fmap_result VInt __len__
  | ValidateHeap parent => fmap_result VBool (validate_heap parent)
  end.

(** [n] times [pop], collecting what is returned. *)
Fixpoint pop_all (n : nat) : M t (list Z) :=
  match n with
  | O => ret []
  | S n' => let* x := pop in let* xs := pop_all n' in ret (x :: xs)
  end.

(** A caller's script over [DHeap] objects of branching factor [bf].  The
    caller goes on after an exception; a heap whose construction raised is
    not bound to the variable; a call while the variable holds no heap is
    marked [Dangling]. *)
Definition run_stmt (bf : Z) (s : stmt) (cur : option t) (st : store)
    : result value * (option t * store) :=
  match s with
  | Construct ic mh =>
      match __init__ ic mh bf st with
      | (Ok h, st') => (Ok VNone, (Some h, st'))
      | (Raise e, st') => (Raise e, (cur, st'))
      end
  | Heapify l mh =>
      match heapify l mh bf st with
      | (Ok h, st') => (Ok VNone, (Some h, st'))
      | (Raise e, st') => (Raise e, (cur, st'))
      end
  | Heapsort l asc =>
      match heapsort l asc st with
      | (Ok _, st') => (Ok VNone, (cur, st'))
      | (Raise e, st') => (Raise e, (cur, st'))
      end
  | Call c =>
      match cur with
      | Some h => match exec c (h, st) with (r, (h', st')) => (r, (Some h', st')) end
      | None => (Raise Dangling, (cur, st))
      end
  end.

Fixpoint run (bf : Z) (script : list stmt) (cur : option t) (st : store)
    : list (result value) * (option t * store) :=
  match script with
  | [] => ([], (cur, st))
  | s :: script' =>
      match run_stmt bf s cur st with
      | (r, (cur', st')) =>
          match run bf script' cur' st' with
          | (rs, fin) => (r :: rs, fin)
          end
      end
  end.

End DHeap.

(** ** [class BinaryHeap] ([binaryheap.py]) *)

Module BinaryHeap.

Record t : Set := mk {
  max_heap : bool;
  heap_array : loc;
  last_index : Z
}.

Definition with_last_index (f : Z → Z) (h : t) : t :=
  mk (max_heap h) (heap_array h) (f (last_index h)).
Definition with_heap_array (l : loc) (h : t) : t :=
  mk (max_heap h) l (last_index h).

Definition getitem (i : Z) : M t Z :=
  let* l := attr heap_array in
  let* a := load l in
  lift (list_getitem a i).

Definition setitem (i : Z) (v : Z) : M t unit :=
  let* l := attr heap_array in
  let* a := load l in
  let* a' := lift (list_setitem a i v) in
  store_list l a'.

(** [self.heap_array.append(val)] *)
Definition append (val : Z) : M t unit :=
  let* l := attr heap_array in
  let* a := load l in
  store_list l (a ++ [val]).

(** [self.heap_array.pop(i)] *)
Definition pop_item (i : Z) : M t Z :=
  let* l := attr heap_array in
  let* a := load l in
  let* xa := lift (list_pop a i) in
  store_list l xa.2 ;;
  ret xa.1.

(** [__swap] *)
Definition __swap (index_1 index_2 : Z) : M t unit :=
  let* x2 := getitem index_2 in
  let* x1 := getitem index_1 in
  setitem index_1 x2 ;;
  setitem index_2 x1.

(** [__compare] *)
Definition __compare (index_1 index_2 : Z) : M t bool :=
  let* mh := attr max_heap in
  let* x1 := getitem index_1 in
  let* x2 := getitem index_2 in
  ret (if mh then x2 <? x1 else x1 <? x2).

(** [__sift_up]: the parent is [(index - 1) // 2]. *)
Fixpoint sift_up_rec (depth : nat) (index : Z) : M t unit :=
  match depth with
  | O => raise RecursionError
  | S d =>
      let parent := (index - 1) / 2 in
      let* c := (if 0 <=? parent then __compare index parent else ret false) in
      if c then __swap index parent ;; sift_up_rec d parent
      else ret tt
  end.

Definition __sift_up (index : Z) : M t unit :=
  sift_up_rec (Z.to_nat index + 1) index.

(** [__sift_down]: the left child, then the right child. *)
Fixpoint sift_down_rec (depth : nat) (index : Z) : M t unit :=
  match depth with
  | O => raise RecursionError
  | S d =>
      let left := index * 2 + 1 in
      let right := index * 2 + 2 in
      let* li := attr last_index in
      let* c1 := (if left <=? li then __compare left index else ret false) in
      let new_parent := if c1 then left else index in
      let* li := attr last_index in
      let* c2 := (if right <=? li then __compare right new_parent else ret false) in
      let new_parent := if c2 then right else new_parent in
      if negb (new_parent =? index)
      then __swap index new_parent ;; sift_down_rec d new_parent
      else ret tt
  end.

Definition __sift_down (index : Z) : M t unit :=
  let* li := attr last_index in
  sift_down_rec (Z.to_nat (li - index) + 1) index.

(** [peek] *)
Definition peek : M t Z := getitem 0.

(** [push] *)
Definition push (val : Z) : M t unit :=
  set_self (with_last_index (λ i, i + 1)) ;;
  append val ;;
  let* li := attr last_index in
  __sift_up li.

(** [pop] *)
Definition pop : M t Z :=
  let* ret_val := peek in
  let* li := attr last_index in
  __swap 0 li ;;
  let* li := attr last_index in
  pop_item li ;;
  set_self (with_last_index (λ i, i - 1)) ;;
  __sift_down 0 ;;
  ret ret_val.

Fixpoint push_all (vals : list Z) : M t unit :=
  match vals with
  | [] => ret tt
  | val :: vals' => push val ;; push_all vals'
  end.

Fixpoint push_from (src : loc) (n : nat) (pos : nat) : M t unit :=
  match n with
  | O => ret tt
  | S n' =>
      let* a := load src in
      match a !! pos with
      | Some val => push val ;; push_from src n' (S pos)
      | None => ret tt
      end
  end.

(** [__init__] *)
Definition __init__ (initial_contents : iterable) (max_heap : bool)
    (st : store) : result t * store :=
  let l := fresh (dom st) in
  let self := mk max_heap l (-1) in
  let fill :=
    match initial_contents with
    | Tuple vals => push_all vals
    | ListRef src => let* a := load src in push_from src (length a) 0
    end in
  match fill (self, <[l := []]> st) with
  | (Ok _, (self', st')) => (Ok self', st')
  | (Raise e, (_, st')) => (Raise e, st')
  end.

Fixpoint heapify_loop (n : nat) (start : Z) : M t unit :=
  match n with
  | O => ret tt
  | S n' =>
      if 0 <=? start
      then __sift_down start ;; heapify_loop n' (start - 1)
      else ret tt
  end.

(** [heapify] (static) *)
Definition heapify (unordered_list : loc) (max_heap : bool)
    (st : store) : result t * store :=
  match __init__ (Tuple []) max_heap st with
  | (Raise e, st0) => (Raise e, st0)
  | (Ok heap, st0) =>
      let body : M t unit :=
        set_self (with_heap_array unordered_list) ;;
        let* a := load unordered_list in
        set_self (with_last_index (λ _, Z.of_nat (length a) - 1)) ;;
        let* li := attr last_index in
        let start := (li - 1) / 2 in
        heapify_loop (Z.to_nat (start + 1)) start in
      match body (heap, st0) with
      | (Ok _, (heap', st')) => (Ok heap', st')
      | (Raise e, (_, st')) => (Raise e, st')
      end
  end.

Fixpoint heapsort_loop (n : nat) : M t unit :=
  match n with
  | O => ret tt
  | S n' =>
      let* li := attr last_index in
      if 0 <=? li
      then __swap 0 li ;;
           set_self (with_last_index (λ i, i - 1)) ;;
           __sift_down 0 ;;
           heapsort_loop n'
      else ret tt
  end.

(** [heapsort] (static) *)
Definition heapsort (unordered_list : loc) (ascending : bool)
    (st : store) : result unit * store :=
  match heapify unordered_list ascending st with
  | (Raise e, st0) => (Raise e, st0)
  | (Ok heap, st0) =>
      match heapsort_loop (Z.to_nat (last_index heap + 1)) (heap, st0) with
      | (r, (_, st')) => (r, st')
      end
  end.

(** The [while i < 2] loop of [validate_heap]. *)
Fixpoint validate_loop (rec : Z → M t bool) (first_child parent : Z)
    (cnt : nat) (i : Z) : M t bool :=
  match cnt with
  | O => ret true
  | S cnt' =>
      let child := first_child + i in
      let* li := attr last_index in
      if child <=? li
      then let* c := __compare child parent in
           if c then ret false else rec child
      else validate_loop rec first_child parent cnt' (i + 1)
  end.

Fixpoint validate_rec (depth : nat) (parent : Z) : M t bool :=
  match depth with
  | O => raise RecursionError
  | S d => validate_loop (validate_rec d) (parent * 2 + 1) parent 2 0
  end.

(** [validate_heap] *)
Definition validate_heap (parent : Z) : M t bool :=
  let* li := attr last_index in
  validate_rec (Z.to_nat (li - parent) + 1) parent.

(** [__len__] *)
Definition __len__ : M t Z :=
  let* li := attr last_index in ret (li + 1).

Definition exec (c : call) : M t value :=
  match c with
  | Push val => fmap_result (λ _, VNone) (push val)
  | Pop => fmap_result VInt pop
  | Peek => fmap_result VInt peek
  | Len => fmap_result VInt __len__
  | ValidateHeap parent => fmap_result VBool (validate_heap parent)
  end.

(** A caller's script over [BinaryHeap] objects. *)
Definition run_stmt (s : stmt) (cur : option t) (st : store)
    : result value * (option t * store) :=
  match s with
  | Construct ic mh =>
      match __init__ ic mh st with
      | (Ok h, st') => (Ok VNone, (Some h, st'))
      | (Raise e, st') => (Raise e, (cur, st'))
      end
  | Heapify l mh =>
      match heapify l mh st with
      | (Ok h, st') => (Ok VNone, (Some h, st'))
      | (Raise e, st') => (Raise e, (cur, st'))
      end
  | Heapsort l asc =>
      match heapsort l asc st with
      | (Ok _, st') => (Ok VNone, (cur, st'))
      | (Raise e, st') => (Raise e, (cur, st'))
      end
  | Call c =>
      match cur with
      | Some h => match exec c (h, st) with (r, (h', st')) => (r, (Some h', st')) end
      | None => (Raise Dangling, (cur, st))
      end
  end.

Fixpoint run (script : list stmt) (cur : option t) (st : store)
    : list (result value) * (option t * store) :=
  match script with
  | [] => ([], (cur, st))
  | s :: script' =>
      match run_stmt s cur st with
      | (r, (cur', st')) =>
          match run script' cur' st' with
          | (rs, fin) => (r :: rs, fin)
          end
      end
  end.

End BinaryHeap.

(** ** Specification vocabulary *)

(** The element at position [i] of a list (for positions in range). *)
Definition item (a : list Z) (i : Z) : Z := a !!! Z.to_nat i.

(** The list after [a[i], a[j] = a[j], a[i]]. *)
Definition swapped (a : list Z) (i j : Z) : list Z :=
  <[Z.to_nat j := item a i]> (<[Z.to_nat i := item a j]> a).

Definition in_range (a : list Z) (i : Z) : Prop := 0 ≤ i < Z.of_nat (length a).

(** What [__compare] computes on two elements: [x] has to be above [y]. *)
Definition beats (mh : bool) (x y : Z) : bool := if mh then y <? x else x <? y.

(** [x] is at least as extreme as [y]: [x ≥ y] in a max heap, [x ≤ y] in a
    min heap. *)
Definition at_least (mh : bool) (x y : Z) : Prop := if mh then y ≤ x else x ≤ y.

(** The order in which a heap gives its elements back: descending for a max
    heap, ascending for a min heap. *)
Definition pop_order (mh : bool) : list Z → Prop := StronglySorted (at_least mh).

(** The order [heapsort] is asked for. *)
Definition in_order (ascending : bool) (x y : Z) : Prop :=
  if ascending then x ≤ y else y ≤ x.
Definition sorted_as (ascending : bool) : list Z → Prop :=
  StronglySorted (in_order ascending).

(** The heap property over the first [size] positions of storage [a]:
    both positions hold an element and the parent's is at least as extreme. *)
Definition heap_property (bf : Z) (mh : bool) (a : list Z) (size : Z) : Prop :=
  ∀ i k, 0 ≤ i < size → 0 ≤ k < bf → i * bf + k + 1 < size →
    ∃ x y, a !! Z.to_nat i = Some x ∧ a !! Z.to_nat (i * bf + k + 1) = Some y ∧
           at_least mh x y.

(** The one root-to-leaf path the specification says [validate_heap parent]
    follows: [parent], its first child, the first child of that one, and so
    on while the position is not past [last]. *)
Fixpoint first_path (bf last : Z) (depth : nat) (p : Z) : list Z :=
  match depth with
  | O => [p]
  | S d => p :: (if p * bf + 1 <=? last then first_path bf last d (p * bf + 1) else [])
  end.

(** The storage of a heap and its logical size. *)
Definition storage (h : DHeap.t) (st : store) : option (list Z) :=
  st !! DHeap.heap_array h.
Definition size (h : DHeap.t) : Z := DHeap.last_index h + 1.

(** The heaps a caller can hold: made by the constructor (empty or with
    initial contents) or by [heapify], then used through the instance
    methods.  A method that raises leaves the caller with the heap as it is
    at that moment. *)
Inductive reachable : DHeap.t → store → Prop :=
| reach_init st ic mh bf h st' :
    DHeap.__init__ ic mh bf st = (Ok h, st') → reachable h st'
| reach_heapify st l mh bf h st' :
    DHeap.heapify l mh bf st = (Ok h, st') → reachable h st'
| reach_call h st c r h' st' :
    reachable h st → DHeap.exec c (h, st) = (r, (h', st')) → reachable h' st'.

(** The state of a [BinaryHeap] seen as that of a [DHeap] of branching
    factor 2. *)
Definition as_dheap (h : BinaryHeap.t) : DHeap.t :=
  DHeap.mk 2 (BinaryHeap.max_heap h) (BinaryHeap.heap_array h) (BinaryHeap.last_index h).

(** ** The implicit tree and heap order

    [c] is one of the [bf] children of [p]. *)
Definition child (bf : Z) (p c : Z) : Prop := p * bf + 1 ≤ c ≤ p * bf + bf.

Definition ordered (mh : bool) (a : list Z) (p c : Z) : Prop :=
  at_least mh (item a p) (item a c).

(** Every parent from position [k] on is in order with its children, on the
    positions [0 .. last]. *)
Definition heap_from (bf : Z) (mh : bool) (last : Z) (a : list Z) (k : Z) : Prop :=
  ∀ p c, k ≤ p → child bf p c → c ≤ last → ordered mh a p c.

(** The state in which [__sift_down] is called at [i]: the parents from [k]
    on other than [i] are in order with their children, and so is the
    parent of [i] with the children of [i]. *)
Definition sift_down_pre (bf : Z) (mh : bool) (last : Z) (a : list Z) (k i : Z) : Prop :=
  (∀ p c, k ≤ p → p ≠ i → child bf p c → c ≤ last → ordered mh a p c) ∧
  (∀ q c, k ≤ q → child bf q i → child bf i c → c ≤ last → ordered mh a q c).

(** The state in which [__sift_up] is called at [i]: every child other
    than [i] is in order with its parent, and the parent of [i] is in order
    with the children of [i]. *)
Definition sift_up_pre (bf : Z) (mh : bool) (last : Z) (a : list Z) (i : Z) : Prop :=
  (∀ p c, 0 ≤ p → child bf p c → c ≤ last → c ≠ i → ordered mh a p c) ∧
  (∀ q c, 0 ≤ q → child bf q i → child bf i c → c ≤ last → ordered mh a q c).

(** ** Vocabulary of the proofs *)

(** What the scan over the children of [index] has selected when it started
    at the [i]-th child with [np] as the best position so far and ran for
    [cnt] iterations: [np'] is [np] or a scanned child in range; it beats
    [np] unless it is [np]; it is at least as extreme as every scanned child
    in range; and it beats every scanned child to its left. *)
Definition selected (bf : Z) (mh : bool) (last : Z) (a : list Z)
    (index i : Z) (cnt : nat) (np np' : Z) : Prop :=
  (np' = np ∨ ∃ j, i ≤ j < i + Z.of_nat cnt ∧ np' = index * bf + j ∧ np' ≤ last) ∧
  (np' ≠ np → beats mh (item a np') (item a np) = true) ∧
  (∀ j, i ≤ j < i + Z.of_nat cnt → index * bf + j ≤ last →
     at_least mh (item a np') (item a (index * bf + j))) ∧
  (∀ j, i ≤ j < i + Z.of_nat cnt → index * bf + j < np' →
     beats mh (item a np') (item a (index * bf + j)) = true).

(** What [__sift_down index] leaves behind: a permutation of the storage
    that differs only on the positions [index .. last], where it only moves
    elements around, and that is in heap order from every [k] on from which
    the storage was in order but for [index]. *)
Definition sifted_down (bf : Z) (mh : bool) (last : Z) (a a' : list Z)
    (index : Z) : Prop :=
  length a' = length a ∧ a' ≡ₚ a ∧
  (∀ j, 0 ≤ j → j < index ∨ last < j → item a' j = item a j) ∧
  (∀ j, index ≤ j ≤ last → ∃ j', index ≤ j' ≤ last ∧ item a' j = item a j') ∧
  (∀ k, 0 ≤ k ≤ index →
     sift_down_pre bf mh last a k index → heap_from bf mh last a' k).

(** From [s] to [s']: the receiver's attributes are the same, the other list
    objects are untouched, and the storage, if it is in the store, still is
    and has the same length. *)
Definition same_len (s s' : DHeap.t * store) : Prop :=
  s'.1 = s.1 ∧
  (∀ l, l ≠ DHeap.heap_array s.1 → s'.2 !! l = s.2 !! l) ∧
  (∀ a, s.2 !! DHeap.heap_array s.1 = Some a →
     ∃ a', s'.2 !! DHeap.heap_array s.1 = Some a' ∧ length a' = length a).

(** The invariant of the heaps a caller can hold: the storage is a list
    object of the store whose length is the logical size, and it is in heap
    order when the branching factor is positive. *)
Definition valid (h : DHeap.t) (st : store) : Prop :=
  ∃ a, st !! DHeap.heap_array h = Some a ∧
       Z.of_nat (length a) = DHeap.last_index h + 1 ∧
       (1 ≤ DHeap.branching_factor h →
        heap_from (DHeap.branching_factor h) (DHeap.max_heap h) (DHeap.last_index h) a 0).

(** The receiver after [self.last_index += 1] and after [self.last_index -= 1]. *)
Definition grown (h : DHeap.t) : DHeap.t := DHeap.with_last_index (λ i, i + 1) h.
Definition shrunk (h : DHeap.t) : DHeap.t := DHeap.with_last_index (λ i, i - 1) h.

(** The positions from [m] on are in their final order. *)
Definition suffix_sorted (mh : bool) (b : list Z) (m : Z) : Prop :=
  ∀ i j, m ≤ i → i ≤ j → j < Z.of_nat (length b) →
    at_least mh (item b j) (item b i).

(** No element before [m] is more extreme than one from [m] on. *)
Definition prefix_below (mh : bool) (b : list Z) (m : Z) : Prop :=
  ∀ i j, 0 ≤ i < m → m ≤ j < Z.of_nat (length b) →
    at_least mh (item b j) (item b i).

(** A state of a [BinaryHeap] and the outcome of one of its methods, seen as
    those of a [DHeap] of branching factor 2. *)
Definition lift_state (s : BinaryHeap.t * store) : DHeap.t * store :=
  (as_dheap s.1, s.2).

Definition lift_out {A} (o : result A * (BinaryHeap.t * store))
    : result A * (DHeap.t * store) :=
  (o.1, lift_state o.2).

(** The two computations do the same from corresponding states. *)
Definition sim {A} (mb : M BinaryHeap.t A) (md : M DHeap.t A) : Prop :=
  ∀ s, md (lift_state s) = lift_out (mb s).

(** The two tests of [BinaryHeap.__sift_down], as a selection of the new
    parent. *)
Definition select2 (index : Z) : M BinaryHeap.t Z :=
  let left := index * 2 + 1 in
  let right := index * 2 + 2 in
  let* li := attr BinaryHeap.last_index in
  let* c1 := (if left <=? li then BinaryHeap.__compare left index else ret false) in
  let new_parent := if c1 then left else index in
  let* li := attr BinaryHeap.last_index in
  let* c2 := (if right <=? li then BinaryHeap.__compare right new_parent else ret false) in
  ret (if c2 then right else new_parent).

(** What a constructor or a static method gives back. *)
Definition lift_new (o : result BinaryHeap.t * store) : result DHeap.t * store :=
  (match o.1 with Ok h => Ok (as_dheap h) | Raise e => Raise e end, o.2).

(** The heap variable of a script. *)
Definition lift_cur (cur : option BinaryHeap.t) : option DHeap.t :=
  match cur with Some h => Some (as_dheap h) | None => None end.

(** ** Vocabulary of the further properties *)

(** From [s] to [s']: the receiver's attributes are the same, the other list
    objects are untouched, and the storage, if it is in the store, still is
    and holds the same elements. *)
Definition same_elements (s s' : DHeap.t * store) : Prop :=
  s'.1 = s.1 ∧
  (∀ l, l ≠ DHeap.heap_array s.1 → s'.2 !! l = s.2 !! l) ∧
  (∀ a, s.2 !! DHeap.heap_array s.1 = Some a →
     ∃ a', s'.2 !! DHeap.heap_array s.1 = Some a' ∧ a' ≡ₚ a).

(** The subscript [i] is one that a list of length [len] accepts. *)
Definition subscript_ok (len : nat) (i : Z) : Prop :=
  - Z.of_nat len ≤ i < Z.of_nat len.

(** The more extreme of two elements. *)
Definition more_extreme (mh : bool) (x y : Z) : Z := if beats mh x y then x else y.

(** The [BinaryHeap] objects a caller can hold. *)
Inductive reachable_binary : BinaryHeap.t → store → Prop :=
| reach_binary_init st ic mh h st' :
    BinaryHeap.__init__ ic mh st = (Ok h, st') → reachable_binary h st'
| reach_binary_heapify st l mh h st' :
    BinaryHeap.heapify l mh st = (Ok h, st') → reachable_binary h st'
| reach_binary_call h st c r h' st' :
    reachable_binary h st → BinaryHeap.exec c (h, st) = (r, (h', st')) →
    reachable_binary h' st'.

(** ** States of the unit tests and other examples *)

(** The heap over the list of [test_pop], built by the constructor from the
    caller's list object at address 0, and the heap after one [pop]. *)
Definition pop_source : store := {[ 0%nat := [-10; 0; 5; -2; 5; 1024; -999] ]}.
Definition pop_heap : DHeap.t := DHeap.mk 2 true 1%nat 6.
Definition pop_store : store := <[ 1%nat := [1024; 5; 5; -10; -2; 0; -999] ]> pop_source.
Definition pop_heap' : DHeap.t := DHeap.mk 2 true 1%nat 5.
Definition pop_store' : store := <[ 1%nat := [5; -2; 5; -10; -999; 0] ]> pop_source.
Definition empty_heap : DHeap.t := DHeap.mk 2 true 0%nat (-1).
Definition empty_store : store := {[ 0%nat := [] ]}.

(** The list of [test_heapsort], at address 0 of the caller's store. *)
Definition sort_source : store :=
  {[ 0%nat := [1; 5; 64; 64; 12315; 677; -15; -1002] ]}.

(** A root with two equally extreme children. *)
Definition tie_heap : DHeap.t := DHeap.mk 2 true 0%nat 2.
Definition tie_store : store := {[ 0%nat := [1; 7; 7] ]}.

(** A storage that is not a heap at the second child of the root. *)
Definition broken_heap : DHeap.t := DHeap.mk 2 true 0%nat 2.
Definition broken_store : store := {[ 0%nat := [5; 3; 9] ]}.

(** The [BinaryHeap] over the list of [test_pop]. *)
Definition binary_pop_heap : BinaryHeap.t := BinaryHeap.mk true 1%nat 6.

(** The list of [test_heapify], at address 0, and a list in heap order. *)
Definition heapify_source : store := {[ 0%nat := [1; 0; 5; 103; -23; -2213415] ]}.
Definition heap_source : store := {[ 0%nat := [9; 4; 7; 1] ]}.

(** The list of [test_heapsort] in another arrangement, at address 0. *)
Definition shuffled_source : store :=
  {[ 0%nat := [-1002; 677; 64; 1; 5; 12315; -15; 64] ]}.

(** The list of [test_binary_heap_construction], at address 0. *)
Definition construction_source : store := {[ 0%nat := [1; 1; 5; 10; -23; 105] ]}.

(** The constructor raises for every branching factor below 1. *)
Definition rejects_branching_factor_below_1 : Prop :=
  ∀ (ic : iterable) (mh : bool) (bf : Z) (st : store),
    bf < 1 → ∃ e st', DHeap.__init__ ic mh bf st = (Raise e, st').

(** ** Lists as arrays: positions, swaps *)

Section Arrays.
Implicit Types (a : list Z) (i j k : Z).

Lemma norm_index_in n i :
  0 ≤ i < Z.of_nat n → norm_index n i = Some (Z.to_nat i).
Proof.
  intros H. unfold norm_index.
  destruct (Z.leb_spec 0 i); [|lia].
  destruct (Z.ltb_spec i (Z.of_nat n)); [|lia]. reflexivity.
Qed.

Lemma lookup_item a i : in_range a i → a !! Z.to_nat i = Some (item a i).
Proof.
  intros H. apply list_lookup_lookup_total_lt. unfold in_range in H. lia.
Qed.

Lemma list_getitem_in a i : in_range a i → list_getitem a i = Ok (item a i).
Proof.
  intros H. unfold list_getitem.
  rewrite norm_index_in by exact H. now rewrite lookup_item.
Qed.

Lemma list_getitem_nil i : list_getitem [] i = Raise IndexError.
Proof.
  unfold list_getitem.
  destruct (norm_index _ _); [rewrite lookup_nil|]; reflexivity.
Qed.

Lemma list_setitem_in a i v :
  in_range a i → list_setitem a i v = Ok (<[Z.to_nat i := v]> a).
Proof. intros H. unfold list_setitem. now rewrite norm_index_in. Qed.

Lemma length_swapped a i j : length (swapped a i j) = length a.
Proof. unfold swapped. now rewrite !length_insert. Qed.

Lemma item_swapped a i j k :
  in_range a i → in_range a j → 0 ≤ k →
  item (swapped a i j) k =
    if k =? j then item a i else if k =? i then item a j else item a k.
Proof.
  unfold in_range, item, swapped. intros Hi Hj Hk.
  destruct (Z.eqb_spec k j) as [->|Hkj].
  - apply list_lookup_total_insert_eq. rewrite length_insert. lia.
  - rewrite list_lookup_total_insert_ne by lia.
    destruct (Z.eqb_spec k i) as [->|Hki].
    + apply list_lookup_total_insert_eq. lia.
    + now rewrite list_lookup_total_insert_ne by lia.
Qed.

Lemma swapped_same a i : in_range a i → swapped a i i = a.
Proof.
  intros H. unfold swapped.
  rewrite list_insert_insert_eq. apply list_insert_id. now apply lookup_item.
Qed.

End Arrays.

(** ** The two orderings *)

Ltac bool_to_prop :=
  repeat match goal with
  | H : (_ <? _) = true |- _ => apply Z.ltb_lt in H
  | H : (_ <? _) = false |- _ => apply Z.ltb_ge in H
  | H : (_ <=? _) = true |- _ => apply Z.leb_le in H
  | H : (_ <=? _) = false |- _ => apply Z.leb_gt in H
  | H : (_ =? _) = true |- _ => apply Z.eqb_eq in H
  | H : (_ =? _) = false |- _ => apply Z.eqb_neq in H
  | |- (_ <? _) = true => apply Z.ltb_lt
  | |- (_ <? _) = false => apply Z.ltb_ge
  end.

(** Closes goals about [beats] and [at_least] by arithmetic. *)
Ltac order mh :=
  unfold beats, at_least in *; destruct mh; bool_to_prop; lia.

Lemma at_least_refl mh x : at_least mh x x.
Proof. order mh. Qed.

Lemma at_least_trans mh x y z : at_least mh x y → at_least mh y z → at_least mh x z.
Proof. intros. order mh. Qed.

Lemma beats_at_least mh x y : beats mh x y = true → at_least mh x y.
Proof. intros. order mh. Qed.

Lemma not_beats_at_least mh x y : beats mh x y = false → at_least mh y x.
Proof. intros. order mh. Qed.

Lemma beats_at_least_trans mh x y z :
  beats mh x y = true → at_least mh y z → beats mh x z = true.
Proof. intros. order mh. Qed.

Lemma beats_trans mh x y z :
  beats mh x y = true → beats mh y z = true → beats mh x z = true.
Proof. intros. order mh. Qed.

Lemma swapped_perm a i j : in_range a i → in_range a j → swapped a i j ≡ₚ a.
Proof.
  intros Hi Hj. unfold swapped.
  apply Permutation_insert_swap; now apply lookup_item.
Qed.

(** ** The primitives of [DHeap] on a state whose storage is in the store *)

Section DHeapPrimitives.
Import DHeap.
Implicit Types (h : t) (st : store) (a : list Z).

Lemma bind_ok {A B} (m : M t A) (k : A → M t B) s v s' :
  m s = (Ok v, s') → bind m k s = k v s'.
Proof. intros H. unfold bind. now rewrite H. Qed.

Lemma bind_raise {A B} (m : M t A) (k : A → M t B) s e s' :
  m s = (Raise e, s') → bind m k s = (Raise e, s').
Proof. intros H. unfold bind. now rewrite H. Qed.

Lemma getitem_ok h st a i :
  st !! heap_array h = Some a → in_range a i →
  getitem i (h, st) = (Ok (item a i), (h, st)).
Proof.
  intros Hst Hi. unfold getitem, bind, attr, load, lift. simpl.
  rewrite Hst. now rewrite list_getitem_in.
Qed.

Lemma setitem_ok h st a i v :
  st !! heap_array h = Some a → in_range a i →
  setitem i v (h, st) = (Ok tt, (h, <[heap_array h := <[Z.to_nat i := v]> a]> st)).
Proof.
  intros Hst Hi. unfold setitem, bind, attr, load, lift, store_list. simpl.
  rewrite Hst. now rewrite list_setitem_in.
Qed.

Lemma compare_ok h st a i j :
  st !! heap_array h = Some a → in_range a i → in_range a j →
  __compare i j (h, st) =
    (Ok (beats (max_heap h) (item a i) (item a j)), (h, st)).
Proof.
  intros Hst Hi Hj. unfold __compare.
  unfold bind at 1. unfold attr at 1. simpl.
  rewrite (bind_ok _ _ _ _ _ (getitem_ok h st a i Hst Hi)).
  rewrite (bind_ok _ _ _ _ _ (getitem_ok h st a j Hst Hj)).
  reflexivity.
Qed.

Lemma swap_ok h st a i j :
  st !! heap_array h = Some a → in_range a i → in_range a j →
  __swap i j (h, st) = (Ok tt, (h, <[heap_array h := swapped a i j]> st)).
Proof.
  intros Hst Hi Hj. unfold __swap.
  rewrite (bind_ok _ _ _ _ _ (getitem_ok h st a j Hst Hj)).
  rewrite (bind_ok _ _ _ _ _ (getitem_ok h st a i Hst Hi)).
  rewrite (bind_ok _ _ _ _ _ (setitem_ok h st a i (item a j) Hst Hi)).
  erewrite setitem_ok; [| apply lookup_insert_eq |].
  - now rewrite insert_insert_eq.
  - unfold in_range in *. now rewrite length_insert.
Qed.

End DHeapPrimitives.

(** ** The implicit tree: positions of children and parents *)

Section Tree.
Variable bf : Z.
Hypothesis Hbf : 1 ≤ bf.

Local Abbreviation child := (child bf).

Lemma child_gt p c : 0 ≤ p → child p c → p < c.
Proof. unfold child. intros. nia. Qed.

Lemma child_unique p q c : child p c → child q c → p = q.
Proof. unfold child. intros. nia. Qed.

Lemma child_offset p k : 0 ≤ k < bf → child p (p * bf + k + 1).
Proof. unfold child. intros. lia. Qed.

Lemma child_inv p c : child p c → ∃ k, 0 ≤ k < bf ∧ c = p * bf + k + 1.
Proof. unfold child. intros H. exists (c - p * bf - 1). lia. Qed.

Lemma parent_is_parent c : child ((c - 1) / bf) c.
Proof.
  unfold child.
  pose proof (Z.mul_div_le (c - 1) bf ltac:(lia)).
  pose proof (Z.mul_succ_div_gt (c - 1) bf ltac:(lia)).
  nia.
Qed.

Lemma parent_nonneg c : 1 ≤ c → 0 ≤ (c - 1) / bf.
Proof. intros. apply Z.div_pos; lia. Qed.

Lemma parent_neg c : c ≤ 0 → (c - 1) / bf < 0.
Proof. intros. apply Z.div_lt_upper_bound; lia. Qed.

Lemma parent_lt c : 1 ≤ c → (c - 1) / bf < c.
Proof. intros. apply Z.div_lt_upper_bound; nia. Qed.

Lemma child_parent p c : child p c → (c - 1) / bf = p.
Proof. intros H. apply (child_unique _ _ c); [apply parent_is_parent | exact H]. Qed.

(** *** Heap order on the positions [0 .. last] *)

Variables (mh : bool) (last : Z).

Local Abbreviation ordered := (ordered mh).
Local Abbreviation heap_from := (heap_from bf mh last).
Local Abbreviation sift_down_pre := (sift_down_pre bf mh last).
Local Abbreviation sift_up_pre := (sift_up_pre bf mh last).

Lemma heap_from_sift_down_pre a k i :
  0 ≤ i → heap_from a (i + 1) → k = i → sift_down_pre a k i.
Proof.
  intros Hi H ->. split.
  - intros p c Hp Hne Hc Hl. apply H; [lia | exact Hc | exact Hl].
  - intros q c Hq Hqi Hic _. unfold child in *. nia.
Qed.

(** In a heap the root is at least as extreme as every element. *)
Lemma heap_from_root a :
  heap_from a 0 → ∀ j, 0 ≤ j ≤ last → ordered a 0 j.
Proof.
  intros H j [Hj0 Hjl]. revert Hjl.
  pattern j. apply Zlt_0_ind; [|exact Hj0]. clear j Hj0.
  intros j IH Hj0 Hjl.
  destruct (Z.eq_dec j 0) as [->|Hne]; [apply at_least_refl|].
  pose proof (parent_is_parent j) as Hc.
  pose proof (parent_nonneg j ltac:(lia)) as Hp0.
  pose proof (parent_lt j ltac:(lia)) as Hpj.
  eapply at_least_trans.
  - apply (IH ((j - 1) / bf)); lia.
  - apply H; [lia | exact Hc | exact Hjl].
Qed.

Lemma sift_down_pre_stop a k i :
  (∀ c, child i c → c ≤ last → ordered a i c) →
  sift_down_pre a k i → heap_from a k.
Proof.
  intros Hi [H1 _] p c Hp Hc Hl.
  destruct (Z.eq_dec p i) as [->|Hne]; [now apply Hi | now apply H1].
Qed.

(** One step of [__sift_down]: the selected child [c0] goes up. *)
Lemma sift_down_pre_step a k i c0 :
  0 ≤ k ≤ i → in_range a i → in_range a c0 →
  child i c0 → c0 ≤ last →
  beats mh (item a c0) (item a i) = true →
  (∀ c, child i c → c ≤ last → at_least mh (item a c0) (item a c)) →
  sift_down_pre a k i → sift_down_pre (swapped a i c0) k c0.
Proof.
  intros Hk Hi Hc0 Hch Hl Hb Hbest [H1 H2].
  pose proof (child_gt i c0 ltac:(lia) Hch) as Hlt.
  split.
  - intros p c Hp Hne Hc Hcl.
    assert (Hpc : p < c) by (apply child_gt; [lia | exact Hc]).
    unfold ordered. rewrite !item_swapped by (assumption || lia).
    destruct (Z.eqb_spec p c0) as [->|_]; [lia|].
    destruct (Z.eqb_spec p i) as [->|Hpi].
    + destruct (Z.eqb_spec c c0) as [->|Hcc].
      * now apply beats_at_least.
      * destruct (Z.eqb_spec c i) as [->|_]; [lia|]. now apply Hbest.
    + destruct (Z.eqb_spec c c0) as [->|Hcc].
      * exfalso. apply Hpi. eapply child_unique; eassumption.
      * destruct (Z.eqb_spec c i) as [->|Hci].
        -- apply (H2 p c0); assumption.
        -- apply (H1 p c); assumption.
  - intros q c Hq Hqc Hcc Hcl.
    assert (q = i) as -> by (eapply child_unique; eassumption).
    pose proof (child_gt c0 c ltac:(lia) Hcc) as Hlt'.
    unfold ordered. rewrite !item_swapped by (assumption || lia).
    destruct (Z.eqb_spec i c0) as [->|_]; [lia|].
    rewrite Z.eqb_refl.
    destruct (Z.eqb_spec c c0) as [->|_]; [lia|].
    destruct (Z.eqb_spec c i) as [->|_]; [lia|].
    apply (H1 c0 c); [lia | lia | exact Hcc | exact Hcl].
Qed.

Lemma sift_up_pre_root a : sift_up_pre a 0 → heap_from a 0.
Proof.
  intros [H1 _] p c Hp Hc Hl. apply H1; try assumption.
  pose proof (child_gt p c Hp Hc). lia.
Qed.

Lemma sift_up_pre_stop a i :
  1 ≤ i → ordered a ((i - 1) / bf) i → sift_up_pre a i → heap_from a 0.
Proof.
  intros Hi Ho [H1 _] p c Hp Hc Hl.
  destruct (Z.eq_dec c i) as [->|Hne]; [|now apply H1].
  now rewrite <- (child_parent p i Hc).
Qed.

(** One step of [__sift_up]: the element at [i] goes up to its parent. *)
Lemma sift_up_pre_step a i :
  1 ≤ i ≤ last → in_range a i →
  beats mh (item a i) (item a ((i - 1) / bf)) = true →
  sift_up_pre a i → sift_up_pre (swapped a i ((i - 1) / bf)) ((i - 1) / bf).
Proof.
  intros Hi Hr Hb [H1 H2].
  pose proof (parent_is_parent i) as Hch.
  pose proof (parent_nonneg i ltac:(lia)) as Hp0.
  pose proof (parent_lt i ltac:(lia)) as Hpi.
  set (p0 := (i - 1) / bf) in *.
  assert (Hr0 : in_range a p0) by (unfold in_range in *; lia).
  split.
  - intros p c Hp Hc Hcl Hne.
    assert (Hpc : p < c) by (apply child_gt; assumption).
    unfold ordered. rewrite !item_swapped by (assumption || lia).
    destruct (Z.eqb_spec c p0) as [->|_]; [congruence|].
    destruct (Z.eqb_spec c i) as [->|Hci].
    + assert (p = p0) as -> by (eapply child_unique; eassumption).
      rewrite Z.eqb_refl. now apply beats_at_least.
    + destruct (Z.eqb_spec p p0) as [->|Hpp].
      * eapply at_least_trans; [apply beats_at_least; exact Hb|].
        apply (H1 p0 c); assumption.
      * destruct (Z.eqb_spec p i) as [->|Hpi'].
        -- apply (H2 p0 c); assumption.
        -- apply (H1 p c); assumption.
  - intros q c Hq Hqp Hpc Hcl.
    pose proof (child_gt q p0 Hq Hqp) as Hlt.
    pose proof (child_gt p0 c Hp0 Hpc) as Hlt'.
    unfold ordered. rewrite !item_swapped by (assumption || lia).
    destruct (Z.eqb_spec q p0) as [->|_]; [lia|].
    destruct (Z.eqb_spec q i) as [->|_]; [lia|].
    destruct (Z.eqb_spec c p0) as [->|_]; [lia|].
    assert (Hqo : ordered a q p0) by (apply H1; (assumption || lia)).
    destruct (Z.eqb_spec c i) as [->|Hci]; [exact Hqo|].
    eapply at_least_trans; [exact Hqo|]. apply (H1 p0 c); assumption.
Qed.

End Tree.

(** ** [__sift_down] *)

Section DHeapSiftDown.
Import DHeap.
Implicit Types (h : t) (st : store) (a : list Z).

Lemma bind_attr {A B} (f : t → A) (k : A → M t B) s :
  bind (attr f) k s = k (f s.1) s.
Proof. reflexivity. Qed.

Lemma scan_children_ok h st a index :
  st !! heap_array h = Some a →
  1 ≤ branching_factor h → 0 ≤ index →
  last_index h < Z.of_nat (length a) →
  ∀ cnt i np,
    1 ≤ i → in_range a np → np < index * branching_factor h + i →
    ∃ np',
      scan_children index cnt i np (h, st) = (Ok np', (h, st)) ∧
      in_range a np' ∧
      selected (branching_factor h) (max_heap h) (last_index h) a index i cnt np np'.
Proof.
  intros Hst Hbf Hidx Hlast.
  induction cnt as [|cnt IH]; intros i np Hi Hnp Hlt.
  - exists np. split; [reflexivity|]. split; [exact Hnp|].
    unfold selected. split; [now left|]. repeat split; intros; lia.
  - cbn [scan_children]. rewrite !bind_attr. cbn [fst].
    set (c := index * branching_factor h + i).
    assert (Hc0 : 0 ≤ c) by (unfold c; nia).
    destruct (Z.leb_spec c (last_index h)) as [Hcl|Hcl].
    + assert (Hcr : in_range a c) by (unfold in_range; lia).
      rewrite (bind_ok _ _ _ _ _ (compare_ok h st a c np Hst Hcr Hnp)).
      destruct (beats (max_heap h) (item a c) (item a np)) eqn:Hb.
      * destruct (IH (i + 1) c ltac:(lia) Hcr ltac:(fold c; lia))
          as (np' & Hrun & Hr & Hm & Hbt & Hal & Hlm).
        exists np'. split; [exact Hrun|]. split; [exact Hr|].
        unfold selected. split; [|split; [|split]].
        -- destruct Hm as [->|(j & Hj & -> & Hjl)].
           ++ right. exists i. fold c. lia.
           ++ right. exists j. lia.
        -- intros Hne. destruct (Z.eq_dec np' c) as [->|Hnc]; [exact Hb|].
           eapply beats_trans; [apply Hbt; exact Hnc | exact Hb].
        -- intros j Hj Hjl. destruct (Z.eq_dec j i) as [->|Hji].
           ++ fold c. destruct (Z.eq_dec np' c) as [->|Hnc];
                [apply at_least_refl | apply beats_at_least, Hbt, Hnc].
           ++ apply Hal; lia.
        -- intros j Hj Hjl. destruct (Z.eq_dec j i) as [->|Hji].
           ++ fold c in Hjl |- *. apply Hbt. lia.
           ++ apply Hlm; lia.
      * destruct (IH (i + 1) np ltac:(lia) Hnp ltac:(lia))
          as (np' & Hrun & Hr & Hm & Hbt & Hal & Hlm).
        exists np'. split; [exact Hrun|]. split; [exact Hr|].
        assert (Hnn : at_least (max_heap h) (item a np') (item a np)).
        { destruct (Z.eq_dec np' np) as [->|Hne];
            [apply at_least_refl | apply beats_at_least, Hbt, Hne]. }
        unfold selected. split; [|split; [|split]].
        -- destruct Hm as [->|(j & Hj & -> & Hjl)]; [now left|].
           right. exists j. lia.
        -- exact Hbt.
        -- intros j Hj Hjl. destruct (Z.eq_dec j i) as [->|Hji].
           ++ fold c. eapply at_least_trans; [exact Hnn|].
              now apply not_beats_at_least.
           ++ apply Hal; lia.
        -- intros j Hj Hjl. destruct (Z.eq_dec j i) as [->|Hji].
           ++ fold c in Hjl |- *.
              eapply beats_at_least_trans;
                [apply Hbt; lia | now apply not_beats_at_least].
           ++ apply Hlm; lia.
    + unfold bind at 1. unfold ret at 1.
      destruct (IH (i + 1) np ltac:(lia) Hnp ltac:(lia))
        as (np' & Hrun & Hr & Hm & Hbt & Hal & Hlm).
      exists np'. split; [exact Hrun|]. split; [exact Hr|].
      unfold selected. split; [|split; [|split]].
      * destruct Hm as [->|(j & Hj & -> & Hjl)]; [now left|].
        right. exists j. lia.
      * exact Hbt.
      * intros j Hj Hjl. destruct (Z.eq_dec j i) as [->|Hji].
        -- fold c in Hjl. lia.
        -- apply Hal; lia.
      * intros j Hj Hjl. destruct (Z.eq_dec j i) as [->|Hji].
        -- fold c in Hjl. destruct Hm as [->|(j & Hj' & -> & Hjl')]; lia.
        -- apply Hlm; lia.
Qed.

Lemma scan_children_out h s index :
  ∀ cnt i np,
    last_index h < index * branching_factor h + i → s.1 = h →
    scan_children index cnt i np s = (Ok np, s).
Proof.
  induction cnt as [|cnt IH]; intros i np Hi Hs; [reflexivity|].
  cbn [scan_children]. rewrite !bind_attr. rewrite Hs.
  destruct (Z.leb_spec (index * branching_factor h + i) (last_index h)); [lia|].
  unfold bind at 1. unfold ret at 1. apply IH; [lia | exact Hs].
Qed.

Lemma sifted_down_refl bf mh last a index :
  (∀ c, child bf index c → c ≤ last → ordered mh a index c) →
  sifted_down bf mh last a a index.
Proof.
  intros Hok. unfold sifted_down. split; [reflexivity|]. split; [reflexivity|].
  split; [reflexivity|]. split; [intros j Hj; exists j; split; [exact Hj|reflexivity]|].
  intros k _ Hpre. eapply sift_down_pre_stop; eassumption.
Qed.

Lemma sift_down_rec_ok h :
  1 ≤ branching_factor h →
  ∀ depth index st a,
    st !! heap_array h = Some a →
    last_index h < Z.of_nat (length a) →
    0 ≤ index →
    Z.max 0 (last_index h - index) < Z.of_nat depth →
    ∃ a',
      sift_down_rec depth index (h, st) = (Ok tt, (h, <[heap_array h := a']> st)) ∧
      sifted_down (branching_factor h) (max_heap h) (last_index h) a a' index.
Proof.
  intros Hbf. induction depth as [|d IH]; intros index st a Hst Hlast Hidx Hd; [lia|].
  cbn [sift_down_rec]. rewrite bind_attr. cbn [fst].
  destruct (Z_le_gt_dec index (last_index h)) as [Hin|Hout].
  - assert (Hir : in_range a index) by (unfold in_range; lia).
    destruct (scan_children_ok h st a index Hst Hbf Hidx Hlast
                (Z.to_nat (branching_factor h)) 1 index ltac:(lia) Hir ltac:(nia))
      as (np & Hrun & Hnpr & Hm & Hbt & Hal & Hlm).
    rewrite (bind_ok _ _ _ _ _ Hrun).
    rewrite Z2Nat.id in Hm, Hal, Hlm by lia.
    assert (Hkids : ∀ c, child (branching_factor h) index c → c ≤ last_index h →
              at_least (max_heap h) (item a np) (item a c)).
    { intros c Hc Hcl. unfold child in Hc.
      replace c with (index * branching_factor h + (c - index * branching_factor h)) by lia.
      apply Hal; lia. }
    destruct (Z.eqb_spec np index) as [->|Hne]; cbn [negb].
    + exists a. split.
      * unfold ret. now rewrite insert_id.
      * now apply sifted_down_refl.
    + destruct Hm as [->|(jm & Hjm & Hnp & Hnl)]; [congruence|].
      assert (Hch : child (branching_factor h) index np) by (unfold child; lia).
      pose proof (child_gt _ Hbf index np Hidx Hch) as Hgt.
      rewrite (bind_ok _ _ _ _ _ (swap_ok h st a index np Hst Hir Hnpr)).
      destruct (IH np (<[heap_array h := swapped a index np]> st) (swapped a index np))
        as (a' & Hrun' & Hlen & Hperm & Hout & Hrng & Hheap).
      { apply lookup_insert_eq. }
      { now rewrite length_swapped. }
      { lia. }
      { lia. }
      exists a'. split; [rewrite Hrun'; now rewrite insert_insert_eq|].
      unfold sifted_down. split; [now rewrite Hlen, length_swapped|].
      split; [now rewrite Hperm, swapped_perm|].
      split; [|split].
      * intros j Hj0 Hj. rewrite Hout by lia.
        rewrite item_swapped by (assumption || lia).
        destruct (Z.eqb_spec j np); [lia|]. destruct (Z.eqb_spec j index); [lia|].
        reflexivity.
      * intros j Hj. destruct (Z_lt_le_dec j np) as [Hjn|Hjn].
        -- rewrite Hout by lia. rewrite item_swapped by (assumption || lia).
           destruct (Z.eqb_spec j np); [lia|].
           destruct (Z.eqb_spec j index).
           ++ exists np. split; [lia|reflexivity].
           ++ exists j. split; [lia|reflexivity].
        -- destruct (Hrng j ltac:(lia)) as (j' & Hj' & ->).
           rewrite item_swapped by (assumption || lia).
           destruct (Z.eqb_spec j' np).
           ++ exists index. split; [lia|reflexivity].
           ++ destruct (Z.eqb_spec j' index).
              ** exists np. split; [lia|reflexivity].
              ** exists j'. split; [lia|reflexivity].
      * intros k Hk Hpre. apply Hheap; [lia|].
        apply sift_down_pre_step; try assumption.
        apply Hbt. exact Hne.
  - rewrite (bind_ok _ _ _ _ _
               (scan_children_out h (h, st) index _ 1 index ltac:(nia) eq_refl)).
    rewrite Z.eqb_refl. cbn [negb].
    exists a. split.
    + unfold ret. now rewrite insert_id.
    + apply sifted_down_refl. intros c Hc Hcl.
      pose proof (child_gt _ Hbf index c Hidx Hc). lia.
Qed.

Lemma sift_down_ok h st a index :
  1 ≤ branching_factor h →
  st !! heap_array h = Some a →
  last_index h < Z.of_nat (length a) →
  0 ≤ index →
  ∃ a',
    __sift_down index (h, st) = (Ok tt, (h, <[heap_array h := a']> st)) ∧
    sifted_down (branching_factor h) (max_heap h) (last_index h) a a' index.
Proof.
  intros Hbf Hst Hlast Hidx. unfold __sift_down. rewrite bind_attr. cbn [fst].
  apply sift_down_rec_ok; try assumption. lia.
Qed.

End DHeapSiftDown.

(** ** [__sift_up] *)

Section DHeapSiftUp.
Import DHeap.
Implicit Types (h : t) (st : store) (a : list Z).

Lemma floordiv_ok x y : y ≠ 0 → floordiv x y = Ok (x / y).
Proof. intros H. unfold floordiv. now destruct (Z.eqb_spec y 0). Qed.

Lemma sift_up_rec_ok h :
  1 ≤ branching_factor h →
  ∀ depth index st a,
    st !! heap_array h = Some a →
    in_range a index → index ≤ last_index h →
    index < Z.of_nat depth →
    ∃ a',
      sift_up_rec depth index (h, st) = (Ok tt, (h, <[heap_array h := a']> st)) ∧
      length a' = length a ∧ a' ≡ₚ a ∧
      (sift_up_pre (branching_factor h) (max_heap h) (last_index h) a index →
       heap_from (branching_factor h) (max_heap h) (last_index h) a' 0).
Proof.
  intros Hbf. induction depth as [|d IH]; intros index st a Hst Hr Hl Hd.
  { unfold in_range in Hr. lia. }
  cbn [sift_up_rec]. rewrite bind_attr. cbn [fst].
  unfold lift at 1. unfold bind at 1. rewrite floordiv_ok by lia.
  set (p0 := (index - 1) / branching_factor h).
  destruct (Z.leb_spec 0 p0) as [Hp|Hp].
  - assert (Hi1 : 1 ≤ index).
    { destruct (Z_le_gt_dec 1 index); [assumption|].
      pose proof (parent_neg _ Hbf index ltac:(lia)). fold p0 in H. lia. }
    pose proof (parent_lt _ Hbf index Hi1) as Hpi. fold p0 in Hpi.
    assert (Hr0 : in_range a p0) by (unfold in_range in *; lia).
    rewrite (bind_ok _ _ _ _ _ (compare_ok h st a index p0 Hst Hr Hr0)).
    destruct (beats (max_heap h) (item a index) (item a p0)) eqn:Hb.
    + rewrite (bind_ok _ _ _ _ _ (swap_ok h st a index p0 Hst Hr Hr0)).
      destruct (IH p0 (<[heap_array h := swapped a index p0]> st) (swapped a index p0))
        as (a' & Hrun & Hlen & Hperm & Hheap).
      { apply lookup_insert_eq. }
      { unfold in_range. rewrite length_swapped. exact Hr0. }
      { lia. }
      { lia. }
      exists a'. split; [rewrite Hrun; now rewrite insert_insert_eq|].
      split; [now rewrite Hlen, length_swapped|].
      split; [now rewrite Hperm, swapped_perm|].
      intros Hpre. apply Hheap. apply sift_up_pre_step; try assumption. lia.
    + exists a. split; [unfold ret; now rewrite insert_id|].
      split; [reflexivity|]. split; [reflexivity|].
      intros Hpre. eapply sift_up_pre_stop; [exact Hbf | exact Hi1 | | exact Hpre].
      fold p0. now apply not_beats_at_least.
  - unfold bind at 1. unfold ret at 1.
    exists a. split; [unfold ret; now rewrite insert_id|].
    split; [reflexivity|]. split; [reflexivity|].
    intros Hpre.
    assert (index = 0) as ->.
    { destruct (Z_le_gt_dec 1 index); [|unfold in_range in Hr; lia].
      pose proof (parent_nonneg _ Hbf index ltac:(lia)). fold p0 in H. lia. }
    now apply sift_up_pre_root.
Qed.

End DHeapSiftUp.

(** ** What the methods leave alone, whatever the branching factor and
       whether they return or raise *)

Section DHeapFrames.
Import DHeap.
Implicit Types (h : t) (st : store) (a : list Z) (s : t * store).

Lemma same_len_refl s : same_len s s.
Proof. split; [reflexivity|]. split; [reflexivity|]. intros a Ha. now exists a. Qed.

Lemma same_len_trans s1 s2 s3 : same_len s1 s2 → same_len s2 s3 → same_len s1 s3.
Proof.
  intros (E1 & O1 & L1) (E2 & O2 & L2). rewrite E1 in E2, O2, L2.
  split; [exact E2|]. split.
  - intros l Hl. now rewrite O2, O1.
  - intros a Ha. destruct (L1 a Ha) as (a' & Ha' & Hlen).
    destruct (L2 a' Ha') as (a'' & Ha'' & Hlen'). exists a''. split; [exact Ha''|lia].
Qed.

Lemma bind_inv {A B} (m : M t A) (k : A → M t B) s r s' :
  bind m k s = (r, s') →
  (∃ v s1, m s = (Ok v, s1) ∧ k v s1 = (r, s')) ∨
  (∃ e, m s = (Raise e, s') ∧ r = Raise e).
Proof.
  unfold bind. destruct (m s) as [[v|e] s1]; intros H.
  - left. now exists v, s1.
  - right. exists e. now inversion H.
Qed.

Lemma getitem_pure i s r s' : getitem i s = (r, s') → s' = s.
Proof.
  unfold getitem, bind, attr, load, lift. cbn.
  destruct (s.2 !! heap_array s.1); now intros [= _ <-].
Qed.

Lemma compare_pure i j s r s' : __compare i j s = (r, s') → s' = s.
Proof.
  unfold __compare. rewrite bind_attr. intros H.
  apply bind_inv in H as [(v & s1 & H1 & H)|(e & H1 & _)];
    [|now apply getitem_pure in H1].
  apply getitem_pure in H1 as ->.
  apply bind_inv in H as [(w & s2 & H2 & H)|(e & H2 & _)];
    [|now apply getitem_pure in H2].
  apply getitem_pure in H2 as ->. now inversion H.
Qed.

Lemma setitem_same_len i v s r s' : setitem i v s = (r, s') → same_len s s'.
Proof.
  unfold setitem, bind, attr, load, lift, store_list, list_setitem. cbn.
  destruct (s.2 !! heap_array s.1) as [a|] eqn:Ha;
    [|intros [= _ <-]; apply same_len_refl].
  destruct (norm_index (length a) i) as [n|];
    [|intros [= _ <-]; apply same_len_refl].
  intros [= _ <-]. split; [reflexivity|]. cbn. split.
  - intros l Hl. now rewrite lookup_insert_ne.
  - intros a0 Ha0. rewrite lookup_insert_eq. eexists. split; [reflexivity|].
    rewrite length_insert. congruence.
Qed.

Lemma swap_same_len i j s r s' : __swap i j s = (r, s') → same_len s s'.
Proof.
  unfold __swap. intros H.
  apply bind_inv in H as [(v & s1 & H1 & H)|(e & H1 & _)];
    [|apply getitem_pure in H1 as ->; apply same_len_refl].
  apply getitem_pure in H1 as ->.
  apply bind_inv in H as [(w & s2 & H2 & H)|(e & H2 & _)];
    [|apply getitem_pure in H2 as ->; apply same_len_refl].
  apply getitem_pure in H2 as ->.
  apply bind_inv in H as [(u & s3 & H3 & H)|(e & H3 & _)];
    [|now apply setitem_same_len in H3].
  apply setitem_same_len in H3, H. eapply same_len_trans; eassumption.
Qed.

Lemma sift_up_rec_same_len depth :
  ∀ index s r s', sift_up_rec depth index s = (r, s') → same_len s s'.
Proof.
  induction depth as [|d IH]; intros index s r s' H.
  { inversion H. apply same_len_refl. }
  cbn [sift_up_rec] in H. rewrite bind_attr in H.
  apply bind_inv in H as [(p0 & s1 & H1 & H)|(e & H1 & _)];
    [|unfold lift in H1; inversion H1; apply same_len_refl].
  unfold lift in H1. injection H1 as _ <-.
  apply bind_inv in H as [(c & s2 & H2 & H)|(e & H2 & _)].
  - assert (s2 = s) as ->.
    { destruct (0 <=? p0); [now apply compare_pure in H2 | now inversion H2]. }
    destruct c; [|inversion H; apply same_len_refl].
    apply bind_inv in H as [(u & s3 & H3 & H)|(e & H3 & _)];
      [|now apply swap_same_len in H3].
    apply swap_same_len in H3. apply IH in H.
    eapply same_len_trans; eassumption.
  - assert (s' = s) as ->; [|apply same_len_refl].
    destruct (0 <=? p0); [now apply compare_pure in H2 | now inversion H2].
Qed.

(** With a branching factor below 1, [__sift_down] does nothing. *)
Lemma sift_down_nop index s :
  branching_factor s.1 < 1 → __sift_down index s = (Ok tt, s).
Proof.
  intros Hbf. unfold __sift_down. rewrite bind_attr.
  rewrite Nat.add_1_r. cbn [sift_down_rec]. rewrite bind_attr.
  replace (Z.to_nat (branching_factor s.1)) with 0%nat by lia.
  cbn [scan_children]. unfold bind, ret. now rewrite Z.eqb_refl.
Qed.

(** [validate_heap] only reads. *)
Lemma validate_rec_pure depth :
  ∀ parent s r s', validate_rec depth parent s = (r, s') → s' = s.
Proof.
  induction depth as [|d IH]; intros parent s r s' H; [now inversion H|].
  cbn [validate_rec] in H. rewrite bind_attr in H.
  generalize dependent 0. generalize (parent * branching_factor s.1 + 1).
  induction (Z.to_nat (branching_factor s.1)) as [|cnt IHc]; intros fc i H;
    [now inversion H|].
  cbn [validate_loop] in H. rewrite bind_attr in H.
  destruct (fc + i <=? last_index s.1); [|now apply IHc in H].
  apply bind_inv in H as [(c & s1 & H1 & H)|(e & H1 & _)];
    [|now apply compare_pure in H1].
  apply compare_pure in H1 as ->.
  destruct c; [now inversion H | now apply IH in H].
Qed.

End DHeapFrames.

(** ** The depth bound of the recursions

    [RecursionError] only comes from running out of depth, and a recursion
    that ends within its depth ends the same way with any greater depth: the
    depth that [__sift_up], [__sift_down] and [validate_heap] start with
    stands for no bound at all whenever they do not raise [RecursionError]. *)

Section DHeapDepth.
Import DHeap.
Implicit Types (s : t * store).

Lemma sift_up_rec_more d :
  ∀ index s r s',
    sift_up_rec d index s = (r, s') → r ≠ Raise RecursionError →
    ∀ d', (d ≤ d')%nat → sift_up_rec d' index s = (r, s').
Proof.
  induction d as [|d IH]; intros index s r s' H Hr d' Hd.
  { injection H as <- _. congruence. }
  destruct d' as [|d']; [lia|].
  cbn [sift_up_rec] in H |- *. rewrite bind_attr in H |- *.
  apply bind_inv in H as [(p0 & s1 & H1 & H)|(e & H1 & ->)];
    [|now rewrite (bind_raise _ _ _ _ _ H1)].
  rewrite (bind_ok _ _ _ _ _ H1).
  apply bind_inv in H as [(c & s2 & H2 & H)|(e & H2 & ->)];
    [|now rewrite (bind_raise _ _ _ _ _ H2)].
  rewrite (bind_ok _ _ _ _ _ H2). destruct c; [|exact H].
  apply bind_inv in H as [(u & s3 & H3 & H)|(e & H3 & ->)];
    [|now rewrite (bind_raise _ _ _ _ _ H3)].
  rewrite (bind_ok _ _ _ _ _ H3). apply (IH _ _ _ _ H Hr). lia.
Qed.

Lemma sift_down_rec_more d :
  ∀ index s r s',
    sift_down_rec d index s = (r, s') → r ≠ Raise RecursionError →
    ∀ d', (d ≤ d')%nat → sift_down_rec d' index s = (r, s').
Proof.
  induction d as [|d IH]; intros index s r s' H Hr d' Hd.
  { injection H as <- _. congruence. }
  destruct d' as [|d']; [lia|].
  cbn [sift_down_rec] in H |- *. rewrite bind_attr in H |- *.
  apply bind_inv in H as [(np & s1 & H1 & H)|(e & H1 & ->)];
    [|now rewrite (bind_raise _ _ _ _ _ H1)].
  rewrite (bind_ok _ _ _ _ _ H1). destruct (negb (np =? index)); [|exact H].
  apply bind_inv in H as [(u & s3 & H3 & H)|(e & H3 & ->)];
    [|now rewrite (bind_raise _ _ _ _ _ H3)].
  rewrite (bind_ok _ _ _ _ _ H3). apply (IH _ _ _ _ H Hr). lia.
Qed.

Lemma validate_loop_more (rec rec' : Z → M t bool) fc parent cnt :
  (∀ p s r s', rec p s = (r, s') → r ≠ Raise RecursionError → rec' p s = (r, s')) →
  ∀ i s r s',
    validate_loop rec fc parent cnt i s = (r, s') → r ≠ Raise RecursionError →
    validate_loop rec' fc parent cnt i s = (r, s').
Proof.
  intros Hrec. induction cnt as [|cnt IH]; intros i s r s' H Hr; [exact H|].
  cbn [validate_loop] in H |- *. rewrite bind_attr in H |- *.
  destruct (fc + i <=? last_index s.1); [|now apply IH].
  apply bind_inv in H as [(c & s1 & H1 & H)|(e & H1 & ->)];
    [|now rewrite (bind_raise _ _ _ _ _ H1)].
  rewrite (bind_ok _ _ _ _ _ H1). destruct c; [exact H | now apply Hrec].
Qed.

Lemma validate_rec_more d :
  ∀ parent s r s',
    validate_rec d parent s = (r, s') → r ≠ Raise RecursionError →
    ∀ d', (d ≤ d')%nat → validate_rec d' parent s = (r, s').
Proof.
  induction d as [|d IH]; intros parent s r s' H Hr d' Hd.
  { injection H as <- _. congruence. }
  destruct d' as [|d']; [lia|].
  cbn [validate_rec] in H |- *. rewrite bind_attr in H |- *.
  eapply validate_loop_more; [|exact H|exact Hr].
  intros p s0 r0 s0' H0 Hr0. apply (IH _ _ _ _ H0 Hr0). lia.
Qed.

End DHeapDepth.

(** ** The methods on a well-formed heap *)

Section DHeapMethods.
Import DHeap.
Implicit Types (h : t) (st : store) (a : list Z) (s : t * store).

Lemma bind_set_self {B} (f : t → t) (k : unit → M t B) s :
  bind (set_self f) k s = k tt (f s.1, s.2).
Proof. reflexivity. Qed.

Lemma append_ok h st a v :
  st !! heap_array h = Some a →
  append v (h, st) = (Ok tt, (h, <[heap_array h := a ++ [v]]> st)).
Proof.
  intros Hst. unfold append, bind, attr, load, store_list. cbn. now rewrite Hst.
Qed.

Lemma norm_index_neg n i : i < - Z.of_nat n → norm_index n i = None.
Proof.
  intros H. unfold norm_index.
  destruct (Z.leb_spec 0 i); [lia|]. cbn.
  destruct (Z.ltb_spec i 0); [|lia]. cbn.
  destruct (Z.leb_spec (- Z.of_nat n) i); [lia|]. reflexivity.
Qed.

Lemma pop_item_last_ok h st a i :
  st !! heap_array h = Some a → (0 < length a)%nat →
  i = Z.of_nat (length a) - 1 →
  pop_item i (h, st) =
    (Ok (item a i), (h, <[heap_array h := delete (length a - 1)%nat a]> st)).
Proof.
  intros Hst Hlen ->.
  unfold pop_item, bind, attr, load, lift, store_list, list_pop. cbn.
  rewrite Hst. rewrite norm_index_in by lia.
  rewrite lookup_item by (unfold in_range; lia). cbn.
  replace (Z.to_nat (Z.of_nat (length a) - 1)) with (length a - 1)%nat by lia.
  reflexivity.
Qed.

Lemma peek_ok h st a :
  st !! heap_array h = Some a → (0 < length a)%nat →
  peek (h, st) = (Ok (item a 0), (h, st)).
Proof. intros Hst Hlen. apply getitem_ok; [exact Hst | unfold in_range; lia]. Qed.

Lemma peek_empty h st :
  st !! heap_array h = Some [] → peek (h, st) = (Raise IndexError, (h, st)).
Proof.
  intros Hst. unfold peek, getitem, bind, attr, load, lift. cbn.
  rewrite Hst. now rewrite list_getitem_nil.
Qed.

Lemma pop_empty h st :
  st !! heap_array h = Some [] → pop (h, st) = (Raise IndexError, (h, st)).
Proof. intros Hst. unfold pop. now rewrite (bind_raise _ _ _ _ _ (peek_empty h st Hst)). Qed.

(** [__sift_down], whatever the branching factor. *)
Lemma sift_down_any h st a index :
  st !! heap_array h = Some a →
  last_index h < Z.of_nat (length a) →
  0 ≤ index →
  ∃ a',
    __sift_down index (h, st) = (Ok tt, (h, <[heap_array h := a']> st)) ∧
    length a' = length a ∧ a' ≡ₚ a ∧
    (1 ≤ branching_factor h →
     sifted_down (branching_factor h) (max_heap h) (last_index h) a a' index).
Proof.
  intros Hst Hlast Hidx.
  destruct (Z_le_gt_dec 1 (branching_factor h)) as [Hbf|Hbf].
  - destruct (sift_down_ok h st a index Hbf Hst Hlast Hidx)
      as (a' & Hrun & Hsd).
    exists a'. split; [exact Hrun|]. destruct Hsd as (Hlen & Hperm & Hrest).
    split; [exact Hlen|]. split; [exact Hperm|].
    intros _. split; [exact Hlen|]. split; [exact Hperm|]. exact Hrest.
  - exists a. rewrite sift_down_nop by (cbn; lia).
    rewrite insert_id by exact Hst.
    split; [reflexivity|]. split; [reflexivity|]. split; [reflexivity|]. lia.
Qed.

(** [pop] on a non-empty heap. *)
Lemma pop_ok h st a :
  st !! heap_array h = Some a →
  Z.of_nat (length a) = last_index h + 1 → 0 ≤ last_index h →
  ∃ a',
    pop (h, st) = (Ok (item a 0), (shrunk h, <[heap_array h := a']> st)) ∧
    Z.of_nat (length a') = last_index h ∧
    a ≡ₚ item a 0 :: a' ∧
    (1 ≤ branching_factor h →
     heap_from (branching_factor h) (max_heap h) (last_index h) a 0 →
     heap_from (branching_factor h) (max_heap h) (last_index h - 1) a' 0).
Proof.
  intros Hst Hlen Hne.
  assert (Hr0 : in_range a 0) by (unfold in_range; lia).
  assert (Hrl : in_range a (last_index h)) by (unfold in_range; lia).
  unfold pop.
  rewrite (bind_ok _ _ _ _ _ (peek_ok h st a Hst ltac:(lia))).
  rewrite bind_attr. cbn [fst].
  rewrite (bind_ok _ _ _ _ _ (swap_ok h st a 0 (last_index h) Hst Hr0 Hrl)).
  rewrite bind_attr. cbn [fst].
  set (a1 := swapped a 0 (last_index h)).
  assert (Hlen1 : length a1 = length a) by apply length_swapped.
  rewrite (bind_ok _ _ _ _ _
             (pop_item_last_ok h (<[heap_array h := a1]> st) a1 (last_index h)
                (lookup_insert_eq _ _ _) ltac:(lia) ltac:(lia))).
  rewrite insert_insert_eq. rewrite bind_set_self. cbn [fst snd].
  set (a2 := delete (length a1 - 1)%nat a1).
  assert (Hlen2 : Z.of_nat (length a2) = last_index h).
  { unfold a2. rewrite length_delete; [lia|].
    apply lookup_lt_is_Some. lia. }
  assert (Hitem2 : ∀ j, 0 ≤ j < last_index h →
            item a2 j = if j =? 0 then item a (last_index h) else item a j).
  { intros j Hj. unfold item, a2.
    rewrite list_lookup_total_delete_lt by lia.
    fold (item a1 j). unfold a1. rewrite item_swapped by (assumption || lia).
    destruct (Z.eqb_spec j (last_index h)); [lia|].
    destruct (Z.eqb_spec j 0); reflexivity. }
  destruct (sift_down_any (shrunk h) (<[heap_array h := a2]> st) a2 0)
    as (a' & Hrun & Hlen' & Hperm & Hsd).
  { apply lookup_insert_eq. }
  { cbn. lia. }
  { lia. }
  rewrite (bind_ok _ _ _ _ _ Hrun). cbn [shrunk with_last_index heap_array].
  rewrite insert_insert_eq.
  exists a'. split; [reflexivity|]. split; [lia|]. split.
  - transitivity (item a 0 :: a2);
      [|apply Permutation_cons; [reflexivity | symmetry; exact Hperm]].
    transitivity a1; [symmetry; apply swapped_perm; assumption|].
    unfold a2. replace (item a 0) with (item a1 (last_index h)).
    + apply delete_Permutation.
      replace (length a1 - 1)%nat with (Z.to_nat (last_index h)) by lia.
      apply lookup_item. unfold in_range. lia.
    + unfold a1. rewrite item_swapped by (assumption || lia).
      now rewrite Z.eqb_refl.
  - intros Hbf Hheap.
    destruct (Hsd Hbf) as (_ & _ & _ & _ & Hh). cbn in Hh.
    apply Hh; [lia|]. split.
    + intros p c Hp Hp0 Hc Hcl.
      pose proof (child_gt _ Hbf p c Hp Hc) as Hpc.
      unfold ordered. rewrite !Hitem2 by lia.
      destruct (Z.eqb_spec p 0); [lia|]. destruct (Z.eqb_spec c 0); [lia|].
      apply Hheap; [lia | exact Hc | lia].
    + intros q c Hq Hq0 _ _. pose proof (child_gt _ Hbf q 0 Hq Hq0). lia.
Qed.

(** [push] with a positive branching factor. *)
Lemma push_ok h st a v :
  1 ≤ branching_factor h →
  st !! heap_array h = Some a →
  Z.of_nat (length a) = last_index h + 1 →
  ∃ a',
    push v (h, st) = (Ok tt, (grown h, <[heap_array h := a']> st)) ∧
    Z.of_nat (length a') = last_index h + 2 ∧
    a' ≡ₚ v :: a ∧
    (heap_from (branching_factor h) (max_heap h) (last_index h) a 0 →
     heap_from (branching_factor h) (max_heap h) (last_index h + 1) a' 0).
Proof.
  intros Hbf Hst Hlen. unfold push.
  rewrite bind_set_self. cbn [fst snd]. fold (grown h).
  rewrite (bind_ok _ _ _ _ _ (append_ok (grown h) st a v Hst)).
  rewrite bind_attr. cbn [fst grown with_last_index last_index heap_array].
  fold (grown h). unfold __sift_up.
  destruct (sift_up_rec_ok (grown h) Hbf (Z.to_nat (last_index h + 1) + 1)
              (last_index h + 1) (<[heap_array h := a ++ [v]]> st) (a ++ [v]))
    as (a' & Hrun & Hlen' & Hperm & Hheap).
  { apply lookup_insert_eq. }
  { unfold in_range. rewrite length_app. cbn. lia. }
  { cbn. lia. }
  { lia. }
  rewrite Hrun. cbn [grown with_last_index heap_array]. rewrite insert_insert_eq.
  exists a'. split; [reflexivity|].
  split; [rewrite Hlen', length_app; cbn; lia|].
  split; [rewrite Hperm; symmetry; apply Permutation_cons_append|].
  intros Hh. cbn in Hheap. apply Hheap. split.
  - intros p c Hp Hc Hcl Hne.
    pose proof (child_gt _ Hbf p c Hp Hc) as Hpc.
    unfold ordered, item. rewrite !lookup_total_app_l by lia.
    apply Hh; [lia | exact Hc | lia].
  - intros q c _ _ Hc Hcl.
    pose proof (child_gt _ Hbf (last_index h + 1) c ltac:(lia) Hc). lia.
Qed.

End DHeapMethods.

(** ** The invariant of reachable heaps *)

Section DHeapValid.
Import DHeap.
Implicit Types (h : t) (st : store) (a : list Z) (s : t * store).

Lemma same_len_valid h st h' st' :
  branching_factor h < 1 →
  (∃ a, st !! heap_array h = Some a ∧ Z.of_nat (length a) = last_index h + 1) →
  same_len (h, st) (h', st') → valid h' st'.
Proof.
  intros Hbf (a & Hst & Hlen) (E & _ & L). cbn in E, L. subst h'.
  destruct (L a Hst) as (a' & Hst' & Hlen').
  exists a'. split; [exact Hst'|]. split; [lia|]. lia.
Qed.

Lemma push_valid h st v r h' st' :
  valid h st → push v (h, st) = (r, (h', st')) → valid h' st'.
Proof.
  intros (a & Hst & Hlen & Hheap) Hrun.
  destruct (Z_le_gt_dec 1 (branching_factor h)) as [Hbf|Hbf].
  - destruct (push_ok h st a v Hbf Hst Hlen) as (a' & Hrun' & Hlen' & _ & Hh).
    rewrite Hrun' in Hrun. injection Hrun as _ <- <-.
    exists a'. split; [apply lookup_insert_eq|]. split; [cbn; lia|].
    intros _. now apply Hh, Hheap.
  - unfold push in Hrun. rewrite bind_set_self in Hrun. cbn [fst snd] in Hrun.
    fold (grown h) in Hrun.
    rewrite (bind_ok _ _ _ _ _ (append_ok (grown h) st a v Hst)) in Hrun.
    rewrite bind_attr in Hrun. unfold __sift_up in Hrun.
    apply sift_up_rec_same_len in Hrun.
    eapply same_len_valid; [| |exact Hrun]; [cbn; lia|].
    exists (a ++ [v]). split; [apply lookup_insert_eq|].
    rewrite length_app. cbn. lia.
Qed.

Lemma pop_valid h st r h' st' :
  valid h st → pop (h, st) = (r, (h', st')) → valid h' st'.
Proof.
  intros (a & Hst & Hlen & Hheap) Hrun.
  destruct (Z_le_gt_dec 0 (last_index h)) as [Hne|He].
  - destruct (pop_ok h st a Hst Hlen Hne) as (a' & Hrun' & Hlen' & _ & Hh).
    rewrite Hrun' in Hrun. injection Hrun as _ <- <-.
    exists a'. split; [apply lookup_insert_eq|]. split; [cbn; lia|].
    cbn. intros Hbf. apply Hh; [exact Hbf | now apply Hheap].
  - assert (a = []) as -> by (destruct a; [reflexivity | cbn in Hlen; lia]).
    rewrite (pop_empty h st Hst) in Hrun. injection Hrun as _ <- <-.
    exists []. split; [exact Hst|]. split; [exact Hlen | exact Hheap].
Qed.

Lemma fmap_result_inv {A B} (f : A → B) (m : M t A) s r s' :
  fmap_result f m s = (r, s') → ∃ r0, m s = (r0, s').
Proof.
  unfold fmap_result. intros H.
  apply bind_inv in H as [(v & s1 & H1 & H)|(e & H1 & _)].
  - injection H as _ <-. now exists (Ok v).
  - now exists (Raise e).
Qed.

Lemma validate_heap_pure parent s r s' : validate_heap parent s = (r, s') → s' = s.
Proof. unfold validate_heap. rewrite bind_attr. apply validate_rec_pure. Qed.

Lemma exec_valid c h st r h' st' :
  valid h st → exec c (h, st) = (r, (h', st')) → valid h' st'.
Proof.
  intros Hv Hrun. destruct c; cbn [exec] in Hrun;
    apply fmap_result_inv in Hrun as (r0 & Hrun).
  - eapply push_valid; eassumption.
  - eapply pop_valid; eassumption.
  - apply getitem_pure in Hrun. now injection Hrun as <- <-.
  - injection Hrun as _ <- <-. exact Hv.
  - apply validate_heap_pure in Hrun. now injection Hrun as <- <-.
Qed.

Lemma push_all_valid vals :
  ∀ h st r h' st', valid h st → push_all vals (h, st) = (r, (h', st')) → valid h' st'.
Proof.
  induction vals as [|v vals IH]; intros h st r h' st' Hv Hrun.
  - now injection Hrun as _ <- <-.
  - cbn [push_all] in Hrun.
    apply bind_inv in Hrun as [(u & [h1 st1] & H1 & H)|(e & H1 & _)].
    + eapply IH; [|exact H]. eapply push_valid; eassumption.
    + eapply push_valid; eassumption.
Qed.

Lemma push_from_valid src n :
  ∀ pos h st r h' st',
    valid h st → push_from src n pos (h, st) = (r, (h', st')) → valid h' st'.
Proof.
  induction n as [|n IH]; intros pos h st r h' st' Hv Hrun.
  - now injection Hrun as _ <- <-.
  - cbn [push_from] in Hrun.
    apply bind_inv in Hrun as [(b & s1 & H1 & H)|(e & H1 & _)].
    + unfold load in H1. destruct ((h, st).2 !! src); [|discriminate].
      injection H1 as _ <-.
      destruct (b !! pos) as [v|]; [|now injection H as _ <- <-].
      apply bind_inv in H as [(u & [h1 st1] & H1 & H)|(e & H1 & _)].
      * eapply IH; [|exact H]. eapply push_valid; eassumption.
      * eapply push_valid; eassumption.
    + unfold load in H1. destruct ((h, st).2 !! src); [discriminate|].
      now injection H1 as _ <- <-.
Qed.

Lemma fresh_not_in (st : store) : st !! fresh (dom st) = None.
Proof. apply not_elem_of_dom. apply is_fresh. Qed.

Lemma valid_new bf mh l st : valid (mk bf mh l (-1)) (<[l := []]> st).
Proof.
  exists []. split; [apply lookup_insert_eq|]. split; [reflexivity|].
  cbn. intros Hbf p c Hp Hc Hl. pose proof (child_gt _ Hbf p c Hp Hc). lia.
Qed.

Lemma init_valid ic mh bf st h st' :
  __init__ ic mh bf st = (Ok h, st') → valid h st'.
Proof.
  unfold __init__. intros Hrun.
  set (l := fresh (dom st)) in *.
  pose proof (valid_new bf mh l st) as Hv.
  destruct ic as [vals|src].
  - destruct (push_all vals _) as [[u|e] [h1 st1]] eqn:Hfill;
      [|discriminate].
    injection Hrun as <- <-. eapply push_all_valid; eassumption.
  - destruct (bind _ _ _) as [[u|e] [h1 st1]] eqn:Hfill; [|discriminate].
    injection Hrun as <- <-.
    apply bind_inv in Hfill as [(b & s1 & H1 & H)|(e & H1 & ?)]; [|discriminate].
    unfold load in H1. destruct (_ !! src); [|discriminate].
    injection H1 as _ <-. eapply push_from_valid; eassumption.
Qed.

End DHeapValid.

(** ** [heapify] *)

Section DHeapHeapify.
Import DHeap.
Implicit Types (h : t) (st : store) (a : list Z) (s : t * store).

(** Past the parent of the last position there are no parents. *)
Lemma heap_from_leaves bf mh last a :
  1 ≤ bf → heap_from bf mh last a (Z.max 0 ((last - 1) / bf + 1)).
Proof.
  intros Hbf p c Hp Hc Hl. exfalso.
  pose proof (Z.mul_succ_div_gt (last - 1) bf ltac:(lia)).
  unfold child in Hc. nia.
Qed.

Lemma heapify_loop_ok h :
  ∀ n start st a,
    st !! heap_array h = Some a →
    Z.of_nat (length a) = last_index h + 1 →
    (1 ≤ branching_factor h →
     Z.of_nat n = Z.max 0 (start + 1) ∧
     heap_from (branching_factor h) (max_heap h) (last_index h) a (Z.max 0 (start + 1))) →
    ∃ a',
      heapify_loop n start (h, st) = (Ok tt, (h, <[heap_array h := a']> st)) ∧
      length a' = length a ∧ a' ≡ₚ a ∧
      (1 ≤ branching_factor h →
       heap_from (branching_factor h) (max_heap h) (last_index h) a' 0).
Proof.
  induction n as [|n IH]; intros start st a Hst Hlen Hpre.
  - exists a. split; [cbn; unfold ret; now rewrite insert_id|].
    split; [reflexivity|]. split; [reflexivity|].
    intros Hbf. destruct (Hpre Hbf) as [Hn Hh].
    now replace (Z.max 0 (start + 1)) with 0 in Hh by lia.
  - cbn [heapify_loop]. destruct (Z.leb_spec 0 start) as [Hs|Hs].
    + destruct (sift_down_any h st a start Hst ltac:(lia) Hs)
        as (a1 & Hrun1 & Hlen1 & Hperm1 & Hsd).
      rewrite (bind_ok _ _ _ _ _ Hrun1).
      destruct (IH (start - 1) (<[heap_array h := a1]> st) a1)
        as (a' & Hrun & Hlen' & Hperm & Hh).
      { apply lookup_insert_eq. }
      { lia. }
      { intros Hbf. destruct (Hpre Hbf) as [Hn Hh]. split; [lia|].
        replace (Z.max 0 (start - 1 + 1)) with start by lia.
        replace (Z.max 0 (start + 1)) with (start + 1) in Hh by lia.
        destruct (Hsd Hbf) as (_ & _ & _ & _ & Hk).
        apply Hk; [lia|]. now apply heap_from_sift_down_pre. }
      exists a'. rewrite Hrun, insert_insert_eq. split; [reflexivity|].
      split; [congruence|]. split; [now rewrite Hperm|]. exact Hh.
    + exists a. split; [unfold ret; now rewrite insert_id|].
      split; [reflexivity|]. split; [reflexivity|].
      intros Hbf. destruct (Hpre Hbf) as [Hn Hh]. lia.
Qed.

Lemma init_empty mh bf st :
  __init__ (Tuple []) mh bf st =
    (Ok (mk bf mh (fresh (dom st)) (-1)), <[fresh (dom st) := []]> st).
Proof. reflexivity. Qed.

(** [heapify] of a list object: the heap wraps that very object. *)
Lemma heapify_run l mh bf st a :
  (<[fresh (dom st) := []]> st) !! l = Some a → bf ≠ 0 →
  ∃ a',
    heapify l mh bf st =
      (Ok (mk bf mh l (Z.of_nat (length a) - 1)),
       <[l := a']> (<[fresh (dom st) := []]> st)) ∧
    length a' = length a ∧ a' ≡ₚ a ∧
    (1 ≤ bf → heap_from bf mh (Z.of_nat (length a) - 1) a' 0).
Proof.
  intros Hst Hbf. unfold heapify. rewrite init_empty.
  rewrite bind_set_self. unfold bind at 1. unfold load at 1.
  cbn [fst snd]. rewrite Hst.
  rewrite bind_set_self. rewrite !bind_attr.
  unfold with_last_index, with_heap_array.
  cbn [fst snd branching_factor max_heap heap_array last_index].
  unfold bind at 1. unfold lift at 1. rewrite floordiv_ok by exact Hbf.
  set (h := mk bf mh l (Z.of_nat (length a) - 1)).
  set (start := (Z.of_nat (length a) - 1 - 1) / bf).
  destruct (heapify_loop_ok h (Z.to_nat (start + 1)) start
              (<[fresh (dom st) := []]> st) a Hst ltac:(cbn; lia))
    as (a' & Hrun & Hlen & Hperm & Hh).
  { intros Hb. split; [lia|]. apply (heap_from_leaves _ _ _ _ Hb). }
  rewrite Hrun. exists a'. split; [reflexivity|].
  split; [exact Hlen|]. split; [exact Hperm|]. exact Hh.
Qed.

Lemma heapify_zero l mh st r st' :
  heapify l mh 0 st = (r, st') → ∃ e, r = Raise e.
Proof.
  unfold heapify. rewrite init_empty.
  rewrite bind_set_self. cbn [fst snd with_heap_array].
  unfold bind at 1. unfold load at 1. cbn [fst snd].
  destruct (_ !! l) as [a|]; [|intros [= <- _]; now eexists].
  rewrite bind_set_self. rewrite !bind_attr. cbn.
  intros [= <- _]. now eexists.
Qed.

Lemma heapify_valid l mh bf st h st' :
  heapify l mh bf st = (Ok h, st') → valid h st'.
Proof.
  intros Hrun.
  destruct (Z.eq_dec bf 0) as [->|Hbf].
  { apply heapify_zero in Hrun as [e He]. discriminate. }
  destruct ((<[fresh (dom st) := []]> st) !! l) as [a|] eqn:Hst.
  - destruct (heapify_run l mh bf st a Hst Hbf) as (a' & Hrun' & Hlen & _ & Hh).
    rewrite Hrun' in Hrun. injection Hrun as <- <-.
    exists a'. split; [apply lookup_insert_eq|]. split; [cbn; lia|]. exact Hh.
  - unfold heapify in Hrun. rewrite init_empty in Hrun.
    rewrite bind_set_self in Hrun. cbn [fst snd] in Hrun.
    unfold bind at 1 in Hrun. unfold load at 1 in Hrun. cbn [fst snd] in Hrun.
    rewrite Hst in Hrun. discriminate.
Qed.

(** Every heap a caller can hold satisfies the invariant. *)
Lemma reachable_valid h st : reachable h st → valid h st.
Proof.
  induction 1 as [st ic mh bf h st' Hrun | st l mh bf h st' Hrun
                 | h st c r h' st' _ IH Hrun].
  - eapply init_valid; eassumption.
  - eapply heapify_valid; eassumption.
  - eapply exec_valid; eassumption.
Qed.

End DHeapHeapify.

(** ** The heap property, the storage length and the empty heap *)

Section DHeapProperty.
Import DHeap.
Implicit Types (h : t) (st : store) (a : list Z) (s : t * store).

Lemma heap_from_property bf mh a n :
  Z.of_nat (length a) = n →
  (1 ≤ bf → heap_from bf mh (n - 1) a 0) →
  heap_property bf mh a n.
Proof.
  intros Hlen Hh i k Hi Hk Hc.
  assert (Hbf : 1 ≤ bf) by lia.
  exists (item a i), (item a (i * bf + k + 1)).
  split; [apply lookup_item; unfold in_range; lia|].
  split; [apply lookup_item; unfold in_range; nia|].
  apply (Hh Hbf); [lia | now apply child_offset | lia].
Qed.

Lemma valid_property h st :
  valid h st →
  ∃ a, storage h st = Some a ∧ Z.of_nat (length a) = size h ∧
       heap_property (branching_factor h) (max_heap h) a (size h).
Proof.
  intros (a & Hst & Hlen & Hh). exists a. split; [exact Hst|]. split; [exact Hlen|].
  apply heap_from_property; [exact Hlen|]. unfold size.
  now replace (last_index h + 1 - 1) with (last_index h) by lia.
Qed.

(** In a heap the root is at least as extreme as every stored element. *)
Lemma root_extreme bf mh a :
  1 ≤ bf → heap_from bf mh (Z.of_nat (length a) - 1) a 0 →
  ∀ y, y ∈ a → at_least mh (item a 0) y.
Proof.
  intros Hbf Hh y Hy. apply list_elem_of_lookup in Hy as [n Hn].
  pose proof (lookup_lt_Some _ _ _ Hn) as Hlt.
  replace y with (item a (Z.of_nat n)).
  - apply (heap_from_root bf Hbf mh _ a Hh). lia.
  - unfold item. rewrite Nat2Z.id. now apply list_lookup_total_correct.
Qed.

End DHeapProperty.

Lemma pop_heap_reachable : reachable pop_heap pop_store.
Proof.
  apply (reach_init pop_source (ListRef 0%nat) true 2). vm_compute. reflexivity.
Qed.

Lemma pop_heap'_reachable : reachable pop_heap' pop_store'.
Proof.
  apply (reach_call pop_heap pop_store Pop (Ok (VInt 1024))); [apply pop_heap_reachable|].
  vm_compute. reflexivity.
Qed.

Lemma empty_heap_reachable : reachable empty_heap empty_store.
Proof. apply (reach_init ∅ (Tuple []) true 2). vm_compute. reflexivity. Qed.

(** C1: every heap made by the constructor (empty or with initial contents)
    or by [heapify] and then used through any sequence of [push] and [pop]
    (and the other methods) satisfies the heap property after each operation:
    for every position [i] below the size and every child position
    [i * branching_factor + k + 1] below the size, the two elements are stored
    and the parent's is [≥] the child's in a max heap, [≤] in a min heap. *)
Theorem heap_property_invariant (h : DHeap.t) (st : store) :
  reachable h st →
  ∃ a, storage h st = Some a ∧
       heap_property (DHeap.branching_factor h) (DHeap.max_heap h) a (size h).
Proof.
  intros Hr. apply reachable_valid, valid_property in Hr as (a & Hst & _ & Hp).
  now exists a.
Qed.

Lemma heap_property_invariant_witness :
  reachable pop_heap' pop_store' ∧
  ∃ a, storage pop_heap' pop_store' = Some a ∧ heap_property 2 true a 6.
Proof.
  split; [apply pop_heap'_reachable|].
  apply (heap_property_invariant pop_heap' pop_store'). apply pop_heap'_reachable.
Defined.

(** C10: for every heap made by the constructor or by [heapify], and after
    every instance operation, the length of [heap_array] is [last_index + 1];
    in particular [pop] removes the vacated last slot from the list: the
    storage is one element shorter afterwards. *)
Theorem storage_length_is_size (h : DHeap.t) (st : store) :
  reachable h st →
  (∃ a, storage h st = Some a ∧ Z.of_nat (length a) = DHeap.last_index h + 1) ∧
  (∀ x h' st', DHeap.pop (h, st) = (Ok x, (h', st')) →
     ∃ a a', storage h st = Some a ∧ storage h' st' = Some a' ∧
             length a = S (length a') ∧
             Z.of_nat (length a') = DHeap.last_index h' + 1).
Proof.
  intros Hr. apply reachable_valid in Hr as (a & Hst & Hlen & Hh). split.
  - now exists a.
  - intros x h' st' Hrun.
    destruct (Z_le_gt_dec 0 (DHeap.last_index h)) as [Hne|He].
    + destruct (pop_ok h st a Hst Hlen Hne) as (a' & Hrun' & Hlen' & _ & _).
      rewrite Hrun' in Hrun. injection Hrun as _ <- <-.
      exists a, a'. split; [exact Hst|].
      split; [apply lookup_insert_eq|]. split; [lia|]. cbn. lia.
    + assert (a = []) as -> by (destruct a; [reflexivity | cbn in Hlen; lia]).
      rewrite (pop_empty h st Hst) in Hrun. discriminate.
Qed.

Lemma storage_length_is_size_witness :
  (∃ a, storage pop_heap pop_store = Some a ∧ Z.of_nat (length a) = 6 + 1) ∧
  (∀ x h' st', DHeap.pop (pop_heap, pop_store) = (Ok x, (h', st')) →
     ∃ a a', storage pop_heap pop_store = Some a ∧ storage h' st' = Some a' ∧
             length a = S (length a') ∧
             Z.of_nat (length a') = DHeap.last_index h' + 1).
Proof.
  apply (storage_length_is_size pop_heap pop_store). apply pop_heap_reachable.
Defined.

(** C4: on a heap a caller can hold, [peek] and [pop] raise exactly when the
    size is 0; the exception is the [IndexError] of the subscript
    [heap_array[0]], never a sentinel value; and when they raise, the
    receiver and the store are what they were before the call. *)
Theorem peek_pop_raise_iff_empty (h : DHeap.t) (st : store) :
  reachable h st →
  (size h = 0 →
     DHeap.peek (h, st) = (Raise IndexError, (h, st)) ∧
     DHeap.pop (h, st) = (Raise IndexError, (h, st))) ∧
  (size h ≠ 0 →
     (∃ x, DHeap.peek (h, st) = (Ok x, (h, st))) ∧
     (∃ x s', DHeap.pop (h, st) = (Ok x, s'))).
Proof.
  intros Hr. apply reachable_valid in Hr as (a & Hst & Hlen & Hh).
  unfold size. split.
  - intros He.
    assert (a = []) as -> by (destruct a; [reflexivity | cbn in Hlen; lia]).
    split; [now apply peek_empty | now apply pop_empty].
  - intros Hne. split.
    + exists (item a 0). apply (peek_ok h st a Hst). lia.
    + destruct (pop_ok h st a Hst Hlen ltac:(lia)) as (a' & Hrun & _).
      eexists _, _. exact Hrun.
Qed.

Lemma peek_pop_raise_iff_empty_witness :
  (size empty_heap = 0 →
     DHeap.peek (empty_heap, empty_store) = (Raise IndexError, (empty_heap, empty_store)) ∧
     DHeap.pop (empty_heap, empty_store) = (Raise IndexError, (empty_heap, empty_store))) ∧
  (size pop_heap ≠ 0 →
     (∃ x, DHeap.peek (pop_heap, pop_store) = (Ok x, (pop_heap, pop_store))) ∧
     (∃ x s', DHeap.pop (pop_heap, pop_store) = (Ok x, s'))).
Proof.
  split.
  - apply (peek_pop_raise_iff_empty empty_heap empty_store). apply empty_heap_reachable.
  - apply (peek_pop_raise_iff_empty pop_heap pop_store). apply pop_heap_reachable.
Defined.

(** ** [pop] returns the extreme element; popping everything sorts *)

Section DHeapPop.
Import DHeap.
Implicit Types (h : t) (st : store) (a : list Z) (s : t * store).

Lemma pop_all_ok n :
  ∀ h st a,
    1 ≤ branching_factor h →
    st !! heap_array h = Some a →
    Z.of_nat (length a) = last_index h + 1 →
    length a = n →
    heap_from (branching_factor h) (max_heap h) (last_index h) a 0 →
    ∃ out h' st',
      pop_all n (h, st) = (Ok out, (h', st')) ∧
      out ≡ₚ a ∧ pop_order (max_heap h) out ∧
      size h' = 0 ∧ storage h' st' = Some [].
Proof.
  induction n as [|n IH]; intros h st a Hbf Hst Hlen Hn Hh.
  - exists [], h, st. destruct a; [|discriminate].
    split; [reflexivity|]. split; [reflexivity|]. split; [constructor|].
    split; [unfold size; cbn in Hlen; lia | exact Hst].
  - destruct (pop_ok h st a Hst Hlen ltac:(lia)) as (a' & Hrun & Hlen' & Hperm & Hh').
    destruct (IH (shrunk h) (<[heap_array h := a']> st) a')
      as (out & h' & st' & Hrun' & Hperm' & Hsorted & Hsize & Hsto).
    { exact Hbf. }
    { apply lookup_insert_eq. }
    { cbn. lia. }
    { lia. }
    { cbn. now apply Hh'. }
    exists (item a 0 :: out), h', st'. cbn [pop_all].
    rewrite (bind_ok _ _ _ _ _ Hrun). rewrite (bind_ok _ _ _ _ _ Hrun').
    split; [reflexivity|].
    split.
    { symmetry. etransitivity; [exact Hperm|].
      apply Permutation_cons; [reflexivity | symmetry; exact Hperm']. }
    split; [|split; assumption].
    constructor; [exact Hsorted|].
    apply Forall_forall. intros y Hy.
    apply (root_extreme (branching_factor h) (max_heap h) a Hbf).
    + now replace (Z.of_nat (length a) - 1) with (last_index h) by lia.
    + rewrite Hperm. right. now rewrite <- Hperm'.
Qed.

End DHeapPop.

(** C2: on a non-empty heap (of a branching factor of at least 1, as the data
    model has it) [pop] returns the element stored at the root, position 0,
    which is the most extreme element stored; the size goes down by exactly
    1; and the storage left is the original multiset minus one occurrence of
    the returned element.  Popping all elements of a heap gives them back in
    sorted order: descending for a max heap, ascending for a min heap. *)
Theorem pop_returns_extreme (h : DHeap.t) (st : store) :
  reachable h st → 1 ≤ DHeap.branching_factor h →
  ∃ a, storage h st = Some a ∧
    (0 < size h →
       ∃ x a' h' st',
         DHeap.pop (h, st) = (Ok x, (h', st')) ∧
         a !! 0%nat = Some x ∧
         (∀ y, y ∈ a → at_least (DHeap.max_heap h) x y) ∧
         size h' = size h - 1 ∧
         storage h' st' = Some a' ∧
         a ≡ₚ x :: a') ∧
    (∃ out h' st',
       DHeap.pop_all (Z.to_nat (size h)) (h, st) = (Ok out, (h', st')) ∧
       out ≡ₚ a ∧ pop_order (DHeap.max_heap h) out ∧ size h' = 0).
Proof.
  intros Hr Hbf. apply reachable_valid in Hr as (a & Hst & Hlen & Hh).
  specialize (Hh Hbf). exists a. split; [exact Hst|]. unfold size. split.
  - intros Hne.
    destruct (pop_ok h st a Hst Hlen ltac:(lia)) as (a' & Hrun & Hlen' & Hperm & _).
    exists (item a 0), a', (shrunk h), (<[DHeap.heap_array h := a']> st).
    split; [exact Hrun|].
    split; [apply (lookup_item a 0); unfold in_range; lia|].
    split.
    { apply (root_extreme _ _ _ Hbf).
      now replace (Z.of_nat (length a) - 1) with (DHeap.last_index h) by lia. }
    split; [cbn; lia|]. split; [apply lookup_insert_eq | exact Hperm].
  - destruct (pop_all_ok (Z.to_nat (DHeap.last_index h + 1)) h st a Hbf Hst Hlen
                ltac:(lia) Hh)
      as (out & h' & st' & Hrun & Hperm & Hsorted & Hsize & _).
    exists out, h', st'. repeat split; assumption.
Qed.

Lemma pop_returns_extreme_witness :
  (reachable pop_heap pop_store ∧ 1 ≤ DHeap.branching_factor pop_heap) ∧
  ∃ a, storage pop_heap pop_store = Some a ∧
    (0 < size pop_heap →
       ∃ x a' h' st',
         DHeap.pop (pop_heap, pop_store) = (Ok x, (h', st')) ∧
         a !! 0%nat = Some x ∧
         (∀ y, y ∈ a → at_least true x y) ∧
         size h' = size pop_heap - 1 ∧
         storage h' st' = Some a' ∧
         a ≡ₚ x :: a') ∧
    (∃ out h' st',
       DHeap.pop_all (Z.to_nat (size pop_heap)) (pop_heap, pop_store) = (Ok out, (h', st')) ∧
       out ≡ₚ a ∧ pop_order true out ∧ size h' = 0).
Proof.
  split; [split; [apply pop_heap_reachable | vm_compute; discriminate]|].
  apply (pop_returns_extreme pop_heap pop_store);
    [apply pop_heap_reachable | vm_compute; discriminate].
Defined.

(** Why the branching factor has to be at least 1 there: the code also wraps
    a list with a branching factor below 1, without ordering it, and [pop]
    then returns the first element, whatever it is. *)
Example pop_with_branching_factor_below_1 :
  (DHeap.run (-1) [Heapify 0%nat true; Call Pop] None {[ 0%nat := [1; 5] ]}).1 =
  [Ok VNone; Ok (VInt 1)].
Proof. vm_compute. reflexivity. Qed.

(** The pops of [test_pop]. *)
Example pop_all_test_pop :
  (DHeap.pop_all 7 (pop_heap, pop_store)).1 = Ok [1024; 5; 5; 0; -2; -10; -999].
Proof. vm_compute. reflexivity. Qed.

(** ** [heapsort] *)

Section DHeapHeapsort.
Import DHeap.
Implicit Types (h : t) (st : store) (a b : list Z) (s : t * store).

Lemma sorted_of_items (R : Z → Z → Prop) b :
  (∀ i j, 0 ≤ i → i < j → j < Z.of_nat (length b) → R (item b i) (item b j)) →
  StronglySorted R b.
Proof.
  induction b as [|x b IH]; intros H; [constructor|].
  constructor.
  - apply IH. intros i j Hi Hij Hj.
    specialize (H (i + 1) (j + 1) ltac:(lia) ltac:(lia) ltac:(cbn; lia)).
    unfold item in *.
    replace (Z.to_nat (i + 1)) with (S (Z.to_nat i)) in H by lia.
    replace (Z.to_nat (j + 1)) with (S (Z.to_nat j)) in H by lia.
    exact H.
  - apply Forall_forall. intros y Hy.
    apply list_elem_of_lookup in Hy as [n Hn].
    pose proof (lookup_lt_Some _ _ _ Hn) as Hlt.
    specialize (H 0 (Z.of_nat n + 1) ltac:(lia) ltac:(lia) ltac:(cbn; lia)).
    unfold item in H.
    replace (Z.to_nat (Z.of_nat n + 1)) with (S n) in H by lia.
    change (R x (b !!! n)) in H.
    now rewrite (list_lookup_total_correct _ _ _ Hn) in H.
Qed.

Lemma heapsort_loop_ok n :
  ∀ h st b,
    1 ≤ branching_factor h →
    st !! heap_array h = Some b →
    Z.of_nat n = last_index h + 1 →
    last_index h < Z.of_nat (length b) →
    heap_from (branching_factor h) (max_heap h) (last_index h) b 0 →
    suffix_sorted (max_heap h) b (last_index h + 1) →
    prefix_below (max_heap h) b (last_index h + 1) →
    ∃ b',
      heapsort_loop n (h, st) =
        (Ok tt, (with_last_index (λ _, -1) h, <[heap_array h := b']> st)) ∧
      b' ≡ₚ b ∧ length b' = length b ∧
      suffix_sorted (max_heap h) b' 0.
Proof.
  induction n as [|n IH]; intros h st b Hbf Hst Hn Hlast Hheap Hsuf Hpre.
  - exists b. split.
    + cbn. unfold ret. rewrite insert_id by exact Hst.
      destruct h as [bf mh l li]. cbn in Hn. unfold with_last_index. cbn.
      repeat f_equal. lia.
    + split; [reflexivity|]. split; [reflexivity|].
      now replace (last_index h + 1) with 0 in Hsuf by lia.
  - cbn [heapsort_loop]. rewrite bind_attr. cbn [fst].
    destruct (Z.leb_spec 0 (last_index h)) as [Hli|Hli]; [|lia].
    assert (Hr0 : in_range b 0) by (unfold in_range; lia).
    assert (Hrl : in_range b (last_index h)) by (unfold in_range; lia).
    rewrite (bind_ok _ _ _ _ _ (swap_ok h st b 0 (last_index h) Hst Hr0 Hrl)).
    rewrite bind_set_self. cbn [fst snd]. fold (shrunk h).
    set (b1 := swapped b 0 (last_index h)).
    assert (Hitem1 : ∀ j, 0 ≤ j →
              item b1 j = if j =? last_index h then item b 0
                          else if j =? 0 then item b (last_index h) else item b j).
    { intros j Hj. unfold b1. now rewrite item_swapped by (assumption || lia). }
    destruct (sift_down_ok (shrunk h) (<[heap_array h := b1]> st) b1 0)
      as (b2 & Hrun2 & Hlen2 & Hperm2 & Hout2 & Hrng2 & Hheap2).
    { exact Hbf. }
    { apply lookup_insert_eq. }
    { unfold b1. rewrite length_swapped. cbn. lia. }
    { lia. }
    rewrite (bind_ok _ _ _ _ _ Hrun2).
    cbn [shrunk with_last_index heap_array branching_factor max_heap last_index]
      in Hout2, Hrng2, Hheap2 |- *.
    rewrite insert_insert_eq.
    assert (Hlen1 : length b1 = length b) by apply length_swapped.
    destruct (IH (shrunk h) (<[heap_array h := b2]> st) b2)
      as (b' & Hrun & Hperm & Hlen & Hsorted).
    { exact Hbf. }
    { apply lookup_insert_eq. }
    { cbn. lia. }
    { cbn. lia. }
    { cbn. apply Hheap2; [lia|]. split.
      - intros p c Hp Hp0 Hc Hcl.
        pose proof (child_gt _ Hbf p c Hp Hc) as Hpc.
        unfold ordered. rewrite !Hitem1 by lia.
        destruct (Z.eqb_spec p (last_index h)); [lia|].
        destruct (Z.eqb_spec p 0); [lia|].
        destruct (Z.eqb_spec c (last_index h)); [lia|].
        destruct (Z.eqb_spec c 0); [lia|].
        apply Hheap; [lia | exact Hc | lia].
      - intros q c Hq Hq0 _ _. pose proof (child_gt _ Hbf q 0 Hq Hq0). lia. }
    { cbn. replace (last_index h - 1 + 1) with (last_index h) by lia.
      intros i j Hi Hij Hj. rewrite Hlen2, Hlen1 in Hj.
      rewrite !Hout2 by lia. rewrite !Hitem1 by lia.
      destruct (Z.eqb_spec i (last_index h)) as [->|Hil].
      - destruct (Z.eqb_spec j (last_index h)); [apply at_least_refl|].
        destruct (Z.eqb_spec j 0); [lia|]. apply Hpre; lia.
      - destruct (Z.eqb_spec j (last_index h)); [lia|].
        destruct (Z.eqb_spec j 0); [lia|]. destruct (Z.eqb_spec i 0); [lia|].
        apply Hsuf; lia. }
    { cbn. replace (last_index h - 1 + 1) with (last_index h) by lia.
      intros i j Hi Hj. rewrite Hlen2, Hlen1 in Hj.
      destruct (Hrng2 i ltac:(lia)) as (i' & Hi' & ->).
      rewrite Hout2 by lia. rewrite !Hitem1 by lia.
      destruct (Z.eqb_spec i' (last_index h)); [lia|].
      destruct (Z.eqb_spec j (last_index h)) as [->|Hjl].
      - destruct (Z.eqb_spec i' 0).
        + apply (heap_from_root _ Hbf _ _ b Hheap). lia.
        + apply (heap_from_root _ Hbf _ _ b Hheap). lia.
      - destruct (Z.eqb_spec j 0); [lia|].
        destruct (Z.eqb_spec i' 0); apply Hpre; lia. }
    exists b'. rewrite Hrun. cbn [shrunk with_last_index heap_array branching_factor max_heap last_index].
    rewrite insert_insert_eq. split; [reflexivity|].
    split; [rewrite Hperm, Hperm2; apply swapped_perm; assumption|].
    split; [lia|]. exact Hsorted.
Qed.

(** [heapsort] of a list object of the store. *)
Lemma heapsort_ok l ascending (st : store) a :
  st !! l = Some a →
  ∃ a',
    DHeap.heapsort l ascending st =
      (Ok tt, <[l := a']> (<[fresh (dom st) := []]> st)) ∧
    a' ≡ₚ a ∧ length a' = length a ∧ sorted_as ascending a'.
Proof.
  intros Hst.
  assert (Hl : l ≠ fresh (dom st)).
  { intros ->. rewrite fresh_not_in in Hst. discriminate. }
  destruct (heapify_run l ascending 2 st a) as (a1 & Hrun1 & Hlen1 & Hperm1 & Hh1).
  { rewrite lookup_insert_ne by (intros E; now apply Hl). exact Hst. }
  { lia. }
  unfold DHeap.heapsort. rewrite Hrun1.
  cbn [DHeap.last_index].
  destruct (heapsort_loop_ok (Z.to_nat (Z.of_nat (length a) - 1 + 1))
              (DHeap.mk 2 ascending l (Z.of_nat (length a) - 1))
              (<[l := a1]> (<[fresh (dom st) := []]> st)) a1)
    as (b & Hrun & Hperm & Hlen & Hsorted).
  { cbn. lia. }
  { apply lookup_insert_eq. }
  { cbn. lia. }
  { cbn. lia. }
  { cbn. apply Hh1. lia. }
  { cbn. intros i j Hi Hij Hj. lia. }
  { cbn. intros i j Hi Hj. lia. }
  rewrite Hrun. cbn [DHeap.heap_array]. rewrite insert_insert_eq.
  exists b. split; [reflexivity|].
  split; [now rewrite Hperm|]. split; [lia|].
  apply sorted_of_items. intros i j Hi Hij Hj. cbn in Hsorted.
  specialize (Hsorted i j Hi ltac:(lia) Hj).
  unfold in_order, at_least in *. now destruct ascending.
Qed.

End DHeapHeapsort.

(** ** [BinaryHeap] is [DHeap] with branching factor 2 *)

Section Simulation.
Implicit Types (s : BinaryHeap.t * store).

Lemma sim_ret {A} (v : A) : sim (ret v) (ret v).
Proof. intros s. reflexivity. Qed.

Lemma sim_raise {A} e : sim (A := A) (raise e) (raise e).
Proof. intros s. reflexivity. Qed.

Lemma sim_lift {A} (r : result A) : sim (lift r) (lift r).
Proof. intros s. reflexivity. Qed.

Lemma sim_bind {A B} mb md (kb : A → M BinaryHeap.t B) kd :
  sim mb md → (∀ v, sim (kb v) (kd v)) → sim (bind mb kb) (bind md kd).
Proof.
  intros Hm Hk s. unfold bind. rewrite Hm.
  destruct (mb s) as [[v|e] s1]; cbn; [apply Hk | reflexivity].
Qed.

Lemma sim_max_heap : sim (attr BinaryHeap.max_heap) (attr DHeap.max_heap).
Proof. intros s. reflexivity. Qed.

Lemma sim_heap_array : sim (attr BinaryHeap.heap_array) (attr DHeap.heap_array).
Proof. intros s. reflexivity. Qed.

Lemma sim_last_index : sim (attr BinaryHeap.last_index) (attr DHeap.last_index).
Proof. intros s. reflexivity. Qed.

Lemma sim_branching_factor {A} mb (kd : Z → M DHeap.t A) :
  sim mb (kd 2) → sim mb (bind (attr DHeap.branching_factor) kd).
Proof. intros H s. rewrite bind_attr. apply H. Qed.

Lemma sim_set_last_index f :
  sim (set_self (BinaryHeap.with_last_index f)) (set_self (DHeap.with_last_index f)).
Proof. intros s. reflexivity. Qed.

Lemma sim_set_heap_array l :
  sim (set_self (BinaryHeap.with_heap_array l)) (set_self (DHeap.with_heap_array l)).
Proof. intros s. reflexivity. Qed.

Lemma sim_load l : sim (load l) (load l).
Proof. intros s. unfold load. cbn. now destruct (s.2 !! l). Qed.

Lemma sim_store_list l a : sim (store_list l a) (store_list l a).
Proof. intros s. reflexivity. Qed.

Lemma sim_if {A} (c : bool) (mb mb' : M BinaryHeap.t A) md md' :
  sim mb md → sim mb' md' → sim (if c then mb else mb') (if c then md else md').
Proof. now destruct c. Qed.

Ltac sim_step :=
  first
    [ apply sim_ret | apply sim_raise | apply sim_lift
    | apply sim_max_heap | apply sim_heap_array | apply sim_last_index
    | apply sim_set_last_index | apply sim_set_heap_array
    | apply sim_load | apply sim_store_list
    | apply sim_branching_factor
    | apply sim_bind; [|intros ?]
    | apply sim_if ].

Lemma sim_getitem i : sim (BinaryHeap.getitem i) (DHeap.getitem i).
Proof. unfold BinaryHeap.getitem, DHeap.getitem. repeat sim_step. Qed.

Lemma sim_setitem i v : sim (BinaryHeap.setitem i v) (DHeap.setitem i v).
Proof. unfold BinaryHeap.setitem, DHeap.setitem. repeat sim_step. Qed.

Lemma sim_append v : sim (BinaryHeap.append v) (DHeap.append v).
Proof. unfold BinaryHeap.append, DHeap.append. repeat sim_step. Qed.

Lemma sim_pop_item i : sim (BinaryHeap.pop_item i) (DHeap.pop_item i).
Proof. unfold BinaryHeap.pop_item, DHeap.pop_item. repeat sim_step. Qed.

Lemma sim_swap i j : sim (BinaryHeap.__swap i j) (DHeap.__swap i j).
Proof.
  unfold BinaryHeap.__swap, DHeap.__swap.
  repeat first [apply sim_getitem | apply sim_setitem | sim_step].
Qed.

Lemma sim_compare i j : sim (BinaryHeap.__compare i j) (DHeap.__compare i j).
Proof.
  unfold BinaryHeap.__compare, DHeap.__compare.
  repeat first [apply sim_getitem | sim_step].
Qed.

Lemma sim_sift_up_rec depth :
  ∀ index, sim (BinaryHeap.sift_up_rec depth index) (DHeap.sift_up_rec depth index).
Proof.
  induction depth as [|d IH]; intros index; [apply sim_raise|].
  cbn [BinaryHeap.sift_up_rec DHeap.sift_up_rec].
  apply sim_branching_factor. intros s.
  unfold bind at 1. unfold lift at 1. unfold floordiv. cbn [Z.eqb].
  revert s. apply sim_bind.
  - apply sim_if; [apply sim_compare | apply sim_ret].
  - intros c. apply sim_if; [|apply sim_ret].
    apply sim_bind; [apply sim_swap | intros _; apply IH].
Qed.

Lemma sim_select2 index :
  sim (select2 index) (DHeap.scan_children index 2 1 index).
Proof.
  unfold select2. cbn [DHeap.scan_children].
  apply sim_branching_factor. apply sim_bind; [apply sim_last_index|]. intros li.
  apply sim_bind; [apply sim_if; [apply sim_compare | apply sim_ret]|]. intros c1.
  apply sim_branching_factor. apply sim_bind; [apply sim_last_index|]. intros li'.
  change (1 + 1) with 2.
  apply sim_bind; [apply sim_if; [apply sim_compare | apply sim_ret]|]. intros c2.
  apply sim_ret.
Qed.

Lemma bind_select2 index (k : Z → M BinaryHeap.t unit) s :
  bind (select2 index) k s =
  (let left := index * 2 + 1 in
   let right := index * 2 + 2 in
   let* li := attr BinaryHeap.last_index in
   let* c1 := (if left <=? li then BinaryHeap.__compare left index else ret false) in
   let new_parent := if c1 then left else index in
   let* li := attr BinaryHeap.last_index in
   let* c2 := (if right <=? li then BinaryHeap.__compare right new_parent else ret false) in
   let new_parent := if c2 then right else new_parent in
   k new_parent) s.
Proof.
  unfold select2, bind, attr.
  destruct ((if index * 2 + 1 <=? BinaryHeap.last_index s.1
             then BinaryHeap.__compare (index * 2 + 1) index else ret false) s)
    as [[c1|e1] s1]; [|reflexivity].
  destruct ((if index * 2 + 2 <=? BinaryHeap.last_index s1.1
             then BinaryHeap.__compare (index * 2 + 2)
                    (if c1 then index * 2 + 1 else index)
             else ret false) s1)
    as [[c2|e2] s2]; reflexivity.
Qed.

Lemma sim_sift_down_rec depth :
  ∀ index, sim (BinaryHeap.sift_down_rec depth index) (DHeap.sift_down_rec depth index).
Proof.
  induction depth as [|d IH]; intros index; [apply sim_raise|].
  intros s.
  replace (BinaryHeap.sift_down_rec (S d) index s)
    with (bind (select2 index)
            (λ np, if negb (np =? index)
                   then BinaryHeap.__swap index np ;; BinaryHeap.sift_down_rec d np
                   else ret tt) s)
    by apply bind_select2.
  cbn [DHeap.sift_down_rec]. revert s.
  apply sim_branching_factor. change (Z.to_nat 2) with 2%nat.
  apply sim_bind; [apply sim_select2|]. intros np.
  apply sim_if; [|apply sim_ret].
  apply sim_bind; [apply sim_swap | intros _; apply IH].
Qed.

Lemma sim_sift_up index : sim (BinaryHeap.__sift_up index) (DHeap.__sift_up index).
Proof. apply sim_sift_up_rec. Qed.

Lemma sim_sift_down index : sim (BinaryHeap.__sift_down index) (DHeap.__sift_down index).
Proof.
  unfold BinaryHeap.__sift_down, DHeap.__sift_down.
  apply sim_bind; [apply sim_last_index|]. intros li. apply sim_sift_down_rec.
Qed.

Lemma sim_peek : sim BinaryHeap.peek DHeap.peek.
Proof. apply sim_getitem. Qed.

Lemma sim_push v : sim (BinaryHeap.push v) (DHeap.push v).
Proof.
  unfold BinaryHeap.push, DHeap.push.
  repeat first [apply sim_append | apply sim_sift_up | sim_step].
Qed.

Lemma sim_pop : sim BinaryHeap.pop DHeap.pop.
Proof.
  unfold BinaryHeap.pop, DHeap.pop.
  repeat first [apply sim_peek | apply sim_swap | apply sim_pop_item
               | apply sim_sift_down | sim_step].
Qed.

Lemma sim_len : sim BinaryHeap.__len__ DHeap.__len__.
Proof. unfold BinaryHeap.__len__, DHeap.__len__. repeat sim_step. Qed.

Lemma sim_validate_loop rb rd fc parent cnt :
  (∀ p, sim (rb p) (rd p)) →
  ∀ i, sim (BinaryHeap.validate_loop rb fc parent cnt i)
           (DHeap.validate_loop rd fc parent cnt i).
Proof.
  intros Hr. induction cnt as [|cnt IH]; intros i; [apply sim_ret|].
  cbn [BinaryHeap.validate_loop DHeap.validate_loop].
  apply sim_bind; [apply sim_last_index|]. intros li.
  apply sim_if; [|apply IH].
  apply sim_bind; [apply sim_compare|]. intros c.
  apply sim_if; [apply sim_ret | apply Hr].
Qed.

Lemma sim_validate_rec depth :
  ∀ parent, sim (BinaryHeap.validate_rec depth parent) (DHeap.validate_rec depth parent).
Proof.
  induction depth as [|d IH]; intros parent; [apply sim_raise|].
  cbn [BinaryHeap.validate_rec DHeap.validate_rec].
  apply sim_branching_factor. change (Z.to_nat 2) with 2%nat.
  now apply sim_validate_loop.
Qed.

Lemma sim_validate_heap parent :
  sim (BinaryHeap.validate_heap parent) (DHeap.validate_heap parent).
Proof.
  unfold BinaryHeap.validate_heap, DHeap.validate_heap.
  apply sim_bind; [apply sim_last_index|]. intros li. apply sim_validate_rec.
Qed.

Lemma sim_exec c : sim (BinaryHeap.exec c) (DHeap.exec c).
Proof.
  destruct c; cbn [BinaryHeap.exec DHeap.exec]; unfold fmap_result;
    (apply sim_bind; [|intros ?; apply sim_ret]).
  - apply sim_push.
  - apply sim_pop.
  - apply sim_peek.
  - apply sim_len.
  - apply sim_validate_heap.
Qed.

Lemma sim_push_all vals : sim (BinaryHeap.push_all vals) (DHeap.push_all vals).
Proof.
  induction vals as [|v vals IH]; [apply sim_ret|].
  cbn [BinaryHeap.push_all DHeap.push_all].
  apply sim_bind; [apply sim_push | intros _; apply IH].
Qed.

Lemma sim_push_from src n :
  ∀ pos, sim (BinaryHeap.push_from src n pos) (DHeap.push_from src n pos).
Proof.
  induction n as [|n IH]; intros pos; [apply sim_ret|].
  cbn [BinaryHeap.push_from DHeap.push_from].
  apply sim_bind; [apply sim_load|]. intros a.
  destruct (a !! pos); [|apply sim_ret].
  apply sim_bind; [apply sim_push | intros _; apply IH].
Qed.

Lemma sim_heapify_loop n :
  ∀ start, sim (BinaryHeap.heapify_loop n start) (DHeap.heapify_loop n start).
Proof.
  induction n as [|n IH]; intros start; [apply sim_ret|].
  cbn [BinaryHeap.heapify_loop DHeap.heapify_loop].
  apply sim_if; [|apply sim_ret].
  apply sim_bind; [apply sim_sift_down | intros _; apply IH].
Qed.

Lemma sim_heapsort_loop n :
  sim (BinaryHeap.heapsort_loop n) (DHeap.heapsort_loop n).
Proof.
  induction n as [|n IH]; [apply sim_ret|].
  cbn [BinaryHeap.heapsort_loop DHeap.heapsort_loop].
  apply sim_bind; [apply sim_last_index|]. intros li.
  apply sim_if; [|apply sim_ret].
  repeat first [apply sim_swap | apply sim_sift_down | apply IH | sim_step].
Qed.

Lemma init_same ic mh st :
  DHeap.__init__ ic mh 2 st = lift_new (BinaryHeap.__init__ ic mh st).
Proof.
  unfold DHeap.__init__, BinaryHeap.__init__.
  set (l := fresh (dom st)).
  assert (Hfill : sim
            match ic with
            | Tuple vals => BinaryHeap.push_all vals
            | ListRef src => let* a := load src in BinaryHeap.push_from src (length a) 0
            end
            match ic with
            | Tuple vals => DHeap.push_all vals
            | ListRef src => let* a := load src in DHeap.push_from src (length a) 0
            end).
  { destruct ic; [apply sim_push_all|].
    apply sim_bind; [apply sim_load | intros a; apply sim_push_from]. }
  specialize (Hfill (BinaryHeap.mk mh l (-1), <[l := []]> st)).
  unfold lift_state in Hfill. cbn [fst snd] in Hfill.
  change (as_dheap (BinaryHeap.mk mh l (-1))) with (DHeap.mk 2 mh l (-1)) in Hfill.
  cbv zeta. rewrite Hfill.
  destruct (_ (BinaryHeap.mk mh l (-1), <[l := []]> st)) as [[u|e] [h1 st1]];
    reflexivity.
Qed.

Lemma heapify_same l mh st :
  DHeap.heapify l mh 2 st = lift_new (BinaryHeap.heapify l mh st).
Proof.
  unfold DHeap.heapify, BinaryHeap.heapify.
  rewrite init_same. unfold lift_new.
  destruct (BinaryHeap.__init__ (Tuple []) mh st) as [[h0|e] st0]; [|reflexivity].
  cbn [fst snd].
  assert (Hbody : sim
    (set_self (BinaryHeap.with_heap_array l) ;;
     let* a := load l in
     set_self (BinaryHeap.with_last_index (λ _, Z.of_nat (length a) - 1)) ;;
     let* li := attr BinaryHeap.last_index in
     let start := (li - 1) / 2 in
     BinaryHeap.heapify_loop (Z.to_nat (start + 1)) start)
    (set_self (DHeap.with_heap_array l) ;;
     let* a := load l in
     set_self (DHeap.with_last_index (λ _, Z.of_nat (length a) - 1)) ;;
     let* li := attr DHeap.last_index in
     let* bf := attr DHeap.branching_factor in
     let* start := lift (floordiv (li - 1) bf) in
     DHeap.heapify_loop (Z.to_nat (start + 1)) start)).
  { apply sim_bind; [apply sim_set_heap_array|]. intros _.
    apply sim_bind; [apply sim_load|]. intros a.
    apply sim_bind; [apply sim_set_last_index|]. intros _.
    apply sim_bind; [apply sim_last_index|]. intros li.
    apply sim_branching_factor. intros s.
    unfold bind at 1. unfold lift at 1. unfold floordiv. cbn [Z.eqb].
    apply sim_heapify_loop. }
  specialize (Hbody (h0, st0)). unfold lift_state in Hbody. cbn [fst snd] in Hbody.
  cbv zeta. rewrite Hbody.
  match goal with
  | |- context [lift_out ?x] => destruct x as [[u|e] [h1 st1]]
  end; reflexivity.
Qed.

Lemma heapsort_same l asc st :
  DHeap.heapsort l asc st = BinaryHeap.heapsort l asc st.
Proof.
  unfold DHeap.heapsort, BinaryHeap.heapsort.
  rewrite heapify_same. unfold lift_new.
  destruct (BinaryHeap.heapify l asc st) as [[h0|e] st0]; [|reflexivity].
  cbn [fst snd].
  pose proof (sim_heapsort_loop (Z.to_nat (BinaryHeap.last_index h0 + 1)) (h0, st0))
    as Hloop.
  unfold lift_state in Hloop. cbn [fst snd] in Hloop.
  change (DHeap.last_index (as_dheap h0)) with (BinaryHeap.last_index h0).
  rewrite Hloop.
  destruct (BinaryHeap.heapsort_loop _ (h0, st0)) as [r [h1 st1]]. reflexivity.
Qed.

End Simulation.

Lemma run_stmt_same (s : stmt) (cur : option BinaryHeap.t) (st : store) :
  DHeap.run_stmt 2 s (lift_cur cur) st =
    match BinaryHeap.run_stmt s cur st with
    | (r, (cur', st')) => (r, (lift_cur cur', st'))
    end.
Proof.
  destruct s as [ic mh | l mh | l asc | c]; cbn [DHeap.run_stmt BinaryHeap.run_stmt].
  - rewrite init_same. unfold lift_new.
    destruct (BinaryHeap.__init__ ic mh st) as [[h|e] st']; reflexivity.
  - rewrite heapify_same. unfold lift_new.
    destruct (BinaryHeap.heapify l mh st) as [[h|e] st']; reflexivity.
  - rewrite heapsort_same.
    destruct (BinaryHeap.heapsort l asc st) as [[u|e] st']; reflexivity.
  - destruct cur as [h|]; [|reflexivity]. cbn [lift_cur].
    pose proof (sim_exec c (h, st)) as H. unfold lift_state in H. cbn [fst snd] in H.
    rewrite H. destruct (BinaryHeap.exec c (h, st)) as [r [h' st']]. reflexivity.
Qed.

(** C8: [BinaryHeap] and [DHeap] with branching factor 2 behave alike.  For
    every store (hence every initial list) and every script of constructor,
    [heapify], [heapsort], [push], [pop], [peek], [len] and [validate_heap]
    calls, the two classes give the same return values and the same
    exceptions, statement by statement, and end with the same store and the
    same attributes of the heap. *)
Theorem binary_heap_is_dheap_2 (script : list stmt) (cur : option BinaryHeap.t)
    (st : store) :
  DHeap.run 2 script (lift_cur cur) st =
    match BinaryHeap.run script cur st with
    | (rs, (cur', st')) => (rs, (lift_cur cur', st'))
    end.
Proof.
  revert cur st. induction script as [|s script IH]; intros cur st; [reflexivity|].
  cbn [DHeap.run BinaryHeap.run]. rewrite run_stmt_same.
  destruct (BinaryHeap.run_stmt s cur st) as [r [cur1 st1]].
  rewrite IH. destruct (BinaryHeap.run script cur1 st1) as [rs [cur2 st2]].
  reflexivity.
Qed.

(** A sorted list is determined by its elements. *)
Lemma sorted_as_unique asc (a1 : list Z) :
  ∀ a2, sorted_as asc a1 → sorted_as asc a2 → a1 ≡ₚ a2 → a1 = a2.
Proof.
  induction a1 as [|x a1 IH]; intros a2 H1 H2 Hp.
  - now apply Permutation_nil_l in Hp.
  - destruct a2 as [|y a2]; [now apply Permutation_nil_r in Hp|].
    apply StronglySorted_inv in H1 as [H1 F1].
    apply StronglySorted_inv in H2 as [H2 F2].
    rewrite Forall_forall in F1, F2.
    assert (x = y) as ->.
    { assert (Hx : x ∈ y :: a2) by (rewrite <- Hp; left).
      assert (Hy : y ∈ x :: a1) by (rewrite Hp; left).
      apply elem_of_cons in Hx as [->|Hx]; [reflexivity|].
      apply elem_of_cons in Hy as [->|Hy]; [reflexivity|].
      specialize (F1 y Hy). specialize (F2 x Hx).
      unfold in_order in *. destruct asc; lia. }
    f_equal. apply IH; [assumption..|]. now apply Permutation_cons_inv in Hp.
Qed.

(** C3: for every list object, [heapsort] of either class returns and leaves
    in that very object the original elements (same multiset, same length)
    in ascending order when [ascending] is true and in descending order when
    it is false; no other list object of the caller is touched; and the list
    of [test_heapsort] ends as [[-1002; -15; 1; 5; 64; 64; 677; 12315]]. *)
Theorem heapsort_sorts (l : loc) (ascending : bool) (st : store) (a : list Z) :
  st !! l = Some a →
  (∃ a' st',
     DHeap.heapsort l ascending st = (Ok tt, st') ∧
     BinaryHeap.heapsort l ascending st = (Ok tt, st') ∧
     st' !! l = Some a' ∧
     a' ≡ₚ a ∧ length a' = length a ∧ sorted_as ascending a' ∧
     (∀ l', l' ≠ l → is_Some (st !! l') → st' !! l' = st !! l')) ∧
  (a = [1; 5; 64; 64; 12315; 677; -15; -1002] →
   ∃ st' st'',
     DHeap.heapsort l true st = (Ok tt, st') ∧
     st' !! l = Some [-1002; -15; 1; 5; 64; 64; 677; 12315] ∧
     DHeap.heapsort l false st = (Ok tt, st'') ∧
     st'' !! l = Some [12315; 677; 64; 64; 5; 1; -15; -1002]).
Proof.
  intros Hst.
  assert (Hgen : ∀ asc, ∃ a' st',
     DHeap.heapsort l asc st = (Ok tt, st') ∧
     BinaryHeap.heapsort l asc st = (Ok tt, st') ∧
     st' !! l = Some a' ∧
     a' ≡ₚ a ∧ length a' = length a ∧ sorted_as asc a' ∧
     (∀ l', l' ≠ l → is_Some (st !! l') → st' !! l' = st !! l')).
  { intros asc.
    destruct (heapsort_ok l asc st a Hst) as (a' & Hrun & Hperm & Hlen & Hsorted).
    exists a', (<[l := a']> (<[fresh (dom st) := []]> st)).
    split; [exact Hrun|]. split; [now rewrite <- heapsort_same|].
    split; [apply lookup_insert_eq|].
    split; [exact Hperm|]. split; [exact Hlen|]. split; [exact Hsorted|].
    intros l' Hne [b Hb]. rewrite lookup_insert_ne by (intros E; now apply Hne).
    apply lookup_insert_ne. intros E. rewrite <- E, fresh_not_in in Hb. discriminate. }
  split; [apply Hgen|].
  intros ->.
  destruct (Hgen true) as (a1 & st1 & Hrun1 & _ & Hl1 & Hp1 & _ & Hs1 & _).
  destruct (Hgen false) as (a2 & st2 & Hrun2 & _ & Hl2 & Hp2 & _ & Hs2 & _).
  exists st1, st2. split; [exact Hrun1|]. split; [|split; [exact Hrun2|]].
  - rewrite Hl1. f_equal. apply (sorted_as_unique true); [exact Hs1 | |].
    + repeat constructor; unfold in_order; lia.
    + rewrite Hp1. apply (bool_decide_unpack _). vm_compute. exact I.
  - rewrite Hl2. f_equal. apply (sorted_as_unique false); [exact Hs2 | |].
    + repeat constructor; unfold in_order; lia.
    + rewrite Hp2. apply (bool_decide_unpack _). vm_compute. exact I.
Qed.

Lemma heapsort_sorts_witness :
  sort_source !! 0%nat = Some [1; 5; 64; 64; 12315; 677; -15; -1002] ∧
  ∃ st',
    DHeap.heapsort 0%nat true sort_source = (Ok tt, st') ∧
    BinaryHeap.heapsort 0%nat true sort_source = (Ok tt, st') ∧
    st' !! 0%nat = Some [-1002; -15; 1; 5; 64; 64; 677; 12315].
Proof.
  split; [reflexivity|].
  destruct (heapsort_sorts 0%nat true sort_source [1; 5; 64; 64; 12315; 677; -15; -1002]
              eq_refl) as [(a' & st' & Hd & Hb & Hl & _) (st1 & _ & Hd1 & Hl1 & _)]; [reflexivity|].
  exists st'. split; [exact Hd|]. split; [exact Hb|].
  rewrite Hd in Hd1. injection Hd1 as <-. exact Hl1.
Defined.

(** C7: at each position that [__sift_down] visits (in [pop] and elsewhere),
    the position selected for the swap is the most extreme among the current
    node and its children in range; among equally extreme children the one
    with the lowest position is selected, every child to the left of the
    selected one being strictly less extreme; and the swap takes place only
    when the selected child strictly beats the current node: otherwise the
    selected position is the current node and [__sift_down] stops. *)
Theorem sift_down_selects (h : DHeap.t) (st : store) (a : list Z) (index : Z) :
  1 ≤ DHeap.branching_factor h →
  st !! DHeap.heap_array h = Some a →
  DHeap.last_index h < Z.of_nat (length a) →
  0 ≤ index →
  let bf := DHeap.branching_factor h in
  let mh := DHeap.max_heap h in
  let last := DHeap.last_index h in
  ∃ np,
    DHeap.scan_children index (Z.to_nat bf) 1 index (h, st) = (Ok np, (h, st)) ∧
    (np = index ∨ (child bf index np ∧ np ≤ last)) ∧
    at_least mh (item a np) (item a index) ∧
    (∀ c, child bf index c → c ≤ last → at_least mh (item a np) (item a c)) ∧
    (∀ c, child bf index c → c < np → beats mh (item a np) (item a c) = true) ∧
    (∀ c, child bf index c → c ≤ last → item a c = item a np → np ≠ index → np ≤ c) ∧
    (np ≠ index ↔ beats mh (item a np) (item a index) = true) ∧
    (∀ d, DHeap.sift_down_rec (S d) index (h, st) =
            if np =? index then (Ok tt, (h, st))
            else (DHeap.__swap index np ;; DHeap.sift_down_rec d np) (h, st)).
Proof.
  intros Hbf Hst Hlast Hidx bf mh last.
  assert (Hstep : ∀ np,
            DHeap.scan_children index (Z.to_nat bf) 1 index (h, st) = (Ok np, (h, st)) →
            ∀ d, DHeap.sift_down_rec (S d) index (h, st) =
                   if np =? index then (Ok tt, (h, st))
                   else (DHeap.__swap index np ;; DHeap.sift_down_rec d np) (h, st)).
  { intros np Hrun d. cbn [DHeap.sift_down_rec]. rewrite bind_attr. cbn [fst].
    fold bf. rewrite (bind_ok _ _ _ _ _ Hrun). now destruct (np =? index). }
  destruct (Z_le_gt_dec index last) as [Hin|Hout].
  - assert (Hir : in_range a index) by (unfold in_range; lia).
    destruct (scan_children_ok h st a index Hst Hbf ltac:(lia) Hlast
                (Z.to_nat bf) 1 index ltac:(lia) Hir ltac:(fold bf; nia))
      as (np & Hrun & Hnpr & Hm & Hbt & Hal & Hlm).
    rewrite Z2Nat.id in Hm, Hal, Hlm by (fold bf; lia).
    fold bf mh last in Hm, Hbt, Hal, Hlm.
    assert (Hkid : ∀ c, child bf index c → c = index * bf + (c - index * bf) ∧
                         1 ≤ c - index * bf < 1 + bf).
    { intros c Hc. unfold child in Hc. lia. }
    exists np. split; [exact Hrun|]. split.
    { destruct Hm as [->|(j & Hj & -> & Hjl)]; [now left|].
      right. split; [unfold child; lia | exact Hjl]. }
    split.
    { destruct (Z.eq_dec np index) as [->|Hne];
        [apply at_least_refl | apply beats_at_least, Hbt, Hne]. }
    split.
    { intros c Hc Hcl. destruct (Hkid c Hc) as [Hceq Hcr].
      rewrite Hceq. apply Hal; lia. }
    split.
    { intros c Hc Hcl. destruct (Hkid c Hc) as [Hceq Hcr].
      rewrite Hceq. apply Hlm; lia. }
    split.
    { intros c Hc Hcl Heq Hne.
      destruct (Z_lt_le_dec c np) as [Hlt|Hle]; [|exact Hle].
      destruct (Hkid c Hc) as [Hceq Hcr].
      specialize (Hlm (c - index * bf) Hcr ltac:(lia)).
      rewrite <- Hceq, Heq in Hlm. unfold beats in Hlm.
      destruct mh; bool_to_prop; lia. }
    split; [|now apply Hstep].
    split; [exact Hbt|]. intros Hb ->. unfold beats in Hb.
    destruct mh; bool_to_prop; lia.
  - (* no child is in range: the current node stays selected *)
    pose proof (scan_children_out h (h, st) index (Z.to_nat bf) 1 index
                  ltac:(fold bf last; nia) eq_refl) as Hrun.
    assert (Hkid : ∀ c, child bf index c → index < c)
      by (intros c Hc; now apply (child_gt bf Hbf)).
    exists index. split; [exact Hrun|]. split; [now left|].
    split; [apply at_least_refl|].
    split; [intros c Hc Hcl; specialize (Hkid c Hc); lia|].
    split; [intros c Hc Hcl; specialize (Hkid c Hc); lia|].
    split; [intros c Hc Hcl _ Hne; congruence|].
    split; [|now apply Hstep].
    split; [congruence|]. intros Hb. unfold beats in Hb.
    destruct mh; bool_to_prop; lia.
Qed.

Lemma sift_down_selects_witness :
  ∃ np,
    DHeap.scan_children 0 2 1 0 (tie_heap, tie_store) = (Ok np, (tie_heap, tie_store)) ∧
    np = 1 ∧
    (∀ d, DHeap.sift_down_rec (S d) 0 (tie_heap, tie_store) =
            (DHeap.__swap 0 1 ;; DHeap.sift_down_rec d 1) (tie_heap, tie_store)).
Proof.
  destruct (sift_down_selects tie_heap tie_store [1; 7; 7] 0)
    as (np & Hrun & _ & _ & _ & _ & _ & _ & Hstep);
    [cbn; lia | reflexivity | cbn; lia | cbn; lia |].
  assert (np = 1) as ->.
  { vm_compute in Hrun. now injection Hrun as <-. }
  exists 1. split; [exact Hrun|]. split; [reflexivity|]. exact Hstep.
Defined.

(** ** [validate_heap] *)

Section DHeapValidate.
Import DHeap.
Implicit Types (h : t) (st : store) (a : list Z) (s : t * store).

Lemma validate_loop_out rec fc parent s :
  ∀ cnt i, last_index s.1 < fc + i →
    validate_loop rec fc parent cnt i s = (Ok true, s).
Proof.
  induction cnt as [|cnt IH]; intros i Hi; [reflexivity|].
  cbn [validate_loop]. rewrite bind_attr.
  destruct (Z.leb_spec (fc + i) (last_index s.1)); [lia|]. apply IH. lia.
Qed.

Lemma validate_rec_step h st a parent d :
  1 ≤ branching_factor h →
  st !! heap_array h = Some a →
  last_index h < Z.of_nat (length a) →
  0 ≤ parent →
  validate_rec (S d) parent (h, st) =
    if parent * branching_factor h + 1 <=? last_index h
    then if beats (max_heap h) (item a (parent * branching_factor h + 1)) (item a parent)
         then (Ok false, (h, st))
         else validate_rec d (parent * branching_factor h + 1) (h, st)
    else (Ok true, (h, st)).
Proof.
  intros Hbf Hst Hlast Hp. cbn [validate_rec]. rewrite bind_attr. cbn [fst].
  destruct (Z.to_nat (branching_factor h)) as [|cnt] eqn:Hcnt; [lia|].
  cbn [validate_loop]. rewrite bind_attr. cbn [fst]. rewrite Z.add_0_r.
  destruct (Z.leb_spec (parent * branching_factor h + 1) (last_index h)) as [Hc|Hc].
  - rewrite (bind_ok _ _ _ _ _
               (compare_ok h st a (parent * branching_factor h + 1) parent Hst
                  ltac:(unfold in_range; nia) ltac:(unfold in_range; nia))).
    now destruct (beats _ _ _).
  - apply validate_loop_out. cbn. lia.
Qed.

Lemma validate_rec_first_path h st a a' :
  1 ≤ branching_factor h →
  st !! heap_array h = Some a →
  last_index h < Z.of_nat (length a) →
  length a' = length a →
  ∀ depth parent,
    0 ≤ parent →
    (∀ j, j ∈ first_path (branching_factor h) (last_index h) depth parent →
          item a' j = item a j) →
    (validate_rec depth parent (h, <[heap_array h := a']> st)).1 =
    (validate_rec depth parent (h, st)).1.
Proof.
  intros Hbf Hst Hlast Hlen. induction depth as [|d IH]; intros parent Hp Hagree;
    [reflexivity|].
  rewrite (validate_rec_step h st a parent d Hbf Hst Hlast Hp).
  rewrite (validate_rec_step h (<[heap_array h := a']> st) a' parent d Hbf
             (lookup_insert_eq _ _ _) ltac:(lia) Hp).
  cbn [first_path] in Hagree.
  destruct (Z.leb_spec (parent * branching_factor h + 1) (last_index h)) as [Hc|Hc];
    [|reflexivity].
  assert (Hhead : ∀ n q, q ∈ first_path (branching_factor h) (last_index h) n q).
  { intros [|n] q; left. }
  rewrite (Hagree parent) by left.
  rewrite (Hagree (parent * branching_factor h + 1)) by (right; apply Hhead).
  destruct (beats _ _ _); [reflexivity|].
  apply IH; [nia|]. intros j Hj. apply Hagree. now right.
Qed.

End DHeapValidate.

(** C6: [validate_heap] returns from inside its loop at the first child in
    range, which is the first child of [parent]: when that child is out of
    order the answer is [False], otherwise the answer is that of the
    recursive call on that one child, and the other children are never
    looked at.  So the answer depends only on the storage along the path of
    first children from [parent]; and there is a heap state that violates the
    heap property at a child that is not a first child for which
    [validate_heap(0)] returns [True]. *)
Theorem validate_heap_checks_one_path (h : DHeap.t) (st : store) (a : list Z)
    (parent : Z) :
  1 ≤ DHeap.branching_factor h →
  st !! DHeap.heap_array h = Some a →
  DHeap.last_index h < Z.of_nat (length a) →
  0 ≤ parent →
  let bf := DHeap.branching_factor h in
  let mh := DHeap.max_heap h in
  let last := DHeap.last_index h in
  (∀ d, DHeap.validate_rec (S d) parent (h, st) =
          if parent * bf + 1 <=? last
          then if beats mh (item a (parent * bf + 1)) (item a parent)
               then (Ok false, (h, st))
               else DHeap.validate_rec d (parent * bf + 1) (h, st)
          else (Ok true, (h, st))) ∧
  (∀ a', length a' = length a →
     (∀ j, j ∈ first_path bf last (Z.to_nat (last - parent) + 1) parent →
           item a' j = item a j) →
     (DHeap.validate_heap parent (h, <[DHeap.heap_array h := a']> st)).1 =
     (DHeap.validate_heap parent (h, st)).1) ∧
  (storage broken_heap broken_store = Some [5; 3; 9] ∧
   DHeap.validate_heap 0 (broken_heap, broken_store) = (Ok true, (broken_heap, broken_store)) ∧
   ¬ heap_property 2 true [5; 3; 9] 3 ∧
   ¬ at_least true (item [5; 3; 9] 0) (item [5; 3; 9] (0 * 2 + 1 + 1))).
Proof.
  intros Hbf Hst Hlast Hp bf mh last. split; [|split].
  - intros d. now apply validate_rec_step.
  - intros a' Hlen Hagree. unfold DHeap.validate_heap. rewrite !bind_attr. cbn [fst].
    now apply (validate_rec_first_path h st a a').
  - split; [reflexivity|]. split; [vm_compute; reflexivity|]. split.
    + intros H. destruct (H 0 1) as (x & y & Hx & Hy & Hxy); [lia..|].
      vm_compute in Hx, Hy. injection Hx as <-. injection Hy as <-.
      unfold at_least in Hxy. lia.
    + vm_compute. intros H. now apply H.
Qed.

Lemma validate_heap_checks_one_path_witness :
  (DHeap.validate_heap 0 (broken_heap, <[0%nat := [5; 3; 1000]]> broken_store)).1 =
  (DHeap.validate_heap 0 (broken_heap, broken_store)).1.
Proof.
  destruct (validate_heap_checks_one_path broken_heap broken_store [5; 3; 9] 0)
    as (_ & Hpath & _); [cbn; lia | reflexivity | cbn; lia | lia |].
  apply (Hpath [5; 3; 1000]); [reflexivity|].
  intros j Hj. vm_compute in Hj.
  apply elem_of_cons in Hj as [->|Hj]; [reflexivity|].
  apply elem_of_cons in Hj as [->|Hj]; [reflexivity|].
  now apply elem_of_nil in Hj.
Defined.

(** ** The constructor and the branching factor *)

(** Against C5 as stated: [DHeap(branching_factor=0)] returns a heap. *)
Lemma constructor_accepts_branching_factor_0 :
  DHeap.__init__ (Tuple []) true 0 ∅ = (Ok (DHeap.mk 0 true 0%nat (-1)), {[ 0%nat := [] ]}) ∧
  ¬ rejects_branching_factor_below_1.
Proof.
  assert (H : DHeap.__init__ (Tuple []) true 0 ∅ =
              (Ok (DHeap.mk 0 true 0%nat (-1)), {[ 0%nat := [] ]}))
    by (vm_compute; reflexivity).
  split; [exact H|].
  intros Hall. destruct (Hall (Tuple []) true 0 ∅ ltac:(lia)) as (e & st' & He).
  rewrite H in He. discriminate.
Qed.

Lemma push_zero_division (v : Z) (h : DHeap.t) (st : store) (a : list Z) :
  DHeap.branching_factor h = 0 →
  st !! DHeap.heap_array h = Some a →
  DHeap.push v (h, st) =
    (Raise ZeroDivisionError, (grown h, <[DHeap.heap_array h := a ++ [v]]> st)).
Proof.
  intros Hbf Hst. unfold DHeap.push.
  rewrite bind_set_self. cbn [fst snd]. fold (grown h).
  rewrite (bind_ok _ _ _ _ _ (append_ok (grown h) st a v Hst)).
  rewrite bind_attr. cbn [fst]. unfold DHeap.__sift_up.
  rewrite Nat.add_1_r. cbn [DHeap.sift_up_rec]. rewrite bind_attr.
  cbn [fst grown DHeap.with_last_index DHeap.branching_factor]. rewrite Hbf.
  reflexivity.
Qed.

(** C5, as the code has it: the constructor does not look at
    [branching_factor] and has no error for it.  Without initial contents it
    returns a heap for every branching factor, those below 1 included; with
    initial contents (a tuple or a list object) that are not empty and
    branching factor 0, what is raised is the [ZeroDivisionError] of the
    parent computation in the first [push], after the value was appended. *)
Theorem constructor_does_not_validate (mh : bool) (bf : Z) (st : store) :
  DHeap.__init__ (Tuple []) mh bf st =
    (Ok (DHeap.mk bf mh (fresh (dom st)) (-1)), <[fresh (dom st) := []]> st) ∧
  (∀ v vals,
     DHeap.__init__ (Tuple (v :: vals)) mh 0 st =
       (Raise ZeroDivisionError, <[fresh (dom st) := [v]]> st)) ∧
  (∀ src v vals,
     st !! src = Some (v :: vals) →
     DHeap.__init__ (ListRef src) mh 0 st =
       (Raise ZeroDivisionError, <[fresh (dom st) := [v]]> st)).
Proof.
  split; [reflexivity|]. split.
  - intros v vals. unfold DHeap.__init__. cbn [DHeap.push_all].
    erewrite bind_raise;
      [|apply push_zero_division; [reflexivity | apply lookup_insert_eq]].
    cbn [DHeap.heap_array]. now rewrite insert_insert_eq.
  - intros src v vals Hsrc. unfold DHeap.__init__.
    assert (Hsrc0 : (<[fresh (dom st) := []]> st) !! src = Some (v :: vals)).
    { rewrite lookup_insert_ne; [exact Hsrc|].
      intros E. rewrite <- E, fresh_not_in in Hsrc. discriminate. }
    cbv zeta. unfold bind at 1. unfold load at 1. cbn [snd]. rewrite Hsrc0.
    cbn [length DHeap.push_from].
    unfold bind at 1. unfold load at 1. cbn [snd]. rewrite Hsrc0.
    change ((v :: vals) !! 0%nat) with (Some v). cbv iota.
    erewrite bind_raise;
      [|apply push_zero_division; [reflexivity | apply lookup_insert_eq]].
    cbn [DHeap.heap_array]. now rewrite insert_insert_eq.
Qed.

Lemma constructor_does_not_validate_witness :
  construction_source !! 0%nat = Some [1; 1; 5; 10; -23; 105] ∧
  DHeap.__init__ (ListRef 0%nat) true 0 construction_source =
    (Raise ZeroDivisionError, <[1%nat := [1]]> construction_source).
Proof.
  split; [reflexivity|].
  destruct (constructor_does_not_validate true 0 construction_source) as (_ & _ & H).
  apply (H 0%nat 1 [1; 5; 10; -23; 105]). reflexivity.
Defined.

(** ** The constructor with initial contents *)

Section DHeapInit.
Import DHeap.
Implicit Types (st : store) (a b : list Z).

Lemma push_all_ok bf mh l :
  1 ≤ bf →
  ∀ vals li st b,
    st !! l = Some b →
    Z.of_nat (length b) = li + 1 →
    heap_from bf mh li b 0 →
    ∃ b',
      push_all vals (mk bf mh l li, st) =
        (Ok tt, (mk bf mh l (li + Z.of_nat (length vals)), <[l := b']> st)) ∧
      b' ≡ₚ b ++ vals ∧
      Z.of_nat (length b') = li + Z.of_nat (length vals) + 1 ∧
      heap_from bf mh (li + Z.of_nat (length vals)) b' 0.
Proof.
  intros Hbf. induction vals as [|v vals IH]; intros li st b Hst Hlen Hh.
  - exists b. cbn [push_all length]. unfold ret.
    rewrite Z.add_0_r, insert_id by exact Hst.
    split; [reflexivity|]. split; [now rewrite app_nil_r|]. split; [lia | exact Hh].
  - destruct (push_ok (mk bf mh l li) st b v Hbf Hst Hlen)
      as (b1 & Hrun1 & Hlen1 & Hperm1 & Hh1).
    cbn [branching_factor max_heap heap_array last_index] in *.
    destruct (IH (li + 1) (<[l := b1]> st) b1 (lookup_insert_eq _ _ _) ltac:(lia)
                (Hh1 Hh))
      as (b' & Hrun & Hperm & Hlen' & Hh').
    exists b'. cbn [push_all]. rewrite (bind_ok _ _ _ _ _ Hrun1).
    unfold grown, with_last_index. cbn [branching_factor max_heap heap_array last_index].
    rewrite Hrun, insert_insert_eq. cbn [length].
    replace (li + Z.of_nat (S (length vals))) with (li + 1 + Z.of_nat (length vals)) by lia.
    split; [reflexivity|].
    split; [|split; [lia | exact Hh']].
    rewrite Hperm, Hperm1. cbn. apply Permutation_middle.
Qed.

(** Reading the initial contents through the iterator of a list object
    other than the storage is walking through its elements. *)
Lemma push_from_push_all bf mh l src a :
  1 ≤ bf → src ≠ l →
  ∀ n pos li st b,
    st !! src = Some a →
    st !! l = Some b →
    Z.of_nat (length b) = li + 1 →
    (pos + n = length a)%nat →
    push_from src n pos (mk bf mh l li, st) =
    push_all (drop pos a) (mk bf mh l li, st).
Proof.
  intros Hbf Hne. induction n as [|n IH]; intros pos li st b Hsrc Hst Hlen Hpos.
  - rewrite drop_ge by lia. reflexivity.
  - cbn [push_from]. unfold bind at 1. unfold load at 1. cbn [snd]. rewrite Hsrc.
    destruct (a !! pos) as [v|] eqn:Hv.
    2:{ apply lookup_ge_None in Hv. lia. }
    rewrite (drop_S _ _ _ Hv). cbn [push_all].
    destruct (push_ok (mk bf mh l li) st b v Hbf Hst Hlen)
      as (b1 & Hrun1 & Hlen1 & _ & _).
    rewrite !(bind_ok _ _ _ _ _ Hrun1).
    unfold grown, with_last_index.
    cbn [branching_factor max_heap heap_array last_index] in Hlen1 |- *.
    apply (IH (S pos) (li + 1) _ b1).
    + rewrite lookup_insert_ne by (intros E; now apply Hne). exact Hsrc.
    + apply lookup_insert_eq.
    + lia.
    + lia.
Qed.

(** [push] touches no list object but the storage, whatever the branching
    factor and whether it returns or raises. *)
Lemma push_frame v h st r h' st' :
  is_Some (st !! heap_array h) →
  push v (h, st) = (r, (h', st')) →
  heap_array h' = heap_array h ∧
  is_Some (st' !! heap_array h) ∧
  (∀ l, l ≠ heap_array h → st' !! l = st !! l).
Proof.
  intros [b Hst] Hrun. unfold push in Hrun.
  rewrite bind_set_self in Hrun. cbn [fst snd] in Hrun. fold (grown h) in Hrun.
  rewrite (bind_ok _ _ _ _ _ (append_ok (grown h) st b v Hst)) in Hrun.
  rewrite bind_attr in Hrun. unfold __sift_up in Hrun.
  apply sift_up_rec_same_len in Hrun as (E & O & L). cbn in E, O, L. subst h'.
  split; [reflexivity|]. split.
  - destruct (L (b ++ [v]) (lookup_insert_eq _ _ _)) as (b' & Hb' & _). now exists b'.
  - intros l Hl. rewrite O by exact Hl. now apply lookup_insert_ne.
Qed.

Lemma push_all_frame vals :
  ∀ h st r h' st',
    is_Some (st !! heap_array h) →
    push_all vals (h, st) = (r, (h', st')) →
    ∀ l, l ≠ heap_array h → st' !! l = st !! l.
Proof.
  induction vals as [|v vals IH]; intros h st r h' st' Hst Hrun l Hl.
  - now injection Hrun as _ _ <-.
  - cbn [push_all] in Hrun.
    apply bind_inv in Hrun as [(u & [h1 st1] & H1 & H)|(e & H1 & _)].
    + destruct (push_frame v h st _ h1 st1 Hst H1) as (E & S1 & O).
      rewrite <- (O l Hl). eapply IH; [|exact H|]; now rewrite E.
    + destruct (push_frame v h st _ h' st' Hst H1) as (_ & _ & O). now apply O.
Qed.

Lemma push_from_frame src n :
  ∀ pos h st r h' st',
    is_Some (st !! heap_array h) →
    push_from src n pos (h, st) = (r, (h', st')) →
    ∀ l, l ≠ heap_array h → st' !! l = st !! l.
Proof.
  induction n as [|n IH]; intros pos h st r h' st' Hst Hrun l Hl.
  - now injection Hrun as _ _ <-.
  - cbn [push_from] in Hrun.
    apply bind_inv in Hrun as [(b & s1 & H1 & H)|(e & H1 & _)].
    + unfold load in H1. destruct ((h, st).2 !! src); [|discriminate].
      injection H1 as _ <-.
      destruct (b !! pos) as [v|]; [|now injection H as _ _ <-].
      apply bind_inv in H as [(u & [h1 st1] & H1 & H)|(e & H1 & _)].
      * destruct (push_frame v h st _ h1 st1 Hst H1) as (E & S1 & O).
        rewrite <- (O l Hl). eapply IH; [|exact H|]; now rewrite E.
      * destruct (push_frame v h st _ h' st' Hst H1) as (_ & _ & O). now apply O.
    + unfold load in H1. destruct ((h, st).2 !! src); [discriminate|].
      now injection H1 as _ _ <-.
Qed.

(** The constructor touches no list object of the caller, whatever the
    initial contents and the branching factor and whether it returns or
    raises. *)
Lemma init_frame ic mh bf st r st' :
  __init__ ic mh bf st = (r, st') →
  ∀ l, is_Some (st !! l) → st' !! l = st !! l.
Proof.
  unfold __init__. intros Hrun l [x Hx].
  set (l0 := fresh (dom st)) in *.
  assert (Hl : l ≠ l0).
  { intros ->. unfold l0 in Hx. rewrite fresh_not_in in Hx. discriminate. }
  assert (Hframe : ∀ r1 h1 st1,
            match ic with
            | Tuple vals => push_all vals
            | ListRef src => let* a := load src in push_from src (length a) 0
            end (mk bf mh l0 (-1), <[l0 := []]> st) = (r1, (h1, st1)) →
            st1 !! l = st !! l).
  { intros r1 h1 st1 Hfill.
    rewrite <- (lookup_insert_ne st l0 l []) by (intros E; now apply Hl).
    destruct ic as [vals|src].
    - eapply (push_all_frame vals); [|exact Hfill|exact Hl].
      cbn. rewrite lookup_insert_eq. now eexists.
    - apply bind_inv in Hfill as [(b & s1 & H1 & H)|(e & H1 & _)].
      + unfold load in H1. destruct (_ !! src); [|discriminate].
        injection H1 as _ <-.
        eapply (push_from_frame src); [|exact H|exact Hl].
        cbn. rewrite lookup_insert_eq. now eexists.
      + unfold load in H1. destruct (_ !! src); [discriminate|].
        now injection H1 as _ _ <-. }
  destruct (_ (mk bf mh l0 (-1), <[l0 := []]> st)) as [[u|e] [h1 st1]];
    injection Hrun as _ <-; eapply Hframe; reflexivity.
Qed.

End DHeapInit.

(** C9: the constructor with initial contents allocates a new, empty list
    object for the heap and pushes the elements of the caller's sequence one
    at a time.  It never mutates the caller's sequence: whatever the outcome,
    that list object (like every other object of the caller) is afterwards
    what it was before.  With a branching factor of at least 1 the
    construction returns, the storage of the heap is another object, and the
    heap is a valid heap over the same multiset. *)
Theorem constructor_copies (src : loc) (mh : bool) (bf : Z) (st : store)
    (a : list Z) :
  st !! src = Some a →
  (∀ r st', DHeap.__init__ (ListRef src) mh bf st = (r, st') →
     st' !! src = Some a ∧ (∀ l, is_Some (st !! l) → st' !! l = st !! l)) ∧
  (1 ≤ bf →
   ∃ h st' b,
     DHeap.__init__ (ListRef src) mh bf st = (Ok h, st') ∧
     DHeap.push_all a
       (DHeap.mk bf mh (fresh (dom st)) (-1), <[fresh (dom st) := []]> st) =
       (Ok tt, (h, st')) ∧
     DHeap.heap_array h ≠ src ∧
     storage h st' = Some b ∧
     b ≡ₚ a ∧
     size h = Z.of_nat (length a) ∧
     heap_property bf mh b (size h)).
Proof.
  intros Hsrc. split.
  { intros r st' Hrun. split.
    - transitivity (st !! src); [|exact Hsrc].
      apply (init_frame _ _ _ _ _ _ Hrun). now exists a.
    - eapply init_frame; exact Hrun. }
  intros Hbf.
  set (l := fresh (dom st)).
  assert (Hl : src ≠ l).
  { intros ->. unfold l in Hsrc. rewrite fresh_not_in in Hsrc. discriminate. }
  set (st0 := <[l := []]> st).
  assert (Hsrc0 : st0 !! src = Some a).
  { unfold st0. rewrite lookup_insert_ne by (intros E; now apply Hl). exact Hsrc. }
  destruct (push_all_ok bf mh l Hbf a (-1) st0 [])
    as (b & Hrun & Hperm & Hlen & Hh).
  { apply lookup_insert_eq. }
  { reflexivity. }
  { intros p c Hp Hc Hcl. pose proof (child_gt _ Hbf p c Hp Hc). lia. }
  exists (DHeap.mk bf mh l (-1 + Z.of_nat (length a))), (<[l := b]> st0), b.
  split; [|split; [exact Hrun|]].
  - unfold DHeap.__init__. fold l. fold st0.
    unfold bind at 1. unfold load at 1. cbn [snd]. rewrite Hsrc0.
    rewrite (push_from_push_all bf mh l src a Hbf Hl (length a) 0 (-1) st0 []
               Hsrc0 (lookup_insert_eq _ _ _) eq_refl eq_refl).
    rewrite drop_0, Hrun. reflexivity.
  - split; [cbn; intros E; now apply Hl|].
    split; [apply lookup_insert_eq|].
    split; [exact Hperm|].
    split; [unfold size; cbn; lia|].
    apply heap_from_property; [unfold size; cbn; lia|].
    intros _. unfold size. cbn.
    now replace (-1 + Z.of_nat (length a) + 1 - 1) with (-1 + Z.of_nat (length a)) by lia.
Qed.

Lemma constructor_copies_witness :
  construction_source !! 0%nat = Some [1; 1; 5; 10; -23; 105] ∧
  ∃ h st' b,
    DHeap.__init__ (ListRef 0%nat) true 2 construction_source = (Ok h, st') ∧
    st' !! 0%nat = Some [1; 1; 5; 10; -23; 105] ∧
    storage h st' = Some b ∧ b ≡ₚ [1; 1; 5; 10; -23; 105] ∧
    heap_property 2 true b (size h).
Proof.
  split; [reflexivity|].
  destruct (constructor_copies 0%nat true 2 construction_source
              [1; 1; 5; 10; -23; 105] eq_refl)
    as (Hframe & Hok).
  destruct (Hok ltac:(lia)) as (h & st' & b & Hrun & _ & _ & Hb & Hperm & _ & Hheap).
  exists h, st', b. split; [exact Hrun|].
  split; [exact (proj1 (Hframe _ _ Hrun))|].
  split; [exact Hb|]. split; [exact Hperm | exact Hheap].
Defined.


(** ** The unit tests of [d_heap.py] and [binaryheap.py], run on the model *)

Example test_binary_heap_construction :
  DHeap.run 2 [Construct (ListRef 0%nat) true; Call (ValidateHeap 0)] None
    construction_source =
  ([Ok VNone; Ok (VBool true)],
   (Some (DHeap.mk 2 true 1%nat 5),
    <[1%nat := [105; 5; 10; 1; -23; 1]]> construction_source)).
Proof. vm_compute. reflexivity. Qed.

Example test_ternary_heap_construction :
  (DHeap.run 3
     [Construct (Tuple [1; 1; 5; 10; -23; 105; 1200412; -2352; 0; 0; 101; 45; -2]) true;
      Call (ValidateHeap 0); Call Len] None ∅).1 =
  [Ok VNone; Ok (VBool true); Ok (VInt 13)].
Proof. vm_compute. reflexivity. Qed.

Example test_heapify :
  (DHeap.run 2 [Heapify 0%nat true; Call (ValidateHeap 0)] None
     {[ 0%nat := [1; 0; 5; 103; -23; -2213415] ]}).1 =
  [Ok VNone; Ok (VBool true)].
Proof. vm_compute. reflexivity. Qed.

Example test_push :
  (DHeap.run 2
     [Construct (Tuple []) true;
      Call (Push 1); Call (ValidateHeap 0);
      Call (Push 0); Call (ValidateHeap 0);
      Call (Push (-1)); Call (Push 10); Call (Push 100); Call (Push (-1));
      Call (Push (-5)); Call (ValidateHeap 0)] None ∅).1 =
  [Ok VNone;
   Ok VNone; Ok (VBool true);
   Ok VNone; Ok (VBool true);
   Ok VNone; Ok VNone; Ok VNone; Ok VNone;
   Ok VNone; Ok (VBool true)].
Proof. vm_compute. reflexivity. Qed.

Example test_peek :
  (DHeap.run 2
     [Construct (Tuple [1; 1; 5; 10; -23; 105]) true; Call (ValidateHeap 0);
      Call Peek; Call (Push 1000); Call Peek] None ∅).1 =
  [Ok VNone; Ok (VBool true); Ok (VInt 105); Ok VNone; Ok (VInt 1000)].
Proof. vm_compute. reflexivity. Qed.

Example test_pop :
  (DHeap.run 2
     [Construct (Tuple [-10; 0; 5; -2; 5; 1024; -999]) true; Call (ValidateHeap 0);
      Call Pop; Call (ValidateHeap 0);
      Call Pop; Call Pop; Call Pop; Call Pop; Call Pop; Call Pop;
      Call (ValidateHeap 0); Call Pop; Call Peek; Call Len] None ∅).1 =
  [Ok VNone; Ok (VBool true);
   Ok (VInt 1024); Ok (VBool true);
   Ok (VInt 5); Ok (VInt 5); Ok (VInt 0); Ok (VInt (-2)); Ok (VInt (-10));
   Ok (VInt (-999));
   Ok (VBool true); Raise IndexError; Raise IndexError; Ok (VInt 0)].
Proof. vm_compute. reflexivity. Qed.

Example test_min_heap :
  (DHeap.run 2
     [Construct (Tuple [-10; 0; 5; -2; 5; 1024; -999]) true; Call (ValidateHeap 0);
      Call (Push 12); Call (ValidateHeap 0); Call Pop] None ∅).1 =
  [Ok VNone; Ok (VBool true); Ok VNone; Ok (VBool true); Ok (VInt 1024)].
Proof. vm_compute. reflexivity. Qed.

Example test_binaryheap_pop :
  (BinaryHeap.run
     [Construct (Tuple [-10; 0; 5; -2; 5; 1024; -999]) true; Call (ValidateHeap 0);
      Call Pop; Call (ValidateHeap 0);
      Call Pop; Call Pop; Call Pop; Call Pop; Call Pop; Call Pop;
      Call (ValidateHeap 0)] None ∅).1 =
  [Ok VNone; Ok (VBool true);
   Ok (VInt 1024); Ok (VBool true);
   Ok (VInt 5); Ok (VInt 5); Ok (VInt 0); Ok (VInt (-2)); Ok (VInt (-10));
   Ok (VInt (-999));
   Ok (VBool true)].
Proof. vm_compute. reflexivity. Qed.

Example test_binaryheap_heapsort :
  BinaryHeap.heapsort 0%nat true sort_source =
  (Ok tt, <[1%nat := []]> (<[0%nat := [-1002; -15; 1; 5; 64; 64; 677; 12315]]> sort_source)).
Proof. vm_compute. reflexivity. Qed.

(** A min heap gives its elements back in ascending order. *)
Example min_heap_pops :
  (DHeap.run 2
     [Construct (Tuple [-10; 0; 5; -2; 5; 1024; -999]) false; Call (ValidateHeap 0);
      Call Pop; Call Pop; Call Pop] None ∅).1 =
  [Ok VNone; Ok (VBool true); Ok (VInt (-999)); Ok (VInt (-10)); Ok (VInt (-2))].
Proof. vm_compute. reflexivity. Qed.

(** * Further properties of the two classes *)

(** ** [__swap] *)

Lemma norm_index_Some len i n :
  norm_index len i = Some n → subscript_ok len i ∧ (n < len)%nat.
Proof.
  unfold norm_index, subscript_ok.
  destruct (Z.leb_spec 0 i), (Z.ltb_spec i (Z.of_nat len)); cbn;
    try (intros [= <-]; lia);
    destruct (Z.ltb_spec i 0), (Z.leb_spec (- Z.of_nat len) i); cbn;
    (discriminate || (intros [= <-]; lia)).
Qed.

Lemma norm_index_None len i : norm_index len i = None → ¬ subscript_ok len i.
Proof.
  unfold norm_index, subscript_ok.
  destruct (Z.leb_spec 0 i), (Z.ltb_spec i (Z.of_nat len)); cbn;
    try discriminate;
    destruct (Z.ltb_spec i 0), (Z.leb_spec (- Z.of_nat len) i); cbn;
    (discriminate || (intros _; lia)).
Qed.

(** The two outcomes of [__swap]: it raises and has changed nothing, or it
    returns and has exchanged two elements of the storage. *)
Lemma swap_cases i j (s : DHeap.t * store) :
  (∃ e, DHeap.__swap i j s = (Raise e, s) ∧
        ∀ a, s.2 !! DHeap.heap_array s.1 = Some a →
             e = IndexError ∧
             ¬ (subscript_ok (length a) i ∧ subscript_ok (length a) j)) ∨
  (∃ a n1 n2 x1 x2,
     s.2 !! DHeap.heap_array s.1 = Some a ∧
     norm_index (length a) i = Some n1 ∧ norm_index (length a) j = Some n2 ∧
     a !! n1 = Some x1 ∧ a !! n2 = Some x2 ∧
     DHeap.__swap i j s =
       (Ok tt, (s.1, <[DHeap.heap_array s.1 := <[n2 := x1]> (<[n1 := x2]> a)]> s.2))).
Proof.
  destruct s as [h st].
  unfold DHeap.__swap, DHeap.getitem, DHeap.setitem, bind, attr, load, lift,
    store_list, list_getitem, list_setitem. cbn [fst snd].
  destruct (st !! DHeap.heap_array h) as [a|] eqn:Hst.
  2:{ left. exists Dangling. split; [reflexivity|]. intros a [=]. }
  destruct (norm_index (length a) j) as [n2|] eqn:Hj.
  2:{ left. exists IndexError. split; [reflexivity|]. intros a0 [= <-].
      split; [reflexivity|]. intros [_ H]. now apply norm_index_None in Hj. }
  destruct (norm_index_Some _ _ _ Hj) as [Hjo Hn2].
  destruct (a !! n2) as [x2|] eqn:Hx2.
  2:{ apply lookup_ge_None in Hx2. lia. }
  cbn [fst snd]. rewrite Hst.
  destruct (norm_index (length a) i) as [n1|] eqn:Hi.
  2:{ left. exists IndexError. split; [reflexivity|]. intros a0 [= <-].
      split; [reflexivity|]. intros [H _]. now apply norm_index_None in Hi. }
  destruct (norm_index_Some _ _ _ Hi) as [Hio Hn1].
  destruct (a !! n1) as [x1|] eqn:Hx1.
  2:{ apply lookup_ge_None in Hx1. lia. }
  cbn [fst snd]. rewrite Hst, Hi. cbn [fst snd].
  rewrite lookup_insert_eq, length_insert, Hj. cbn [fst snd].
  rewrite insert_insert_eq.
  right. exists a, n1, n2, x1, x2.
  repeat (split; [assumption || reflexivity|]). reflexivity.
Qed.

Lemma swap_same_elements i j s r s' :
  DHeap.__swap i j s = (r, s') → same_elements s s'.
Proof.
  intros H.
  destruct (swap_cases i j s) as [(e & He & _)|(a & n1 & n2 & x1 & x2 & Ha & _ & _ & H1 & H2 & Hok)].
  - rewrite He in H. injection H as _ <-.
    split; [reflexivity|]. split; [reflexivity|]. intros a Ha. now exists a.
  - rewrite Hok in H. injection H as _ <-. cbn.
    split; [reflexivity|]. split.
    + intros l Hl. now apply lookup_insert_ne.
    + intros a0 Ha0. rewrite Ha in Ha0. injection Ha0 as <-.
      eexists. split; [apply lookup_insert_eq|].
      now apply Permutation_insert_swap.
Qed.

Lemma swap_back (a : list Z) n1 n2 x1 x2 :
  a !! n1 = Some x1 → a !! n2 = Some x2 →
  <[n2 := x2]> (<[n1 := x1]> (<[n2 := x1]> (<[n1 := x2]> a))) = a.
Proof.
  intros H1 H2.
  pose proof (lookup_lt_Some _ _ _ H1) as L1.
  pose proof (lookup_lt_Some _ _ _ H2) as L2.
  apply list_eq. intros k.
  destruct (decide (k = n2)) as [->|Hk2].
  { rewrite list_lookup_insert_eq by (rewrite !length_insert; lia). now rewrite H2. }
  rewrite list_lookup_insert_ne by congruence.
  destruct (decide (k = n1)) as [->|Hk1].
  { rewrite list_lookup_insert_eq by (rewrite !length_insert; lia). now rewrite H1. }
  now rewrite !list_lookup_insert_ne by congruence.
Qed.

(** X1: [__swap] is all or nothing.  With two subscripts that the storage
    accepts (negative ones count from the end) it returns, the storage is
    the old one with the two elements exchanged, hence the same multiset and
    length, and a second [__swap] of the same positions gives the old storage
    back.  With a subscript out of range it raises [IndexError] and nothing
    has changed: both elements are read before either is written. *)
Theorem swap_all_or_nothing (i j : Z) (h : DHeap.t) (st : store) (a : list Z) :
  st !! DHeap.heap_array h = Some a →
  (subscript_ok (length a) i ∧ subscript_ok (length a) j →
   ∃ n1 n2 x1 x2 a',
     norm_index (length a) i = Some n1 ∧ norm_index (length a) j = Some n2 ∧
     a !! n1 = Some x1 ∧ a !! n2 = Some x2 ∧
     a' = <[n2 := x1]> (<[n1 := x2]> a) ∧
     DHeap.__swap i j (h, st) = (Ok tt, (h, <[DHeap.heap_array h := a']> st)) ∧
     a' ≡ₚ a ∧ length a' = length a ∧
     (DHeap.__swap i j ;; DHeap.__swap i j) (h, st) =
       (Ok tt, (h, <[DHeap.heap_array h := a]> st))) ∧
  (¬ (subscript_ok (length a) i ∧ subscript_ok (length a) j) →
   DHeap.__swap i j (h, st) = (Raise IndexError, (h, st))).
Proof.
  intros Hst.
  destruct (swap_cases i j (h, st))
    as [(e & He & Hwhy)|(a0 & n1 & n2 & x1 & x2 & Ha & Hi & Hj & H1 & H2 & Hok)];
    cbn [fst snd] in *.
  - destruct (Hwhy a Hst) as [-> Hnot]. split; [intros H; now destruct Hnot|].
    intros _. exact He.
  - rewrite Hst in Ha. injection Ha as <-. split.
    2:{ intros Hnot. destruct Hnot.
        split; [apply (norm_index_Some _ _ _ Hi) | apply (norm_index_Some _ _ _ Hj)]. }
    intros _. exists n1, n2, x1, x2, (<[n2 := x1]> (<[n1 := x2]> a)).
    pose proof (lookup_lt_Some _ _ _ H1) as L1.
    pose proof (lookup_lt_Some _ _ _ H2) as L2.
    repeat (split; [assumption || reflexivity|]).
    split; [now apply Permutation_insert_swap|].
    split; [now rewrite !length_insert|].
    rewrite (bind_ok _ _ _ _ _ Hok).
    set (a' := <[n2 := x1]> (<[n1 := x2]> a)).
    destruct (swap_cases i j (h, <[DHeap.heap_array h := a']> st))
      as [(e & He & Hwhy)|(b & m1 & m2 & y1 & y2 & Hb & Hi' & Hj' & G1 & G2 & Hok')];
      cbn [fst snd] in *.
    + destruct (Hwhy a' (lookup_insert_eq _ _ _)) as [_ Hnot]. destruct Hnot.
      unfold a'. rewrite !length_insert.
      split; [apply (norm_index_Some _ _ _ Hi) | apply (norm_index_Some _ _ _ Hj)].
    + rewrite lookup_insert_eq in Hb. injection Hb as <-.
      unfold a' in Hi', Hj'. rewrite !length_insert in Hi', Hj'.
      rewrite Hi in Hi'. rewrite Hj in Hj'. injection Hi' as <-. injection Hj' as <-.
      rewrite Hok', insert_insert_eq. do 3 f_equal.
      assert (y2 = x1) as ->.
      { unfold a' in G2. rewrite list_lookup_insert_eq in G2
          by (rewrite length_insert; lia). congruence. }
      assert (y1 = x2) as ->.
      { unfold a' in G1. destruct (decide (n1 = n2)) as [->|Hne].
        - rewrite list_lookup_insert_eq in G1 by (rewrite length_insert; lia).
          congruence.
        - rewrite list_lookup_insert_ne in G1 by congruence.
          rewrite list_lookup_insert_eq in G1 by lia. congruence. }
      unfold a'. now apply swap_back.
Qed.

Lemma swap_all_or_nothing_witness :
  tie_store !! 0%nat = Some [1; 7; 7] ∧
  (DHeap.__swap 0 (-1) ;; DHeap.__swap 0 (-1)) (tie_heap, tie_store) =
    (Ok tt, (tie_heap, <[0%nat := [1; 7; 7]]> tie_store)) ∧
  DHeap.__swap 0 3 (tie_heap, tie_store) = (Raise IndexError, (tie_heap, tie_store)).
Proof.
  split; [reflexivity|].
  destruct (swap_all_or_nothing 0 (-1) tie_heap tie_store [1; 7; 7] eq_refl) as [Hok _].
  destruct (swap_all_or_nothing 0 3 tie_heap tie_store [1; 7; 7] eq_refl) as [_ Hfail].
  split.
  - destruct Hok as (n1 & n2 & x1 & x2 & a' & _ & _ & _ & _ & _ & _ & _ & _ & Hback).
    + unfold subscript_ok. cbn. lia.
    + exact Hback.
  - apply Hfail. unfold subscript_ok. cbn. lia.
Defined.

(** ** [push] and [__sift_up], whatever the branching factor *)

Lemma same_elements_refl s : same_elements s s.
Proof. split; [reflexivity|]. split; [reflexivity|]. intros a Ha. now exists a. Qed.

Lemma same_elements_trans s1 s2 s3 :
  same_elements s1 s2 → same_elements s2 s3 → same_elements s1 s3.
Proof.
  intros (E1 & O1 & L1) (E2 & O2 & L2). rewrite E1 in E2, O2, L2.
  split; [exact E2|]. split.
  - intros l Hl. now rewrite O2, O1.
  - intros a Ha. destruct (L1 a Ha) as (a' & Ha' & Hp).
    destruct (L2 a' Ha') as (a'' & Ha'' & Hp'). exists a''. split; [exact Ha''|].
    now rewrite Hp'.
Qed.

Lemma sift_up_rec_same_elements depth :
  ∀ index s r s', DHeap.sift_up_rec depth index s = (r, s') → same_elements s s'.
Proof.
  induction depth as [|d IH]; intros index s r s' H.
  { injection H as _ <-. apply same_elements_refl. }
  cbn [DHeap.sift_up_rec] in H. rewrite bind_attr in H.
  apply bind_inv in H as [(p0 & s1 & H1 & H)|(e & H1 & _)];
    [|unfold lift in H1; injection H1 as _ <-; apply same_elements_refl].
  unfold lift in H1. injection H1 as _ <-.
  apply bind_inv in H as [(c & s2 & H2 & H)|(e & H2 & _)].
  - assert (s2 = s) as ->.
    { destruct (0 <=? p0); [now apply compare_pure in H2 | now injection H2 as _ <-]. }
    destruct c; [|injection H as _ <-; apply same_elements_refl].
    apply bind_inv in H as [(u & s3 & H3 & H)|(e & H3 & _)];
      [|now apply swap_same_elements in H3].
    apply swap_same_elements in H3. apply IH in H.
    eapply same_elements_trans; eassumption.
  - assert (s' = s) as ->; [|apply same_elements_refl].
    destruct (0 <=? p0); [now apply compare_pure in H2 | now injection H2 as _ <-].
Qed.

(** X2: whatever the branching factor and whether it returns or raises,
    [push] leaves the heap one element larger: [last_index] is one more, the
    storage holds the old elements and the pushed value, and no other list
    object is touched.  In particular a [push] that raises has still added
    its value: with branching factor 0 it raises [ZeroDivisionError] with the
    value appended at the end.  With a branching factor of at least 1 and a
    storage as long as the size it returns. *)
Theorem push_adds_whatever_happens (v : Z) (h : DHeap.t) (st : store)
    (a : list Z) (r : result unit) (h' : DHeap.t) (st' : store) :
  st !! DHeap.heap_array h = Some a →
  DHeap.push v (h, st) = (r, (h', st')) →
  h' = grown h ∧
  (∀ l, l ≠ DHeap.heap_array h → st' !! l = st !! l) ∧
  (∃ a', st' !! DHeap.heap_array h = Some a' ∧ a' ≡ₚ a ++ [v] ∧
         (DHeap.branching_factor h = 0 →
          r = Raise ZeroDivisionError ∧ a' = a ++ [v])) ∧
  (1 ≤ DHeap.branching_factor h →
   Z.of_nat (length a) = DHeap.last_index h + 1 → r = Ok tt).
Proof.
  intros Hst Hrun.
  assert (Hsift : DHeap.__sift_up (DHeap.last_index h + 1)
                    (grown h, <[DHeap.heap_array h := a ++ [v]]> st) = (r, (h', st'))).
  { unfold DHeap.push in Hrun. rewrite bind_set_self in Hrun.
    cbn [fst snd] in Hrun. fold (grown h) in Hrun.
    rewrite (bind_ok _ _ _ _ _ (append_ok (grown h) st a v Hst)) in Hrun.
    rewrite bind_attr in Hrun. exact Hrun. }
  unfold DHeap.__sift_up in Hsift.
  destruct (sift_up_rec_same_elements _ _ _ _ _ Hsift) as (E & O & L).
  cbn in E, O, L. subst h'.
  split; [reflexivity|]. split.
  { intros l Hl. rewrite O by exact Hl. now apply lookup_insert_ne. }
  destruct (L (a ++ [v]) (lookup_insert_eq _ _ _)) as (a' & Ha' & Hperm).
  split.
  - exists a'. split; [exact Ha'|]. split; [exact Hperm|].
    intros Hbf. rewrite (push_zero_division v h st a Hbf Hst) in Hrun.
    injection Hrun as <- <-. rewrite lookup_insert_eq in Ha'.
    split; [reflexivity | congruence].
  - intros Hbf Hlen.
    destruct (push_ok h st a v Hbf Hst Hlen) as (b & Hrun' & _).
    rewrite Hrun' in Hrun. now injection Hrun as <- _.
Qed.

Lemma push_adds_whatever_happens_witness :
  empty_store !! 0%nat = Some [] ∧
  DHeap.push 7 (DHeap.mk 0 true 0%nat (-1), empty_store) =
    (Raise ZeroDivisionError, (DHeap.mk 0 true 0%nat 0, <[0%nat := [7]]> empty_store)) ∧
  ∃ a', <[0%nat := [7]]> empty_store !! 0%nat = Some a' ∧ a' ≡ₚ [] ++ [7].
Proof.
  assert (Hrun : DHeap.push 7 (DHeap.mk 0 true 0%nat (-1), empty_store) =
                 (Raise ZeroDivisionError,
                  (DHeap.mk 0 true 0%nat 0, <[0%nat := [7]]> empty_store)))
    by (vm_compute; reflexivity).
  split; [reflexivity|]. split; [exact Hrun|].
  destruct (push_adds_whatever_happens 7 (DHeap.mk 0 true 0%nat (-1)) empty_store []
              _ _ _ eq_refl Hrun)
    as (_ & _ & (a' & Ha' & Hperm & _) & _).
  now exists a'.
Defined.

(** ** [peek], [push] and [__len__] on the heaps a caller can hold *)

(** X3: on a non-empty heap [peek] returns the element at the root without
    changing anything, and it is the element that the next [pop] returns;
    with a branching factor of at least 1 it is the most extreme element
    stored. *)
Theorem peek_is_next_pop (h : DHeap.t) (st : store) :
  reachable h st → 0 < size h →
  ∃ x a,
    storage h st = Some a ∧ a !! 0%nat = Some x ∧
    DHeap.peek (h, st) = (Ok x, (h, st)) ∧
    (DHeap.peek ;; DHeap.peek) (h, st) = (Ok x, (h, st)) ∧
    (∃ s', DHeap.pop (h, st) = (Ok x, s')) ∧
    (1 ≤ DHeap.branching_factor h → ∀ y, y ∈ a → at_least (DHeap.max_heap h) x y).
Proof.
  intros Hr Hne. apply reachable_valid in Hr as (a & Hst & Hlen & Hh).
  unfold size in Hne.
  pose proof (peek_ok h st a Hst ltac:(lia)) as Hpeek.
  destruct (pop_ok h st a Hst Hlen ltac:(lia)) as (a' & Hpop & _).
  exists (item a 0), a. split; [exact Hst|].
  split; [apply (lookup_item a 0); unfold in_range; lia|].
  split; [exact Hpeek|]. split; [now rewrite (bind_ok _ _ _ _ _ Hpeek)|].
  split; [eexists; exact Hpop|].
  intros Hbf. apply (root_extreme _ _ _ Hbf).
  replace (Z.of_nat (length a) - 1) with (DHeap.last_index h) by lia. now apply Hh.
Qed.

Lemma peek_is_next_pop_witness :
  (reachable pop_heap pop_store ∧ 0 < size pop_heap) ∧
  ∃ x a,
    storage pop_heap pop_store = Some a ∧ a !! 0%nat = Some x ∧
    DHeap.peek (pop_heap, pop_store) = (Ok x, (pop_heap, pop_store)) ∧
    (∃ s', DHeap.pop (pop_heap, pop_store) = (Ok x, s')).
Proof.
  split; [split; [apply pop_heap_reachable | vm_compute; reflexivity]|].
  destruct (peek_is_next_pop pop_heap pop_store pop_heap_reachable ltac:(vm_compute; reflexivity))
    as (x & a & Ha & Hx & Hpeek & _ & Hpop & _).
  exists x, a. repeat split; assumption.
Defined.

Lemma more_extreme_root mh (v r x : Z) (a : list Z) :
  r ∈ a → (∀ y, y ∈ a → at_least mh r y) →
  x ∈ v :: a → (∀ y, y ∈ v :: a → at_least mh x y) →
  x = more_extreme mh v r.
Proof.
  intros Hr Hrmax Hx Hxmax. unfold more_extreme.
  assert (Hxv : at_least mh x v) by (apply Hxmax; left).
  assert (Hxr : at_least mh x r) by (apply Hxmax; now right).
  apply elem_of_cons in Hx as [->|Hx].
  - destruct (beats mh v r) eqn:Hb; [reflexivity|]. order mh.
  - specialize (Hrmax x Hx). destruct (beats mh v r) eqn:Hb; order mh.
Qed.

(** X4: after [push(v)] on a heap with a branching factor of at least 1,
    [peek] returns [v] when the heap was empty and otherwise the more extreme
    of [v] and the old root: the greater for a max heap, the smaller for a
    min heap. *)
Theorem push_then_peek (v : Z) (h : DHeap.t) (st : store) :
  reachable h st → 1 ≤ DHeap.branching_factor h →
  ∃ x s',
    (DHeap.push v ;; DHeap.peek) (h, st) = (Ok x, s') ∧
    ((size h = 0 ∧ x = v) ∨
     (∃ root, DHeap.peek (h, st) = (Ok root, (h, st)) ∧
              x = more_extreme (DHeap.max_heap h) v root)).
Proof.
  intros Hr Hbf. apply reachable_valid in Hr as (a & Hst & Hlen & Hh).
  specialize (Hh Hbf).
  destruct (push_ok h st a v Hbf Hst Hlen) as (a' & Hrun & Hlen' & Hperm & Hh').
  specialize (Hh' Hh).
  pose proof (peek_ok (grown h) (<[DHeap.heap_array h := a']> st) a'
                (lookup_insert_eq _ _ _) ltac:(lia)) as Hpeek'.
  exists (item a' 0), (grown h, <[DHeap.heap_array h := a']> st).
  split; [now rewrite (bind_ok _ _ _ _ _ Hrun)|].
  assert (Hx : item a' 0 ∈ v :: a).
  { rewrite <- Hperm. apply list_elem_of_lookup. exists 0%nat.
    apply (lookup_item a' 0). unfold in_range. lia. }
  assert (Hxmax : ∀ y, y ∈ v :: a → at_least (DHeap.max_heap h) (item a' 0) y).
  { intros y Hy. apply (root_extreme _ _ _ Hbf).
    - now replace (Z.of_nat (length a') - 1) with (DHeap.last_index h + 1) by lia.
    - now rewrite Hperm. }
  destruct a as [|r0 a0] eqn:Ea.
  - left. split; [unfold size; cbn in Hlen; lia|].
    apply elem_of_cons in Hx as [->|Hx]; [reflexivity | now apply elem_of_nil in Hx].
  - right. rewrite <- Ea in *. exists (item a 0).
    split; [apply (peek_ok h st a Hst); rewrite Ea; cbn; lia|].
    apply (more_extreme_root _ _ _ _ a); try assumption.
    + apply list_elem_of_lookup. exists 0%nat. apply (lookup_item a 0).
      unfold in_range. rewrite Ea. cbn. lia.
    + apply (root_extreme _ _ _ Hbf).
      now replace (Z.of_nat (length a) - 1) with (DHeap.last_index h) by lia.
Qed.

Lemma push_then_peek_witness :
  (reachable pop_heap pop_store ∧ 1 ≤ DHeap.branching_factor pop_heap) ∧
  ∃ x s',
    (DHeap.push 2000 ;; DHeap.peek) (pop_heap, pop_store) = (Ok x, s') ∧
    ((size pop_heap = 0 ∧ x = 2000) ∨
     (∃ root, DHeap.peek (pop_heap, pop_store) = (Ok root, (pop_heap, pop_store)) ∧
              x = more_extreme true 2000 root)).
Proof.
  split; [split; [apply pop_heap_reachable | vm_compute; discriminate]|].
  apply (push_then_peek 2000 pop_heap pop_store pop_heap_reachable).
  vm_compute. discriminate.
Defined.

Lemma push_receiver v h st a r h' st' :
  st !! DHeap.heap_array h = Some a →
  DHeap.push v (h, st) = (r, (h', st')) → h' = grown h.
Proof.
  intros Hst Hrun. unfold DHeap.push in Hrun. rewrite bind_set_self in Hrun.
  cbn [fst snd] in Hrun. fold (grown h) in Hrun.
  rewrite (bind_ok _ _ _ _ _ (append_ok (grown h) st a v Hst)) in Hrun.
  rewrite bind_attr in Hrun. unfold DHeap.__sift_up in Hrun.
  now apply sift_up_rec_same_len in Hrun as (E & _ & _).
Qed.

(** X5: [__len__] never raises and changes nothing, and on a heap a caller
    can hold it is the number of elements of the storage.  It is one more
    after a [push], also after a [push] that raises; one less after a [pop]
    that returns; and a [pop] raises only when it is 0, and leaves it 0. *)
Theorem len_counts_elements (h : DHeap.t) (st : store) :
  reachable h st →
  ∃ a,
    storage h st = Some a ∧
    DHeap.__len__ (h, st) = (Ok (Z.of_nat (length a)), (h, st)) ∧
    (∀ v r s', DHeap.push v (h, st) = (r, s') →
       DHeap.__len__ s' = (Ok (Z.of_nat (length a) + 1), s')) ∧
    (∀ x s', DHeap.pop (h, st) = (Ok x, s') →
       DHeap.__len__ s' = (Ok (Z.of_nat (length a) - 1), s')) ∧
    (∀ e s', DHeap.pop (h, st) = (Raise e, s') →
       length a = 0%nat ∧ DHeap.__len__ s' = (Ok 0, s')).
Proof.
  intros Hr. apply reachable_valid in Hr as (a & Hst & Hlen & Hh).
  exists a. split; [exact Hst|].
  assert (Hl : ∀ s : DHeap.t * store,
            DHeap.__len__ s = (Ok (DHeap.last_index s.1 + 1), s)) by reflexivity.
  split; [rewrite Hl; cbn [fst]; now rewrite Hlen|].
  split; [|split].
  - intros v r [h' st'] Hrun.
    rewrite (push_receiver v h st a r h' st' Hst Hrun).
    rewrite Hl. cbn. do 2 f_equal. lia.
  - intros x s' Hrun.
    destruct (Z_le_gt_dec 0 (DHeap.last_index h)) as [Hne|He].
    + destruct (pop_ok h st a Hst Hlen Hne) as (a' & Hrun' & _).
      rewrite Hrun' in Hrun. injection Hrun as _ <-.
      rewrite Hl. cbn. do 2 f_equal. lia.
    + assert (a = []) as -> by (destruct a; [reflexivity | cbn in Hlen; lia]).
      rewrite (pop_empty h st Hst) in Hrun. discriminate.
  - intros e s' Hrun.
    destruct (Z_le_gt_dec 0 (DHeap.last_index h)) as [Hne|He].
    + destruct (pop_ok h st a Hst Hlen Hne) as (a' & Hrun' & _).
      rewrite Hrun' in Hrun. discriminate.
    + assert (a = []) as -> by (destruct a; [reflexivity | cbn in Hlen; lia]).
      rewrite (pop_empty h st Hst) in Hrun. injection Hrun as _ <-.
      split; [reflexivity|]. rewrite Hl. cbn. do 2 f_equal. cbn in Hlen. lia.
Qed.

Lemma len_counts_elements_witness :
  reachable pop_heap pop_store ∧
  ∃ a,
    storage pop_heap pop_store = Some a ∧
    DHeap.__len__ (pop_heap, pop_store) = (Ok (Z.of_nat (length a)), (pop_heap, pop_store)).
Proof.
  split; [apply pop_heap_reachable|].
  destruct (len_counts_elements pop_heap pop_store pop_heap_reachable)
    as (a & Ha & Hlen & _).
  now exists a.
Defined.

(** ** [heapify] *)

Lemma property_heap_from bf mh a :
  1 ≤ bf → heap_property bf mh a (Z.of_nat (length a)) →
  heap_from bf mh (Z.of_nat (length a) - 1) a 0.
Proof.
  intros Hbf Hp p c Hp0 Hc Hl.
  pose proof (child_gt _ Hbf p c Hp0 Hc) as Hpc.
  destruct (child_inv _ p c Hc) as (k & Hk & ->).
  destruct (Hp p k ltac:(lia) Hk ltac:(lia)) as (x & y & Hx & Hy & Hxy).
  unfold ordered, item.
  now rewrite (list_lookup_total_correct _ _ _ Hx), (list_lookup_total_correct _ _ _ Hy).
Qed.

(** At a position that is in order with its children [__sift_down] does
    nothing. *)
Lemma sift_down_ordered_nop h st a index :
  1 ≤ DHeap.branching_factor h →
  st !! DHeap.heap_array h = Some a →
  DHeap.last_index h < Z.of_nat (length a) →
  0 ≤ index →
  (∀ c, child (DHeap.branching_factor h) index c → c ≤ DHeap.last_index h →
        ordered (DHeap.max_heap h) a index c) →
  DHeap.__sift_down index (h, st) = (Ok tt, (h, st)).
Proof.
  intros Hbf Hst Hlast Hidx Hord.
  unfold DHeap.__sift_down. rewrite bind_attr, Nat.add_1_r.
  cbn [DHeap.sift_down_rec]. rewrite bind_attr. cbn [fst].
  destruct (Z_le_gt_dec index (DHeap.last_index h)) as [Hin|Hout].
  - assert (Hir : in_range a index) by (unfold in_range; lia).
    destruct (scan_children_ok h st a index Hst Hbf Hidx Hlast
                (Z.to_nat (DHeap.branching_factor h)) 1 index ltac:(lia) Hir ltac:(nia))
      as (np & Hrun & _ & Hm & Hbt & _ & _).
    rewrite (bind_ok _ _ _ _ _ Hrun).
    destruct (Z.eqb_spec np index) as [->|Hne]; [reflexivity|]. exfalso.
    destruct Hm as [->|(j & Hj & Hnp & Hnl)]; [congruence|].
    rewrite Z2Nat.id in Hj by lia.
    assert (Hch : child (DHeap.branching_factor h) index np) by (unfold child; lia).
    specialize (Hord np Hch Hnl). specialize (Hbt Hne).
    unfold ordered in Hord. order (DHeap.max_heap h).
  - rewrite (bind_ok _ _ _ _ _
               (scan_children_out h (h, st) index _ 1 index ltac:(nia) eq_refl)).
    now rewrite Z.eqb_refl.
Qed.

Lemma heapify_loop_ordered_nop h st a :
  1 ≤ DHeap.branching_factor h →
  st !! DHeap.heap_array h = Some a →
  DHeap.last_index h < Z.of_nat (length a) →
  heap_from (DHeap.branching_factor h) (DHeap.max_heap h) (DHeap.last_index h) a 0 →
  ∀ n start, DHeap.heapify_loop n start (h, st) = (Ok tt, (h, st)).
Proof.
  intros Hbf Hst Hlast Hh. induction n as [|n IH]; intros start; [reflexivity|].
  cbn [DHeap.heapify_loop]. destruct (Z.leb_spec 0 start) as [Hs|Hs]; [|reflexivity].
  rewrite (bind_ok _ _ _ _ _
             (sift_down_ordered_nop h st a start Hbf Hst Hlast Hs
                (λ c Hc Hl, Hh start c Hs Hc Hl))).
  apply IH.
Qed.

Lemma heapify_loop_nop n :
  ∀ start s, DHeap.branching_factor s.1 < 1 →
    DHeap.heapify_loop n start s = (Ok tt, s).
Proof.
  induction n as [|n IH]; intros start s Hbf; [reflexivity|].
  cbn [DHeap.heapify_loop]. destruct (0 <=? start); [|reflexivity].
  rewrite (bind_ok _ _ _ _ _ (sift_down_nop start s Hbf)). now apply IH.
Qed.

(** The part of [heapify] before its loop. *)
Lemma heapify_unfold l mh bf (st : store) a :
  st !! l = Some a → bf ≠ 0 →
  DHeap.heapify l mh bf st =
    match DHeap.heapify_loop (Z.to_nat ((Z.of_nat (length a) - 1 - 1) / bf + 1))
            ((Z.of_nat (length a) - 1 - 1) / bf)
            (DHeap.mk bf mh l (Z.of_nat (length a) - 1), <[fresh (dom st) := []]> st) with
    | (Ok _, (heap', st')) => (Ok heap', st')
    | (Raise e, (_, st')) => (Raise e, st')
    end.
Proof.
  intros Hst Hbf.
  assert (Hst0 : (<[fresh (dom st) := []]> st) !! l = Some a).
  { rewrite lookup_insert_ne; [exact Hst|].
    intros E. rewrite <- E, fresh_not_in in Hst. discriminate. }
  unfold DHeap.heapify. rewrite init_empty.
  rewrite bind_set_self. unfold bind at 1. unfold load at 1.
  cbn [fst snd]. rewrite Hst0.
  rewrite bind_set_self. rewrite !bind_attr.
  unfold DHeap.with_last_index, DHeap.with_heap_array.
  cbn [fst snd DHeap.branching_factor DHeap.max_heap DHeap.heap_array DHeap.last_index].
  unfold bind at 1. unfold lift at 1. rewrite floordiv_ok by exact Hbf.
  reflexivity.
Qed.

(** X6: [heapify] works in the caller's list and copies nothing.  With a
    branching factor of at least 1 it returns a heap whose storage is the
    very list object it was given, now holding the same elements in heap
    order, with the size of the list; no other object of the caller is
    touched. *)
Theorem heapify_in_place (l : loc) (mh : bool) (bf : Z) (st : store) (a : list Z) :
  1 ≤ bf → st !! l = Some a →
  ∃ h st' a',
    DHeap.heapify l mh bf st = (Ok h, st') ∧
    h = DHeap.mk bf mh l (Z.of_nat (length a) - 1) ∧
    st' !! l = Some a' ∧
    a' ≡ₚ a ∧ length a' = length a ∧
    heap_property bf mh a' (size h) ∧
    (∀ l', l' ≠ l → is_Some (st !! l') → st' !! l' = st !! l').
Proof.
  intros Hbf Hst.
  assert (Hl : l ≠ fresh (dom st)).
  { intros ->. rewrite fresh_not_in in Hst. discriminate. }
  destruct (heapify_run l mh bf st a) as (a' & Hrun & Hlen & Hperm & Hh).
  { rewrite lookup_insert_ne by (intros E; now apply Hl). exact Hst. }
  { lia. }
  exists (DHeap.mk bf mh l (Z.of_nat (length a) - 1)),
         (<[l := a']> (<[fresh (dom st) := []]> st)), a'.
  split; [exact Hrun|]. split; [reflexivity|].
  split; [apply lookup_insert_eq|]. split; [exact Hperm|]. split; [exact Hlen|].
  split.
  - apply heap_from_property; [unfold size; cbn; lia|]. intros _.
    unfold size. cbn.
    replace (Z.of_nat (length a) - 1 + 1 - 1) with (Z.of_nat (length a) - 1) by lia.
    now apply Hh.
  - intros l' Hne [b Hb]. rewrite lookup_insert_ne by (intros E; now apply Hne).
    apply lookup_insert_ne. intros E. rewrite <- E, fresh_not_in in Hb. discriminate.
Qed.

Lemma heapify_in_place_witness :
  (1 ≤ 2 ∧ heapify_source !! 0%nat = Some [1; 0; 5; 103; -23; -2213415]) ∧
  ∃ h st' a',
    DHeap.heapify 0%nat true 2 heapify_source = (Ok h, st') ∧
    h = DHeap.mk 2 true 0%nat 5 ∧
    st' !! 0%nat = Some a' ∧
    a' ≡ₚ [1; 0; 5; 103; -23; -2213415] ∧
    heap_property 2 true a' (size h).
Proof.
  split; [split; [lia | reflexivity]|].
  destruct (heapify_in_place 0%nat true 2 heapify_source [1; 0; 5; 103; -23; -2213415]
              ltac:(lia) eq_refl)
    as (h & st' & a' & Hrun & Hh & Ha' & Hperm & _ & Hheap & _).
  exists h, st', a'. repeat split; assumption.
Defined.

(** X7: [heapify] of a list that is in heap order already changes nothing in
    it; so a second [heapify] of the same list leaves what the first one
    made. *)
Theorem heapify_keeps_heap (l : loc) (mh : bool) (bf : Z) (st : store) (a : list Z) :
  1 ≤ bf → st !! l = Some a →
  heap_property bf mh a (Z.of_nat (length a)) →
  DHeap.heapify l mh bf st =
    (Ok (DHeap.mk bf mh l (Z.of_nat (length a) - 1)), <[fresh (dom st) := []]> st) ∧
  (<[fresh (dom st) := []]> st) !! l = Some a.
Proof.
  intros Hbf Hst Hp.
  assert (Hst0 : (<[fresh (dom st) := []]> st) !! l = Some a).
  { rewrite lookup_insert_ne; [exact Hst|].
    intros E. rewrite <- E, fresh_not_in in Hst. discriminate. }
  split; [|exact Hst0].
  rewrite (heapify_unfold l mh bf st a Hst) by lia.
  rewrite (heapify_loop_ordered_nop (DHeap.mk bf mh l (Z.of_nat (length a) - 1))
             (<[fresh (dom st) := []]> st) a Hbf Hst0); [reflexivity | cbn; lia |].
  cbn. now apply property_heap_from.
Qed.

Lemma heapify_keeps_heap_witness :
  (1 ≤ 2 ∧ heap_source !! 0%nat = Some [9; 4; 7; 1]) ∧
  DHeap.heapify 0%nat true 2 heap_source =
    (Ok (DHeap.mk 2 true 0%nat 3), <[1%nat := []]> heap_source) ∧
  (<[1%nat := []]> heap_source) !! 0%nat = Some [9; 4; 7; 1].
Proof.
  split; [split; [lia | reflexivity]|].
  apply (heapify_keeps_heap 0%nat true 2 heap_source [9; 4; 7; 1]);
    [lia | reflexivity |].
  intros i k Hi Hk Hc. cbn in Hi, Hc.
  assert (Hcases : (i = 0 ∧ k = 0) ∨ (i = 0 ∧ k = 1) ∨ (i = 1 ∧ k = 0)) by lia.
  destruct Hcases as [[-> ->]|[[-> ->]|[-> ->]]]; vm_compute; eexists _, _;
    (split; [reflexivity|]); (split; [reflexivity|]); discriminate.
Defined.

(** X8: [heapify] with a branching factor below 1.  With 0 it raises the
    [ZeroDivisionError] of the computation of the first parent; with a
    negative one it returns a heap around the list.  In both cases the list
    is left exactly as it was: it is not put in heap order. *)
Theorem heapify_branching_factor_below_1 (l : loc) (mh : bool) (bf : Z)
    (st : store) (a : list Z) :
  st !! l = Some a →
  (bf = 0 →
   DHeap.heapify l mh bf st = (Raise ZeroDivisionError, <[fresh (dom st) := []]> st)) ∧
  (bf < 0 →
   DHeap.heapify l mh bf st =
     (Ok (DHeap.mk bf mh l (Z.of_nat (length a) - 1)), <[fresh (dom st) := []]> st)) ∧
  (<[fresh (dom st) := []]> st) !! l = Some a.
Proof.
  intros Hst.
  assert (Hst0 : (<[fresh (dom st) := []]> st) !! l = Some a).
  { rewrite lookup_insert_ne; [exact Hst|].
    intros E. rewrite <- E, fresh_not_in in Hst. discriminate. }
  split; [|split; [|exact Hst0]].
  - intros ->. unfold DHeap.heapify. rewrite init_empty.
    rewrite bind_set_self. unfold bind at 1. unfold load at 1.
    cbn [fst snd]. rewrite Hst0.
    rewrite bind_set_self. rewrite !bind_attr. reflexivity.
  - intros Hbf. rewrite (heapify_unfold l mh bf st a Hst) by lia.
    now rewrite heapify_loop_nop by (cbn; lia).
Qed.

Lemma heapify_branching_factor_below_1_witness :
  heapify_source !! 0%nat = Some [1; 0; 5; 103; -23; -2213415] ∧
  DHeap.heapify 0%nat true 0 heapify_source =
    (Raise ZeroDivisionError, <[1%nat := []]> heapify_source) ∧
  DHeap.heapify 0%nat true (-3) heapify_source =
    (Ok (DHeap.mk (-3) true 0%nat 5), <[1%nat := []]> heapify_source).
Proof.
  split; [reflexivity|].
  destruct (heapify_branching_factor_below_1 0%nat true 0 heapify_source
              [1; 0; 5; 103; -23; -2213415] eq_refl) as (H0 & _ & _).
  destruct (heapify_branching_factor_below_1 0%nat true (-3) heapify_source
              [1; 0; 5; 103; -23; -2213415] eq_refl) as (_ & Hneg & _).
  split; [apply H0; reflexivity | apply Hneg; lia].
Defined.

(** ** [validate_heap] *)

Lemma validate_rec_first_path_iff h (st : store) a :
  1 ≤ DHeap.branching_factor h →
  st !! DHeap.heap_array h = Some a →
  DHeap.last_index h < Z.of_nat (length a) →
  ∀ d parent,
    0 ≤ parent → Z.max 0 (DHeap.last_index h - parent) < Z.of_nat d →
    ∃ b,
      DHeap.validate_rec d parent (h, st) = (Ok b, (h, st)) ∧
      (b = true ↔
       ∀ p, p ∈ first_path (DHeap.branching_factor h) (DHeap.last_index h) d parent →
            p * DHeap.branching_factor h + 1 ≤ DHeap.last_index h →
            at_least (DHeap.max_heap h) (item a p)
              (item a (p * DHeap.branching_factor h + 1))).
Proof.
  intros Hbf Hst Hlast. induction d as [|d IH]; intros parent Hp Hd; [lia|].
  rewrite (validate_rec_step h st a parent d Hbf Hst Hlast Hp). cbn [first_path].
  destruct (Z.leb_spec (parent * DHeap.branching_factor h + 1) (DHeap.last_index h))
    as [Hc|Hc].
  - destruct (beats (DHeap.max_heap h) (item a (parent * DHeap.branching_factor h + 1))
                (item a parent)) eqn:Hb.
    + exists false. split; [reflexivity|]. split; [discriminate|].
      intros H. specialize (H parent ltac:(left) Hc). order (DHeap.max_heap h).
    + destruct (IH (parent * DHeap.branching_factor h + 1) ltac:(nia) ltac:(nia))
        as (b & Hrun & Hiff).
      exists b. split; [exact Hrun|]. rewrite Hiff. split.
      * intros H p Hin Hpc. apply elem_of_cons in Hin as [->|Hin];
          [now apply not_beats_at_least | now apply H].
      * intros H p Hin Hpc. apply H; [now right | exact Hpc].
  - exists true. split; [reflexivity|]. split; [|reflexivity].
    intros _ p Hin Hpc. apply elem_of_cons in Hin as [->|Hin];
      [lia | now apply elem_of_nil in Hin].
Qed.

(** X9: what [validate_heap] decides.  On a storage as long as the size and
    with a branching factor of at least 1, [validate_heap(parent)] returns,
    changes nothing, and its answer is [True] exactly when every position on
    the path of first children from [parent] is in order with its first
    child; no other pair of positions has a say. *)
Theorem validate_heap_decides_first_path (h : DHeap.t) (st : store) (a : list Z)
    (parent : Z) :
  1 ≤ DHeap.branching_factor h →
  st !! DHeap.heap_array h = Some a →
  DHeap.last_index h < Z.of_nat (length a) →
  0 ≤ parent →
  let bf := DHeap.branching_factor h in
  let last := DHeap.last_index h in
  ∃ b,
    DHeap.validate_heap parent (h, st) = (Ok b, (h, st)) ∧
    (b = true ↔
     ∀ p, p ∈ first_path bf last (Z.to_nat (last - parent) + 1) parent →
          p * bf + 1 ≤ last →
          at_least (DHeap.max_heap h) (item a p) (item a (p * bf + 1))).
Proof.
  intros Hbf Hst Hlast Hp bf last.
  unfold DHeap.validate_heap. rewrite bind_attr. cbn [fst].
  apply (validate_rec_first_path_iff h st a Hbf Hst Hlast); [exact Hp | lia].
Qed.

Lemma validate_heap_decides_first_path_witness :
  ∃ b,
    DHeap.validate_heap 0 (broken_heap, broken_store) = (Ok b, (broken_heap, broken_store)) ∧
    (b = true ↔
     ∀ p, p ∈ first_path 2 2 (Z.to_nat (2 - 0) + 1) 0 →
          p * 2 + 1 ≤ 2 →
          at_least true (item [5; 3; 9] p) (item [5; 3; 9] (p * 2 + 1))).
Proof.
  apply (validate_heap_decides_first_path broken_heap broken_store [5; 3; 9] 0);
    [cbn; lia | reflexivity | cbn; lia | lia].
Defined.

Lemma validate_rec_of_heap h (st : store) a :
  1 ≤ DHeap.branching_factor h →
  st !! DHeap.heap_array h = Some a →
  DHeap.last_index h < Z.of_nat (length a) →
  heap_from (DHeap.branching_factor h) (DHeap.max_heap h) (DHeap.last_index h) a 0 →
  ∀ d parent,
    0 ≤ parent → Z.max 0 (DHeap.last_index h - parent) < Z.of_nat d →
    DHeap.validate_rec d parent (h, st) = (Ok true, (h, st)).
Proof.
  intros Hbf Hst Hlast Hh. induction d as [|d IH]; intros parent Hp Hd; [lia|].
  rewrite (validate_rec_step h st a parent d Hbf Hst Hlast Hp).
  destruct (Z.leb_spec (parent * DHeap.branching_factor h + 1) (DHeap.last_index h))
    as [Hc|Hc]; [|reflexivity].
  assert (Ho : ordered (DHeap.max_heap h) a parent (parent * DHeap.branching_factor h + 1)).
  { apply Hh; [exact Hp | | exact Hc]. unfold child. lia. }
  destruct (beats _ _ _) eqn:Hb.
  - unfold ordered in Ho. order (DHeap.max_heap h).
  - apply IH; nia.
Qed.

(** X10: on every heap a caller can hold, whatever its branching factor,
    [validate_heap()] returns [True], as the unit tests expect after each
    operation; and [validate_heap] with any argument, returning or raising,
    changes neither the heap nor the store. *)
Theorem validate_heap_of_reachable (h : DHeap.t) (st : store) :
  reachable h st →
  DHeap.validate_heap 0 (h, st) = (Ok true, (h, st)) ∧
  (∀ parent r s', DHeap.validate_heap parent (h, st) = (r, s') → s' = (h, st)).
Proof.
  intros Hr. apply reachable_valid in Hr as (a & Hst & Hlen & Hh). split.
  - unfold DHeap.validate_heap. rewrite bind_attr. cbn [fst].
    destruct (Z_le_gt_dec 1 (DHeap.branching_factor h)) as [Hbf|Hbf].
    + apply (validate_rec_of_heap h st a Hbf Hst); [lia | now apply Hh | lia | lia].
    + rewrite Nat.add_1_r. cbn [DHeap.validate_rec]. rewrite bind_attr. cbn [fst].
      now replace (Z.to_nat (DHeap.branching_factor h)) with 0%nat by lia.
  - intros parent r s' Hrun. unfold DHeap.validate_heap in Hrun.
    rewrite bind_attr in Hrun. now apply validate_rec_pure in Hrun.
Qed.

Lemma validate_heap_of_reachable_witness :
  reachable pop_heap' pop_store' ∧
  DHeap.validate_heap 0 (pop_heap', pop_store') = (Ok true, (pop_heap', pop_store')).
Proof.
  split; [apply pop_heap'_reachable|].
  apply (validate_heap_of_reachable pop_heap' pop_store'). apply pop_heap'_reachable.
Defined.

(** ** [BinaryHeap], through [DHeap] with branching factor 2 *)

Lemma reachable_binary_lift h st :
  reachable_binary h st → reachable (as_dheap h) st.
Proof.
  induction 1 as [st ic mh h st' Hrun | st l mh h st' Hrun
                 | h st c r h' st' _ IH Hrun].
  - apply (reach_init st ic mh 2). rewrite init_same, Hrun. reflexivity.
  - apply (reach_heapify st l mh 2). rewrite heapify_same, Hrun. reflexivity.
  - apply (reach_call (as_dheap h) st c r); [exact IH|].
    pose proof (sim_exec c (h, st)) as Hsim. rewrite Hrun in Hsim. exact Hsim.
Qed.

(** X11: the invariant of [BinaryHeap].  After the constructor or [heapify]
    and any sequence of [push], [pop], [peek], [len] and [validate_heap]
    calls, returning or raising, the storage of a [BinaryHeap] is a list
    object as long as the size, every position is in order with its two
    children, and [validate_heap()] returns [True] and changes nothing. *)
Theorem binary_heap_invariant (h : BinaryHeap.t) (st : store) :
  reachable_binary h st →
  ∃ a,
    st !! BinaryHeap.heap_array h = Some a ∧
    Z.of_nat (length a) = BinaryHeap.last_index h + 1 ∧
    heap_property 2 (BinaryHeap.max_heap h) a (BinaryHeap.last_index h + 1) ∧
    BinaryHeap.validate_heap 0 (h, st) = (Ok true, (h, st)).
Proof.
  intros Hr. apply reachable_binary_lift in Hr.
  apply reachable_valid in Hr as (a & Hst & Hlen & Hh).
  cbn [as_dheap DHeap.heap_array DHeap.last_index DHeap.branching_factor
       DHeap.max_heap] in Hst, Hlen, Hh.
  exists a. split; [exact Hst|]. split; [exact Hlen|]. split.
  - apply heap_from_property; [exact Hlen|]. intros _.
    replace (BinaryHeap.last_index h + 1 - 1) with (BinaryHeap.last_index h) by lia.
    apply Hh. lia.
  - pose proof (sim_validate_heap 0 (h, st)) as Hsim.
    unfold lift_state in Hsim. cbn [fst snd] in Hsim.
    unfold DHeap.validate_heap in Hsim. rewrite bind_attr in Hsim. cbn [fst] in Hsim.
    rewrite (validate_rec_of_heap (as_dheap h) st a) in Hsim;
      [| cbn; lia | exact Hst | cbn; lia | cbn; apply Hh; lia | lia
       | cbn [as_dheap DHeap.last_index]; lia].
    destruct (BinaryHeap.validate_heap 0 (h, st)) as [r [[mh' l' li'] st']].
    destruct h as [mh l li].
    unfold lift_out, lift_state, as_dheap in Hsim. cbn in Hsim.
    now injection Hsim as <- <- <- <- <-.
Qed.

Lemma binary_heap_invariant_witness :
  reachable_binary binary_pop_heap pop_store ∧
  BinaryHeap.validate_heap 0 (binary_pop_heap, pop_store) =
    (Ok true, (binary_pop_heap, pop_store)).
Proof.
  assert (Hr : reachable_binary binary_pop_heap pop_store).
  { apply (reach_binary_init pop_source (ListRef 0%nat) true).
    vm_compute. reflexivity. }
  split; [exact Hr|].
  destruct (binary_heap_invariant binary_pop_heap pop_store Hr) as (a & _ & _ & _ & Hv).
  exact Hv.
Defined.

(** X12: [BinaryHeap.pop] on a heap that is not empty returns the element
    at the root, which is the most extreme one stored (the greatest of a max
    heap, the least of a min heap); the size goes down by 1 and the storage
    left is the former multiset minus one occurrence of that element. *)
Theorem binary_pop_returns_extreme (h : BinaryHeap.t) (st : store) :
  reachable_binary h st → 0 ≤ BinaryHeap.last_index h →
  ∃ a x a' st',
    st !! BinaryHeap.heap_array h = Some a ∧
    BinaryHeap.pop (h, st) =
      (Ok x, (BinaryHeap.with_last_index (λ i, i - 1) h, st')) ∧
    a !! 0%nat = Some x ∧
    (∀ y, y ∈ a → at_least (BinaryHeap.max_heap h) x y) ∧
    st' !! BinaryHeap.heap_array h = Some a' ∧
    a ≡ₚ x :: a'.
Proof.
  intros Hr Hne. apply reachable_binary_lift in Hr.
  apply reachable_valid in Hr as (a & Hst & Hlen & Hh).
  specialize (Hh ltac:(cbn; lia)).
  destruct (pop_ok (as_dheap h) st a Hst Hlen Hne) as (a' & Hrun & Hlen' & Hperm & _).
  cbn [as_dheap DHeap.heap_array DHeap.last_index DHeap.branching_factor
       DHeap.max_heap] in Hst, Hlen, Hh.
  exists a, (item a 0), a', (<[BinaryHeap.heap_array h := a']> st).
  split; [exact Hst|]. split.
  - pose proof (sim_pop (h, st)) as Hsim.
    unfold lift_state in Hsim. cbn [fst snd] in Hsim. rewrite Hrun in Hsim.
    destruct (BinaryHeap.pop (h, st)) as [r [[mh' l' li'] st']].
    destruct h as [mh l li].
    unfold lift_out, lift_state, as_dheap, shrunk in Hsim. cbn in Hsim.
    now injection Hsim as <- <- <- <- <-.
  - split; [apply (lookup_item a 0); unfold in_range; lia|].
    split.
    { apply (root_extreme 2); [lia|].
      now replace (Z.of_nat (length a) - 1) with (BinaryHeap.last_index h) by lia. }
    split; [apply lookup_insert_eq | exact Hperm].
Qed.

Lemma binary_pop_returns_extreme_witness :
  reachable_binary binary_pop_heap pop_store ∧
  ∃ st',
    BinaryHeap.pop (binary_pop_heap, pop_store) =
      (Ok 1024, (BinaryHeap.mk true 1%nat 5, st')).
Proof.
  assert (Hr : reachable_binary binary_pop_heap pop_store).
  { apply (reach_binary_init pop_source (ListRef 0%nat) true).
    vm_compute. reflexivity. }
  split; [exact Hr|].
  destruct (binary_pop_returns_extreme binary_pop_heap pop_store Hr)
    as (a & x & a' & st' & Hst & Hrun & Hx & _); [cbn; lia|].
  exists st'. rewrite Hrun. vm_compute in Hst. injection Hst as <-.
  vm_compute in Hx. injection Hx as <-. reflexivity.
Defined.

(** ** [heapsort] *)

Lemma sorted_as_snoc asc (a : list Z) x :
  sorted_as asc a → (∀ y, y ∈ a → in_order asc y x) → sorted_as asc (a ++ [x]).
Proof.
  unfold sorted_as. induction a as [|z a IH]; intros Hs Hx; cbn [app].
  - repeat constructor.
  - apply StronglySorted_inv in Hs as [Hs Hz]. constructor.
    + apply IH; [exact Hs|]. intros y Hy. apply Hx. now right.
    + apply Forall_app. split; [exact Hz|]. constructor; [|constructor].
      apply Hx. left.
Qed.

Lemma sorted_as_rev asc (a : list Z) :
  sorted_as asc a → sorted_as (negb asc) (reverse a).
Proof.
  induction a as [|x a IH]; intros Hs; [constructor|].
  apply StronglySorted_inv in Hs as [Hs Hx]. rewrite reverse_cons.
  apply sorted_as_snoc; [now apply IH|].
  intros y Hy. rewrite elem_of_reverse in Hy. rewrite Forall_forall in Hx.
  specialize (Hx y Hy). unfold in_order in *. now destruct asc.
Qed.

(** X13: the list [heapsort] leaves depends only on the elements, not on
    where they were.  Two list objects (of one store or of two) that hold
    the same multiset are left holding the same list; in particular sorting
    a list that [heapsort] has already sorted the same way leaves it as it
    is. *)
Theorem heapsort_depends_on_elements_only (l1 l2 : loc) (ascending : bool)
    (st1 st2 : store) (a1 a2 : list Z) :
  st1 !! l1 = Some a1 → st2 !! l2 = Some a2 → a1 ≡ₚ a2 →
  ∃ b st1' st2' st1'',
    DHeap.heapsort l1 ascending st1 = (Ok tt, st1') ∧
    DHeap.heapsort l2 ascending st2 = (Ok tt, st2') ∧
    st1' !! l1 = Some b ∧ st2' !! l2 = Some b ∧
    DHeap.heapsort l1 ascending st1' = (Ok tt, st1'') ∧
    st1'' !! l1 = Some b.
Proof.
  intros H1 H2 Hp.
  destruct (heapsort_ok l1 ascending st1 a1 H1) as (b1 & Hrun1 & Hp1 & _ & Hs1).
  destruct (heapsort_ok l2 ascending st2 a2 H2) as (b2 & Hrun2 & Hp2 & _ & Hs2).
  set (st1' := <[l1 := b1]> (<[fresh (dom st1) := []]> st1)) in *.
  assert (H1' : st1' !! l1 = Some b1) by apply lookup_insert_eq.
  destruct (heapsort_ok l1 ascending st1' b1 H1') as (b3 & Hrun3 & Hp3 & _ & Hs3).
  exists b1, st1', (<[l2 := b2]> (<[fresh (dom st2) := []]> st2)),
    (<[l1 := b3]> (<[fresh (dom st1') := []]> st1')).
  split; [exact Hrun1|]. split; [exact Hrun2|]. split; [exact H1'|].
  split; [|split; [exact Hrun3|]].
  - rewrite lookup_insert_eq. f_equal.
    apply (sorted_as_unique ascending); [exact Hs2 | exact Hs1|].
    now rewrite Hp1, Hp2, Hp.
  - rewrite lookup_insert_eq. f_equal.
    apply (sorted_as_unique ascending); [exact Hs3 | exact Hs1 | exact Hp3].
Qed.

Lemma heapsort_depends_on_elements_only_witness :
  ∃ b st1' st2' st1'',
    DHeap.heapsort 0%nat true sort_source = (Ok tt, st1') ∧
    DHeap.heapsort 0%nat true shuffled_source = (Ok tt, st2') ∧
    st1' !! 0%nat = Some b ∧ st2' !! 0%nat = Some b ∧
    DHeap.heapsort 0%nat true st1' = (Ok tt, st1'') ∧
    st1'' !! 0%nat = Some b.
Proof.
  apply (heapsort_depends_on_elements_only 0%nat 0%nat true sort_source
           shuffled_source
           [1; 5; 64; 64; 12315; 677; -15; -1002]
           [-1002; 677; 64; 1; 5; 12315; -15; 64]);
    [reflexivity | reflexivity | apply (bool_decide_unpack _); vm_compute; exact I].
Defined.

(** X14: the descending result of [heapsort] is the ascending one read
    backwards, whatever the list held, duplicates included. *)
Theorem heapsort_descending_is_reverse (l : loc) (st : store) (a : list Z) :
  st !! l = Some a →
  ∃ b st1 st2,
    DHeap.heapsort l true st = (Ok tt, st1) ∧ st1 !! l = Some b ∧
    DHeap.heapsort l false st = (Ok tt, st2) ∧ st2 !! l = Some (reverse b).
Proof.
  intros Hst.
  destruct (heapsort_ok l true st a Hst) as (b1 & Hrun1 & Hp1 & _ & Hs1).
  destruct (heapsort_ok l false st a Hst) as (b2 & Hrun2 & Hp2 & _ & Hs2).
  exists b1, (<[l := b1]> (<[fresh (dom st) := []]> st)),
    (<[l := b2]> (<[fresh (dom st) := []]> st)).
  split; [exact Hrun1|]. split; [apply lookup_insert_eq|]. split; [exact Hrun2|].
  rewrite lookup_insert_eq. f_equal.
  apply (sorted_as_unique false); [exact Hs2 | apply (sorted_as_rev true), Hs1|].
  now rewrite Hp2, reverse_Permutation, Hp1.
Qed.

Lemma heapsort_descending_is_reverse_witness :
  ∃ b st1 st2,
    DHeap.heapsort 0%nat true sort_source = (Ok tt, st1) ∧ st1 !! 0%nat = Some b ∧
    DHeap.heapsort 0%nat false sort_source = (Ok tt, st2) ∧
    st2 !! 0%nat = Some (reverse b).
Proof.
  apply (heapsort_descending_is_reverse 0%nat sort_source
           [1; 5; 64; 64; 12315; 677; -15; -1002]).
  reflexivity.
Defined.

(** X15: a heap used as a sorter agrees with [heapsort].  For every
    branching factor of at least 1, building a heap from a sequence and
    popping as many times as it has elements returns every time, and the
    values popped, in order, are the list that [heapsort] with [ascending]
    the opposite of [max_heap] leaves in a list object holding the same
    sequence. *)
Theorem pops_agree_with_heapsort (vals : list Z) (mh : bool) (bf : Z)
    (st st0 : store) (l : loc) :
  1 ≤ bf → st0 !! l = Some vals →
  ∃ h st' out s'' st1,
    DHeap.__init__ (Tuple vals) mh bf st = (Ok h, st') ∧
    DHeap.pop_all (length vals) (h, st') = (Ok out, s'') ∧
    DHeap.heapsort l (negb mh) st0 = (Ok tt, st1) ∧
    st1 !! l = Some out.
Proof.
  intros Hbf Hst0.
  set (l0 := fresh (dom st)).
  destruct (push_all_ok bf mh l0 Hbf vals (-1) (<[l0 := []]> st) [])
    as (b & Hrun & Hperm & Hlen & Hh).
  { apply lookup_insert_eq. }
  { reflexivity. }
  { intros p c Hp Hc Hcl. pose proof (child_gt _ Hbf p c Hp Hc). lia. }
  rewrite insert_insert_eq in Hrun. cbn [app] in Hperm.
  set (h := DHeap.mk bf mh l0 (-1 + Z.of_nat (length vals))) in *.
  destruct (pop_all_ok (length vals) h (<[l0 := b]> st) b Hbf)
    as (out & h' & st' & Hpop & Hpo & Hsorted & _).
  { apply lookup_insert_eq. }
  { cbn. lia. }
  { lia. }
  { exact Hh. }
  destruct (heapsort_ok l (negb mh) st0 vals Hst0) as (a' & Hsort & Hpa & _ & Hsa).
  exists h, (<[l0 := b]> st), out, (h', st'),
    (<[l := a']> (<[fresh (dom st0) := []]> st0)).
  split; [|split; [exact Hpop|split; [exact Hsort|]]].
  - unfold DHeap.__init__. fold l0. cbv zeta. rewrite Hrun. reflexivity.
  - rewrite lookup_insert_eq. f_equal.
    apply (sorted_as_unique (negb mh)); [exact Hsa | |].
    + cbn [DHeap.max_heap h] in Hsorted. unfold sorted_as, pop_order in *.
      destruct mh; exact Hsorted.
    + now rewrite Hpa, Hpo, Hperm.
Qed.

Lemma pops_agree_with_heapsort_witness :
  ∃ h st' out s'' st1,
    DHeap.__init__ (Tuple [1; 5; 64; 64; 12315; 677; -15; -1002]) true 3 empty_store
      = (Ok h, st') ∧
    DHeap.pop_all 8 (h, st') = (Ok out, s'') ∧
    DHeap.heapsort 0%nat false sort_source = (Ok tt, st1) ∧
    st1 !! 0%nat = Some out.
Proof.
  apply (pops_agree_with_heapsort [1; 5; 64; 64; 12315; 677; -15; -1002] true 3
           empty_store sort_source 0%nat); [lia | reflexivity].
Defined.

(** ** Where [push] puts the value *)

Section PushPlacement.
Import DHeap.
Implicit Types (h : t) (st : store) (a : list Z).

(** [__sift_up] from [index] leaves the positions after [index] alone. *)
Lemma sift_up_rec_above h :
  1 ≤ branching_factor h →
  ∀ depth index st a,
    st !! heap_array h = Some a →
    in_range a index → index < Z.of_nat depth →
    ∃ a',
      sift_up_rec depth index (h, st) = (Ok tt, (h, <[heap_array h := a']> st)) ∧
      length a' = length a ∧
      (∀ j, index < j → item a' j = item a j).
Proof.
  intros Hbf. induction depth as [|d IH]; intros index st a Hst Hr Hd.
  { unfold in_range in Hr. lia. }
  cbn [sift_up_rec]. rewrite bind_attr. cbn [fst].
  unfold lift at 1. unfold bind at 1. rewrite floordiv_ok by lia.
  set (p0 := (index - 1) / branching_factor h).
  destruct (Z.leb_spec 0 p0) as [Hp|Hp].
  - assert (Hi1 : 1 ≤ index).
    { destruct (Z_le_gt_dec 1 index); [assumption|].
      pose proof (parent_neg _ Hbf index ltac:(lia)) as H. fold p0 in H. lia. }
    pose proof (parent_lt _ Hbf index Hi1) as Hpi. fold p0 in Hpi.
    assert (Hr0 : in_range a p0) by (unfold in_range in *; lia).
    rewrite (bind_ok _ _ _ _ _ (compare_ok h st a index p0 Hst Hr Hr0)).
    destruct (beats (max_heap h) (item a index) (item a p0)) eqn:Hb.
    + rewrite (bind_ok _ _ _ _ _ (swap_ok h st a index p0 Hst Hr Hr0)).
      destruct (IH p0 (<[heap_array h := swapped a index p0]> st) (swapped a index p0))
        as (a' & Hrun & Hlen & Habove).
      { apply lookup_insert_eq. }
      { unfold in_range. rewrite length_swapped. exact Hr0. }
      { lia. }
      exists a'. split; [rewrite Hrun; now rewrite insert_insert_eq|].
      split; [now rewrite Hlen, length_swapped|].
      intros j Hj. rewrite Habove by lia.
      rewrite item_swapped by (try assumption; lia).
      destruct (Z.eqb_spec j p0); [lia|]. destruct (Z.eqb_spec j index); [lia|].
      reflexivity.
    + exists a. split; [unfold ret; now rewrite insert_id|].
      split; reflexivity.
  - unfold bind at 1. unfold ret at 1.
    exists a. split; [unfold ret; now rewrite insert_id|]. split; reflexivity.
Qed.

End PushPlacement.

(** X16: where [push] puts the value, for a branching factor of at least 1.
    The value is appended at position [size] and compared with the element
    at the parent position [(size - 1) // branching_factor].  If the heap was
    empty or the value does not beat that element (a tie included), nothing
    moves: the storage is the old one with the value at the end.  If it
    beats it, the parent's element comes down to the new position, and every
    position after the parent's that was there before keeps its element. *)
Theorem push_placement (v : Z) (h : DHeap.t) (st : store) (a : list Z) :
  1 ≤ DHeap.branching_factor h →
  st !! DHeap.heap_array h = Some a →
  Z.of_nat (length a) = DHeap.last_index h + 1 →
  let parent := DHeap.last_index h / DHeap.branching_factor h in
  (a = [] ∨ beats (DHeap.max_heap h) v (item a parent) = false →
   DHeap.push v (h, st) =
     (Ok tt, (grown h, <[DHeap.heap_array h := a ++ [v]]> st))) ∧
  (a ≠ [] → beats (DHeap.max_heap h) v (item a parent) = true →
   ∃ a',
     DHeap.push v (h, st) = (Ok tt, (grown h, <[DHeap.heap_array h := a']> st)) ∧
     item a' (DHeap.last_index h + 1) = item a parent ∧
     (∀ j, parent < j ≤ DHeap.last_index h → item a' j = item a j)).
Proof.
  intros Hbf Hst Hlen parent.
  set (a1 := a ++ [v]).
  assert (Hpush : DHeap.push v (h, st) =
            (let* c := (if 0 <=? parent
                        then DHeap.__compare (DHeap.last_index h + 1) parent
                        else ret false) in
             if c
             then DHeap.__swap (DHeap.last_index h + 1) parent ;;
                  DHeap.sift_up_rec (Z.to_nat (DHeap.last_index h + 1)) parent
             else ret tt)
              (grown h, <[DHeap.heap_array h := a1]> st)).
  { unfold DHeap.push. rewrite bind_set_self. cbn [fst snd]. fold (grown h).
    rewrite (bind_ok _ _ _ _ _ (append_ok (grown h) st a v Hst)).
    rewrite bind_attr. unfold DHeap.__sift_up.
    cbn [fst grown DHeap.with_last_index DHeap.last_index].
    rewrite Nat.add_1_r. cbn [DHeap.sift_up_rec].
    rewrite bind_attr. cbn [fst grown DHeap.with_last_index DHeap.branching_factor].
    unfold lift at 1. unfold bind at 1. rewrite floordiv_ok by lia.
    replace (DHeap.last_index h + 1 - 1) with (DHeap.last_index h) by lia.
    reflexivity. }
  rewrite Hpush. clear Hpush.
  assert (Hst1 : (<[DHeap.heap_array h := a1]> st) !! DHeap.heap_array (grown h) = Some a1)
    by apply lookup_insert_eq.
  assert (Hlen1 : Z.of_nat (length a1) = DHeap.last_index h + 2).
  { unfold a1. rewrite length_app. cbn. lia. }
  assert (Hnew : item a1 (DHeap.last_index h + 1) = v).
  { unfold item, a1. apply list_lookup_total_middle. lia. }
  assert (Hold : ∀ j, 0 ≤ j ≤ DHeap.last_index h → item a1 j = item a j).
  { intros j Hj. unfold item, a1. apply lookup_total_app_l. lia. }
  destruct (Z.leb_spec 0 parent) as [Hp|Hp].
  - assert (Hne : 0 ≤ DHeap.last_index h).
    { destruct (Z_le_gt_dec 0 (DHeap.last_index h)); [assumption|].
      pose proof (parent_neg _ Hbf (DHeap.last_index h + 1) ltac:(lia)) as H.
      replace (DHeap.last_index h + 1 - 1) with (DHeap.last_index h) in H by lia.
      fold parent in H. lia. }
    assert (Hpl : parent ≤ DHeap.last_index h).
    { pose proof (parent_lt _ Hbf (DHeap.last_index h + 1) ltac:(lia)) as H.
      replace (DHeap.last_index h + 1 - 1) with (DHeap.last_index h) in H by lia.
      fold parent in H. lia. }
    assert (Hri : in_range a1 (DHeap.last_index h + 1)) by (unfold in_range; lia).
    assert (Hrp : in_range a1 parent) by (unfold in_range; lia).
    rewrite (bind_ok _ _ _ _ _
               (compare_ok (grown h) _ a1 (DHeap.last_index h + 1) parent Hst1 Hri Hrp)).
    rewrite Hnew, Hold by lia. cbn [grown DHeap.with_last_index DHeap.max_heap].
    split.
    + intros [->|Hb]; [cbn in Hlen; lia|]. rewrite Hb. reflexivity.
    + intros _ Hb. rewrite Hb. fold (grown h).
      rewrite (bind_ok _ _ _ _ _
                 (swap_ok (grown h) _ a1 (DHeap.last_index h + 1) parent Hst1 Hri Hrp)).
      cbn [grown DHeap.with_last_index DHeap.heap_array]. fold (grown h).
      rewrite insert_insert_eq.
      set (a2 := swapped a1 (DHeap.last_index h + 1) parent).
      destruct (sift_up_rec_above (grown h) Hbf (Z.to_nat (DHeap.last_index h + 1)) parent
                  (<[DHeap.heap_array h := a2]> st) a2)
        as (a' & Hrun & Hlen' & Habove).
      { apply lookup_insert_eq. }
      { unfold in_range, a2. rewrite length_swapped. exact Hrp. }
      { lia. }
      cbn [grown DHeap.with_last_index DHeap.heap_array] in Hrun. fold (grown h) in Hrun.
      rewrite insert_insert_eq in Hrun.
      exists a'. split; [exact Hrun|]. split.
      * rewrite Habove by lia. unfold a2. rewrite item_swapped by (try assumption; lia).
        destruct (Z.eqb_spec (DHeap.last_index h + 1) parent); [lia|].
        rewrite Z.eqb_refl. apply Hold. lia.
      * intros j Hj. rewrite Habove by lia. unfold a2.
        rewrite item_swapped by (try assumption; lia).
        destruct (Z.eqb_spec j parent); [lia|].
        destruct (Z.eqb_spec j (DHeap.last_index h + 1)); [lia|].
        apply Hold. lia.
  - unfold bind at 1. unfold ret at 1. split; [reflexivity|].
    intros Hne _. exfalso.
    assert (0 ≤ DHeap.last_index h) by (destruct a; [congruence | cbn in Hlen; lia]).
    pose proof (parent_nonneg _ Hbf (DHeap.last_index h + 1) ltac:(lia)) as H'.
    replace (DHeap.last_index h + 1 - 1) with (DHeap.last_index h) in H' by lia.
    fold parent in H'. lia.
Qed.

Lemma push_placement_witness :
  DHeap.push 5 (pop_heap', pop_store') =
    (Ok tt, (grown pop_heap', <[1%nat := [5; -2; 5; -10; -999; 0] ++ [5]]> pop_store')).
Proof.
  apply (push_placement 5 pop_heap' pop_store' [5; -2; 5; -10; -999; 0]);
    [cbn; lia | reflexivity | reflexivity | right; reflexivity].
Defined.

(** ** [pop] under a branching factor below 1 *)

Lemma swap_delete_last x (m : list Z) z :
  delete (length (x :: m ++ [z]) - 1)%nat
    (swapped (x :: m ++ [z]) 0 (Z.of_nat (length m) + 1)) = z :: m.
Proof.
  unfold swapped, item.
  replace (Z.to_nat (Z.of_nat (length m) + 1)) with (S (length m)) by lia.
  change (Z.to_nat 0) with 0%nat.
  assert (Hz : (x :: m ++ [z]) !!! S (length m) = z).
  { change ((m ++ [z]) !!! length m = z). now apply list_lookup_total_middle. }
  rewrite Hz. change ((x :: m ++ [z]) !!! 0%nat) with x.
  change (<[0%nat := z]> (x :: m ++ [z])) with (z :: m ++ [z]).
  change (<[S (length m) := x]> (z :: m ++ [z]))
    with (z :: <[length m := x]> (m ++ [z])).
  replace (length m) with (length m + 0)%nat at 1 by lia.
  rewrite insert_app_r. cbn [length]. rewrite length_app. cbn [length].
  replace (S (length m + 1) - 1)%nat with (S (length m)) by lia.
  change (z :: delete (length m) (m ++ <[0%nat := x]> [z]) = z :: m).
  f_equal. change (<[0%nat := x]> [z]) with [x].
  rewrite delete_middle. apply app_nil_r.
Qed.

(** X17: what [pop] does on a heap whose branching factor is below 1 (the
    constructor and [heapify] make such heaps).  [__sift_down] has no child
    to look at, so nothing is compared: [pop] returns the first element of
    the storage, whether or not it is the most extreme, and puts the last
    element in its place, the others staying where they are. *)
Theorem pop_branching_factor_below_1 (h : DHeap.t) (st : store)
    (x : Z) (m : list Z) (z : Z) :
  DHeap.branching_factor h < 1 →
  (st !! DHeap.heap_array h = Some [x] → DHeap.last_index h = 0 →
   DHeap.pop (h, st) = (Ok x, (shrunk h, <[DHeap.heap_array h := []]> st))) ∧
  (st !! DHeap.heap_array h = Some (x :: m ++ [z]) →
   DHeap.last_index h = Z.of_nat (length m) + 1 →
   DHeap.pop (h, st) = (Ok x, (shrunk h, <[DHeap.heap_array h := z :: m]> st))).
Proof.
  intros Hbf.
  assert (Hgen : ∀ a, st !! DHeap.heap_array h = Some a →
            Z.of_nat (length a) = DHeap.last_index h + 1 → 0 ≤ DHeap.last_index h →
            DHeap.pop (h, st) =
              (Ok (item a 0),
               (shrunk h,
                <[DHeap.heap_array h :=
                    delete (length a - 1)%nat (swapped a 0 (DHeap.last_index h))]> st))).
  { intros a Hst Hlen Hne.
    assert (Hr0 : in_range a 0) by (unfold in_range; lia).
    assert (Hrl : in_range a (DHeap.last_index h)) by (unfold in_range; lia).
    unfold DHeap.pop.
    rewrite (bind_ok _ _ _ _ _ (peek_ok h st a Hst ltac:(lia))).
    rewrite bind_attr. cbn [fst].
    rewrite (bind_ok _ _ _ _ _ (swap_ok h st a 0 (DHeap.last_index h) Hst Hr0 Hrl)).
    rewrite bind_attr. cbn [fst].
    rewrite (bind_ok _ _ _ _ _
               (pop_item_last_ok h _ (swapped a 0 (DHeap.last_index h))
                  (DHeap.last_index h) (lookup_insert_eq _ _ _)
                  ltac:(rewrite length_swapped; lia)
                  ltac:(rewrite length_swapped; lia))).
    rewrite insert_insert_eq, bind_set_self. cbn [fst snd].
    rewrite (bind_ok _ _ _ _ _ (sift_down_nop 0 (shrunk h, _) Hbf)).
    rewrite length_swapped. reflexivity. }
  split.
  - intros Hst Hl. rewrite (Hgen [x] Hst) by (cbn; lia). rewrite Hl. reflexivity.
  - intros Hst Hl. rewrite (Hgen _ Hst) by (cbn [length]; rewrite ?length_app; cbn [length]; lia).
    rewrite Hl, swap_delete_last. reflexivity.
Qed.

Lemma pop_branching_factor_below_1_witness :
  DHeap.pop (DHeap.mk (-1) true 0%nat 2, broken_store) =
    (Ok 5, (DHeap.mk (-1) true 0%nat 1, <[0%nat := [9; 3]]> broken_store)).
Proof.
  apply (pop_branching_factor_below_1 (DHeap.mk (-1) true 0%nat 2) broken_store 5 [3] 9);
    [cbn; lia | reflexivity | reflexivity].
Defined.
